(** * matfree: Lanczos-style decompositions with full reorthogonalisation

    A shallow embedding of [matfree/lanczos.py] (Lanczos tridiagonalisation and
    Golub-Kahan-Lanczos bidiagonalisation) together with the parts of
    [matfree.backend] and [matfree.decomp] that these functions call.

    Arrays of shape [(n,)] are lists of scalars, arrays of shape [(m, n)] are
    lists of rows.  Indices are Python integers ([Z]); a negative index counts
    from the end of the array.  The scalar arithmetic is an interface
    ([Scalar]) with two implementations: the real numbers (exact arithmetic)
    and IEEE binary64 floating-point numbers. *)

From Stdlib Require Import String DecimalString Floats Reals Lra.
From Stdlib Require Import ZArith Lia Bool List.
Import ListNotations.

(** ** The numeric backend *)

Module Backend.

(** Modelled from the spec: [matfree.backend] is not among the sources.  Its
    scalars enter the decompositions through these operations only. *)
Class Scalar (F : Type) : Type := {
  szero : F;
  sone : F;
  sadd : F -> F -> F;
  ssub : F -> F -> F;
  smul : F -> F -> F;
  sdiv : F -> F -> F;
  ssqrt : F -> F
}.

(** Exact arithmetic.  The quotient is the total [Rdiv] of the real numbers;
    what is stated over [R] about a quotient carries the hypothesis that the
    divisor is not zero. *)
#[export] Instance R_Scalar : Scalar R := {|
  szero := 0%R;
  sone := 1%R;
  sadd := Rplus;
  ssub := Rminus;
  smul := Rmult;
  sdiv := Rdiv;
  ssqrt := R_sqrt.sqrt
|}.

(** IEEE binary64 arithmetic. *)
#[export] Instance float_Scalar : Scalar float := {|
  szero := 0%float;
  sone := 1%float;
  sadd := PrimFloat.add;
  ssub := PrimFloat.sub;
  smul := PrimFloat.mul;
  sdiv := PrimFloat.div;
  ssqrt := PrimFloat.sqrt
|}.

Section Arrays.

Context {F : Type} `{Scalar F}.

(** Modelled from the spec: [np.zeros((n,))] and [np.zeros((m, n))] of the
    missing backend, the zero-initialised padding. *)
Definition zeros (n : Z) : list F := repeat szero (Z.to_nat n).

Definition zeros2 (m n : Z) : list (list F) := repeat (zeros n) (Z.to_nat m).

(** Modelled from the spec: the vector arithmetic of the missing backend,
    [c * v], [v / c], [u - v] and [u + v] on arrays of shape [(n,)]. *)
Definition vscale (c : F) (v : list F) : list F := map (smul c) v.

Definition vdiv (v : list F) (c : F) : list F := map (fun x => sdiv x c) v.

Fixpoint vsub (u v : list F) : list F :=
  match u, v with
  | x :: u', y :: v' => ssub x y :: vsub u' v'
  | _, _ => []
  end.

Fixpoint vadd (u v : list F) : list F :=
  match u, v with
  | x :: u', y :: v' => sadd x y :: vadd u' v'
  | _, _ => []
  end.

(** Modelled from the spec: [linalg.vecdot] and [linalg.vector_norm] of the
    missing backend, the dot product and the Euclidean norm. *)
Fixpoint vecdot (u v : list F) : F :=
  match u, v with
  | x :: u', y :: v' => sadd (smul x y) (vecdot u' v')
  | _, _ => szero
  end.

Definition vector_norm (v : list F) : F := ssqrt (vecdot v v).

(** Modelled from the spec: [A.T] of the missing backend, for an array of
    shape [(m, n)] with [m >= 1]. *)
Definition transpose (M : list (list F)) : list (list F) :=
  match M with
  | [] => []
  | r :: _ => map (fun j => map (fun row => nth j row szero) M) (seq 0 (length r))
  end.

(** Modelled from the spec: [M @ v] and [M @ N] of the missing backend. *)
Definition matvec (M : list (list F)) (v : list F) : list F :=
  map (fun row => vecdot row v) M.

Definition matmul (M N : list (list F)) : list (list F) :=
  map (fun row => map (fun col => vecdot row col) (transpose N)) M.

(** Modelled from the spec: [v @ M] of the missing backend, the vector-matrix
    product. *)
Definition vecmat (v : list F) (M : list (list F)) : list F :=
  map (fun col => vecdot v col) (transpose M).

(** Modelled from the spec: [M + N] of the missing backend, on arrays of the
    same shape [(m, n)]. *)
Fixpoint madd (M N : list (list F)) : list (list F) :=
  match M, N with
  | r :: M', s :: N' => vadd r s :: madd M' N'
  | _, _ => []
  end.

(** Modelled from the spec: [np.eye(n)] of the missing backend. *)
Definition eye (n : nat) : list (list F) :=
  map (fun a => map (fun b => if Nat.eqb a b then sone else szero) (seq 0 n)) (seq 0 n).

(** Modelled from the spec: [linalg.diagonal_matrix(v, k)] of the missing
    backend, the square matrix with [v] on its [k]-th diagonal (above the main
    diagonal for [k > 0], below it for [k < 0]). *)
Definition diagonal_matrix (v : list F) (k : Z) : list (list F) :=
  let n := (length v + Z.abs_nat k)%nat in
  map (fun a =>
         map (fun b => if (Z.of_nat b - Z.of_nat a =? k)%Z
                       then nth (Nat.min a b) v szero else szero)
             (seq 0 n))
      (seq 0 n).

End Arrays.

Section Indexing.

Context {A : Type}.

(** Modelled from the spec: indexing of the missing backend.  A negative
    index counts from the end, so that row [-1] is the last row. *)
Definition norm_index (i len : Z) : Z := if (i <? 0)%Z then (i + len)%Z else i.

Fixpoint list_update (l : list A) (k : nat) (x : A) : list A :=
  match l, k with
  | [], _ => []
  | _ :: l', O => x :: l'
  | y :: l', S k' => y :: list_update l' k' x
  end.

(** Modelled from the spec: [a[i]] of the missing backend; an index beyond
    the array is clamped to the nearest entry. *)
Definition getitem (d : A) (l : list A) (i : Z) : A :=
  let len := Z.of_nat (length l) in
  let j := norm_index i len in
  nth (Z.to_nat (Z.max 0 (Z.min j (len - 1)))) l d.

(** Modelled from the spec: [a.at[i].set(x)] of the missing backend, which
    returns the updated copy; a write beyond the array is dropped. *)
Definition at_set (l : list A) (i : Z) (x : A) : list A :=
  let len := Z.of_nat (length l) in
  let j := norm_index i len in
  if ((0 <=? j) && (j <? len))%Z then list_update l (Z.to_nat j) x else l.

End Indexing.

Section ControlFlow.

Context {C X Y : Type}.

(** Modelled from the spec: [control_flow.scan(f, init, xs)] of the missing
    backend threads the carry through [xs] from the left and collects the
    per-element outputs in order. *)
Fixpoint scan (f : C -> X -> C * Y) (init : C) (xs : list X) : C * list Y :=
  match xs with
  | [] => (init, [])
  | x :: xs' =>
      let '(c, y) := f init x in
      let '(c', ys) := scan f c xs' in
      (c', y :: ys)
  end.

Fixpoint fori_loop_from (count : nat) (k : Z) (body : Z -> C -> C) (s : C) : C :=
  match count with
  | O => s
  | S count' => fori_loop_from count' (k + 1)%Z body (body k s)
  end.

(** Modelled from the spec: [control_flow.fori_loop(lower, upper, body, init)]
    of the missing backend applies [body] to every index of the range in
    order. *)
Definition fori_loop (lower upper : Z) (body : Z -> C -> C) (s : C) : C :=
  fori_loop_from (Z.to_nat (upper - lower)) lower body s.

End ControlFlow.

(** Python's [str] on integers, as used by f-strings. *)
Definition str (z : Z) : string := NilZero.string_of_int (Z.to_int z).

(** Exceptions. *)
Inductive exn : Type :=
| ValueError (msg : option string).

Inductive result (A : Type) : Type :=
| Ok (a : A)
| Raise (e : exn).

Arguments Ok {A} a.
Arguments Raise {A} e.

End Backend.

Import Backend.

(** ** [matfree/lanczos.py]: shared parts and Lanczos tridiagonalisation *)

Module Lanczos.

(** Matrix decomposition algorithm: [init] initialises the state (and may
    raise), [step] computes the next iteration from the state and the
    matrix-vector products, [extract] reads the solution off the state, and
    [lower_upper] is the range of the for-loop. *)
Record _DecompAlg (Vec State Ops Out : Type) : Type := mk_DecompAlg {
  init : Vec -> result State;
  step : State -> Ops -> State;
  extract : State -> Out;
  lower_upper : Z * Z
}.

Arguments mk_DecompAlg {Vec State Ops Out} init step extract lower_upper.
Arguments init {Vec State Ops Out} _ _.
Arguments step {Vec State Ops Out} _ _ _.
Arguments extract {Vec State Ops Out} _ _.
Arguments lower_upper {Vec State Ops Out} _.

Section WithScalar.

Context {F : Type} `{Scalar F}.

Definition _normalise (vec : list F) : list F * F :=
  let length := vector_norm vec in
  (vdiv vec length, length).

Definition _gram_schmidt_orthogonalise (vec1 vec2 : list F) : list F * F :=
  let coeff := vecdot vec1 vec2 in
  let vec_ortho := vsub vec1 (vscale coeff vec2) in
  (vec_ortho, coeff).

Definition _gram_schmidt_orthogonalise_set (vec : list F) (vectors : list (list F))
  : list F * list F :=
  let '(vec, coeffs) := scan _gram_schmidt_orthogonalise vec vectors in
  (vec, coeffs).

Record _LanczosState : Type := mk_LanczosState {
  i : Z;
  basis : list (list F);
  tridiag : list F * list F;
  q : list F
}.

Definition _lanczos_full_reortho_init (depth : Z) (init_vec : list F)
  : result _LanczosState :=
  let ncols := Z.of_nat (length init_vec) in
  if ((depth >=? ncols) || (depth <? 1))%Z then Raise (ValueError None)
  else
    let diag := zeros (depth + 1) in
    let offdiag := zeros depth in
    let basis := zeros2 (depth + 1) ncols in
    Ok (mk_LanczosState 0 basis (diag, offdiag) init_vec).

Definition _lanczos_full_reortho_apply (state : _LanczosState)
  (Av : list F -> list F) : _LanczosState :=
  let '(mk_LanczosState i basis (diag, offdiag) vec) := state in
  let '(vec, length) := _normalise vec in
  let '(vec, _) := _gram_schmidt_orthogonalise_set vec basis in
  let '(vec, _) := _normalise vec in
  let basis := at_set basis i vec in
  let vec := Av vec in
  let basis_vectors_previous := [getitem [] basis i; getitem [] basis (i - 1)] in
  let '(vec, coeffs) := _gram_schmidt_orthogonalise_set vec basis_vectors_previous in
  let coeff := hd szero coeffs in
  let diag := at_set diag i coeff in
  let offdiag := at_set offdiag (i - 1) length in
  mk_LanczosState (i + 1) basis (diag, offdiag) vec.

Definition _lanczos_full_reortho_extract (state : _LanczosState)
  : list (list F) * (list F * list F) :=
  let '(mk_LanczosState _ basis (diag, offdiag) _) := state in
  (basis, (diag, offdiag)).

(** [lanczos_full_reortho(depth)] only bundles the callbacks. *)
Definition lanczos_full_reortho (depth : Z)
  : _DecompAlg (list F) _LanczosState (list F -> list F)
               (list (list F) * (list F * list F)) :=
  {| init := _lanczos_full_reortho_init depth;
     step := _lanczos_full_reortho_apply;
     extract := _lanczos_full_reortho_extract;
     lower_upper := (0, depth + 1)%Z |}.

End WithScalar.

Arguments _LanczosState F : clear implicits.

End Lanczos.

(** ** [matfree/lanczos.py]: Golub-Kahan-Lanczos bidiagonalisation *)

Module GKL.

Import Lanczos.

Section WithScalar.

Context {F : Type} `{Scalar F}.

Record _GKLState : Type := mk_GKLState {
  i : Z;
  Us : list (list F);
  Vs : list (list F);
  alphas : list F;
  betas : list F;
  beta : F;
  vk : list F
}.

Definition _gkl_full_reortho_init (depth : Z) (matrix_shape : Z * Z)
  (init_vec : list F) : _GKLState :=
  let '(nrows, ncols) := matrix_shape in
  let alphas := zeros (depth + 1) in
  let betas := zeros (depth + 1) in
  let Us := zeros2 (depth + 1) nrows in
  let Vs := zeros2 (depth + 1) ncols in
  let '(v0, _) := _normalise init_vec in
  mk_GKLState 0 Us Vs alphas betas szero v0.

Definition _gkl_full_reortho_apply (state : _GKLState)
  (Av vA : list F -> list F) : _GKLState :=
  let '(mk_GKLState i Us Vs alphas betas beta vk) := state in
  let Vs := at_set Vs i vk in
  let betas := at_set betas i beta in
  let uk := vsub (Av vk) (vscale beta (getitem [] Us (i - 1))) in
  let '(uk, alpha) := _normalise uk in
  let '(uk, _) := _gram_schmidt_orthogonalise_set uk Us in
  let '(uk, _) := _normalise uk in
  let Us := at_set Us i uk in
  let alphas := at_set alphas i alpha in
  let vk := vsub (vA uk) (vscale alpha vk) in
  let '(vk, beta) := _normalise vk in
  let '(vk, _) := _gram_schmidt_orthogonalise_set vk Vs in
  let '(vk, _) := _normalise vk in
  mk_GKLState (i + 1) Us Vs alphas betas beta vk.

Definition _gkl_full_reortho_extract (state : _GKLState)
  : list (list F) * (list F * list F) * list (list F) * (F * list F) :=
  let '(mk_GKLState _ uk_all vk_all alphas betas beta vk) := state in
  (transpose uk_all, (alphas, skipn 1 betas), vk_all, (beta, vk)).

Definition gkl_full_reortho (depth : Z) (matrix_shape : Z * Z)
  : result (_DecompAlg (list F) _GKLState
              ((list F -> list F) * (list F -> list F))
              (list (list F) * (list F * list F) * list (list F) * (F * list F))) :=
  let '(nrows, ncols) := matrix_shape in
  let max_depth := (Z.min nrows ncols - 1)%Z in
  if ((depth >? max_depth) || (depth <? 0))%Z then
    let msg1 := ("Depth " ++ str depth ++ " exceeds the matrix' dimensions. ")%string in
    let msg2 := ("Expected: 0 <= depth <= min(nrows, ncols) - 1 = "
                 ++ str max_depth ++ " ")%string in
    let msg3 := ("for a matrix with shape (" ++ str nrows ++ ", " ++ str ncols
                 ++ ").")%string in
    Raise (ValueError (Some (msg1 ++ msg2 ++ msg3)%string))
  else
    Ok {| init := fun init_vec => Ok (_gkl_full_reortho_init depth matrix_shape init_vec);
          step := fun state '(Av, vA) => _gkl_full_reortho_apply state Av vA;
          extract := _gkl_full_reortho_extract;
          lower_upper := (0, depth + 1)%Z |}.

End WithScalar.

Arguments _GKLState F : clear implicits.

End GKL.

(** ** [matfree.decomp]: the generic fixed-count driver *)

Module Decomp.

Import Lanczos.

(** The calls that the driver makes on the callbacks of a descriptor. *)
Inductive event : Type :=
| Init_called
| Step_called (k : Z)
| Extract_called.

(** Modelled from the spec: [decomp.decompose_fori_loop] is not among the
    sources.  It calls [init] once, then [step] once for every index of the
    range in order, threading the state, then [extract] once; an exception
    raised by [init] ends the call.  The calls made are recorded next to the
    result. *)
Definition decompose_fori_loop {Vec State Ops Out : Type} (lower upper : Z)
  (init_vec : Vec) (matvec_funs : Ops) (alg : _DecompAlg Vec State Ops Out)
  : list event * result Out :=
  match init alg init_vec with
  | Raise e => ([Init_called], Raise e)
  | Ok init_val =>
      let body := fun (k : Z) '(log, s) =>
                    (log ++ [Step_called k], step alg s matvec_funs) in
      let '(log, final) := fori_loop lower upper body ([Init_called], init_val) in
      (log ++ [Extract_called], Ok (extract alg final))
  end.

End Decomp.

(** ** [tests/test_decomp.py]: dense reconstruction of the tridiagonal matrix *)

Module Tests.

Section WithScalar.

Context {F : Type} `{Scalar F}.

Definition _sym_tridiagonal_dense (d e : list F) : list (list F) :=
  let diag := diagonal_matrix d 0 in
  let offdiag1 := diagonal_matrix e 1 in
  let offdiag2 := diagonal_matrix e (-1) in
  madd (madd diag offdiag1) offdiag2.

End WithScalar.

End Tests.

(** ** [matfree/eig.py]: dense reconstruction of the bidiagonal matrix *)

Module Eig.

Section WithScalar.

Context {F : Type} `{Scalar F}.

Definition _bidiagonal_dense (d e : list F) : list (list F) :=
  let diag := diagonal_matrix d 0 in
  let offdiag := diagonal_matrix e 1 in
  madd diag offdiag.

End WithScalar.

End Eig.

Import Lanczos Decomp Tests Eig.

(** ** Vocabulary of the specification *)

Section Vocabulary.

Context {F : Type} `{Scalar F}.

(** [project_out_sequence] as the specification words it: a left fold of the
    single-vector projection over the reference vectors that accumulates the
    residual and the coefficients, in the order of the reference vectors. *)
Definition project_out_sequence (v : list F) (refs : list (list F))
  : list F * list F :=
  fold_left
    (fun '(residual, coeffs) ref =>
       let '(residual', c) := _gram_schmidt_orthogonalise residual ref in
       (residual', coeffs ++ [c]))
    refs (v, []).

(** The state after [k] tridiagonal steps from [s]. *)
Definition lanczos_steps (Av : list F -> list F) (k : nat) (s : _LanczosState F)
  : _LanczosState F :=
  Nat.iter k (fun st => _lanczos_full_reortho_apply st Av) s.

(** The state after [k] bidiagonal steps from [s]. *)
Definition gkl_steps (Av vA : list F -> list F) (k : nat) (s : GKL._GKLState F)
  : GKL._GKLState F :=
  Nat.iter k (fun st => GKL._gkl_full_reortho_apply st Av vA) s.

(** The two vectors that a tridiagonal step normalises: the working vector,
    and the residual of its normalisation after full reorthogonalisation. *)
Definition normalised_by_step (st : _LanczosState F) : list (list F) :=
  [q st;
   fst (_gram_schmidt_orthogonalise_set (fst (_normalise (q st))) (basis st))].

(** An array of shape [(m, n)]. *)
Definition has_shape (m n : nat) (M : list (list F)) : Prop :=
  length M = m /\ Forall (fun row => length row = n) M.

(** Entry [(a, b)] of a matrix. *)
Definition entry (M : list (list F)) (a b : nat) : F := nth b (nth a M []) szero.

End Vocabulary.

(** No normalisation of the first [steps] tridiagonal steps from [s] meets a
    vector of norm zero (exact arithmetic). *)
Definition no_zero_normalisation (Av : list R -> list R) (steps : nat)
  (s : _LanczosState R) : Prop :=
  forall k v, (k < steps)%nat ->
    In v (normalised_by_step (lanczos_steps Av k s)) -> vector_norm v <> 0%R.

(** A symmetric matrix. *)
Definition symmetric (A : list (list R)) : Prop :=
  forall a b, entry A a b = entry A b a.

(** The sum of [f k] over [k < n]. *)
Fixpoint big_sum (f : nat -> R) (n : nat) : R :=
  match n with
  | O => 0%R
  | S n' => (big_sum f n' + f n')%R
  end.

(** What holds of the state after [k] tridiagonal steps on a symmetric
    [n]-by-[n] matrix [A] in exact arithmetic: the first [k] rows of the basis
    are orthonormal and the others are zero, the working vector is orthogonal
    to the rows written, the coefficients stored are those of [A] in the
    basis, and [A] maps every row written into the span of its neighbours (and
    of the working vector, for the last one), stated through the vectors
    orthogonal to that span. *)
Record lanczos_invariant (A : list (list R)) (n k : nat) (st : _LanczosState R)
  : Prop := {
  inv_index : i st = Z.of_nat k;
  inv_basis_shape : has_shape n n (basis st);
  inv_diag_length : length (fst (tridiag st)) = n;
  inv_offdiag_length : length (snd (tridiag st)) = (n - 1)%nat;
  inv_vec_length : length (q st) = n;
  inv_padding :
    forall j, (k <= j < n)%nat -> nth j (basis st) [] = repeat 0%R n;
  inv_orthonormal :
    forall a b, (a < k)%nat -> (b < k)%nat ->
      vecdot (nth a (basis st) []) (nth b (basis st) [])
      = if Nat.eqb a b then 1%R else 0%R;
  inv_vec_orthogonal :
    forall j, (j < k)%nat -> vecdot (q st) (nth j (basis st) []) = 0%R;
  inv_diag :
    forall j, (j < k)%nat ->
      nth j (fst (tridiag st)) 0%R
      = vecdot (nth j (basis st) []) (matvec A (nth j (basis st) []));
  inv_offdiag :
    forall j, (1 <= j < k)%nat ->
      nth (j - 1) (snd (tridiag st)) 0%R
      = vecdot (nth j (basis st) []) (matvec A (nth (j - 1) (basis st) []));
  inv_recurrence :
    forall j w, (S j < k)%nat -> length w = n ->
      vecdot w (nth (S j) (basis st) []) = 0%R ->
      vecdot w (nth j (basis st) []) = 0%R ->
      ((1 <= j)%nat -> vecdot w (nth (j - 1) (basis st) []) = 0%R) ->
      vecdot w (matvec A (nth j (basis st) [])) = 0%R;
  inv_pending :
    forall w, (1 <= k)%nat -> length w = n ->
      vecdot w (nth (k - 1) (basis st) []) = 0%R ->
      ((2 <= k)%nat -> vecdot w (nth (k - 2) (basis st) []) = 0%R) ->
      vecdot w (matvec A (nth (k - 1) (basis st) [])) = vecdot w (q st)
}.

(** Rows that are pairwise orthogonal and of unit length. *)
Definition orthonormal_rows (B : list (list R)) : Prop :=
  forall a b, (a < length B)%nat -> (b < length B)%nat ->
    vecdot (nth a B []) (nth b B []) = if Nat.eqb a b then 1%R else 0%R.

(** The invariant of the tridiagonal run for a basis of [m] rows of
    dimension [n]: [lanczos_invariant] with the number of rows free, for runs
    of any depth. *)
Record lanczos_partial_invariant (A : list (list R)) (m n k : nat)
  (st : _LanczosState R) : Prop := {
  pinv_index : i st = Z.of_nat k;
  pinv_basis_shape : has_shape m n (basis st);
  pinv_diag_length : length (fst (tridiag st)) = m;
  pinv_offdiag_length : length (snd (tridiag st)) = (m - 1)%nat;
  pinv_vec_length : length (q st) = n;
  pinv_padding :
    forall j, (k <= j < m)%nat -> nth j (basis st) [] = repeat 0%R n;
  pinv_orthonormal :
    forall a b, (a < k)%nat -> (b < k)%nat ->
      vecdot (nth a (basis st) []) (nth b (basis st) [])
      = if Nat.eqb a b then 1%R else 0%R;
  pinv_vec_orthogonal :
    forall j, (j < k)%nat -> vecdot (q st) (nth j (basis st) []) = 0%R;
  pinv_diag :
    forall j, (j < k)%nat ->
      nth j (fst (tridiag st)) 0%R
      = vecdot (nth j (basis st) []) (matvec A (nth j (basis st) []));
  pinv_offdiag :
    forall j, (1 <= j < k)%nat ->
      nth (j - 1) (snd (tridiag st)) 0%R
      = vecdot (nth j (basis st) []) (matvec A (nth (j - 1) (basis st) []));
  pinv_recurrence :
    forall j w, (S j < k)%nat -> length w = n ->
      vecdot w (nth (S j) (basis st) []) = 0%R ->
      vecdot w (nth j (basis st) []) = 0%R ->
      ((1 <= j)%nat -> vecdot w (nth (j - 1) (basis st) []) = 0%R) ->
      vecdot w (matvec A (nth j (basis st) [])) = 0%R;
  pinv_pending :
    forall w, (1 <= k)%nat -> length w = n ->
      vecdot w (nth (k - 1) (basis st) []) = 0%R ->
      ((2 <= k)%nat -> vecdot w (nth (k - 2) (basis st) []) = 0%R) ->
      vecdot w (matvec A (nth (k - 1) (basis st) [])) = vecdot w (q st)
}.

(** The vector that a bidiagonal step normalises to obtain the next left
    vector: [Av(vk) - beta * Us[i - 1]]. *)
Definition gkl_left_residual (Av : list R -> list R) (st : GKL._GKLState R)
  : list R :=
  vsub (Av (GKL.vk st))
    (vscale (GKL.beta st) (getitem [] (GKL.Us st) (GKL.i st - 1)%Z)).

(** The vector that the step normalises to obtain the next right vector when
    the reorthogonalisation of the left vector changes nothing:
    [vA(uk) - alpha * vk], for the normalised left residual [uk] and its
    length [alpha]. *)
Definition gkl_right_residual (Av vA : list R -> list R) (st : GKL._GKLState R)
  : list R :=
  let alpha := vector_norm (gkl_left_residual Av st) in
  vsub (vA (vdiv (gkl_left_residual Av st) alpha)) (vscale alpha (GKL.vk st)).

(** No breakdown in a bidiagonal run of [depth + 1] steps: the initial vector
    is not zero, and the final state holds no zero among the entries of
    [alphas] and, from the second on, of [betas]. *)
Definition gkl_no_breakdown (Av vA : list R -> list R) (depth : Z)
  (matrix_shape : Z * Z) (v0 : list R) : Prop :=
  let st := gkl_steps Av vA (Z.to_nat (depth + 1))
              (GKL._gkl_full_reortho_init depth matrix_shape v0) in
  vector_norm v0 <> 0%R
  /\ Forall (fun c => c <> 0%R) (GKL.alphas st)
  /\ Forall (fun c => c <> 0%R) (skipn 1 (GKL.betas st)).

(** What holds of the two bases and the coefficients after [k] bidiagonal
    steps on an [nr]-by-[nc] matrix [A] in exact arithmetic, for bases of [m]
    rows: the first [k] rows of each basis are orthonormal and the others are
    zero, [A] maps the [j]-th right vector to [alphas[j]] times the [j]-th
    left vector plus [betas[j]] times the left vector before it, and the
    transpose of [A] maps the [j]-th left vector to [alphas[j]] times the
    [j]-th right vector plus [betas[j + 1]] times the next one; both
    relations are stated through their dot products with any vector. *)
Record gkl_invariant (A : list (list R)) (m nr nc k : nat)
  (st : GKL._GKLState R) : Prop := {
  ginv_index : GKL.i st = Z.of_nat k;
  ginv_Us_shape : has_shape m nr (GKL.Us st);
  ginv_Vs_shape : has_shape m nc (GKL.Vs st);
  ginv_alphas_length : length (GKL.alphas st) = m;
  ginv_betas_length : length (GKL.betas st) = m;
  ginv_Us_padding :
    forall j, (k <= j < m)%nat -> nth j (GKL.Us st) [] = repeat 0%R nr;
  ginv_Vs_padding :
    forall j, (k <= j < m)%nat -> nth j (GKL.Vs st) [] = repeat 0%R nc;
  ginv_Us_orthonormal :
    forall a b, (a < k)%nat -> (b < k)%nat ->
      vecdot (nth a (GKL.Us st) []) (nth b (GKL.Us st) [])
      = if Nat.eqb a b then 1%R else 0%R;
  ginv_Vs_orthonormal :
    forall a b, (a < k)%nat -> (b < k)%nat ->
      vecdot (nth a (GKL.Vs st) []) (nth b (GKL.Vs st) [])
      = if Nat.eqb a b then 1%R else 0%R;
  ginv_forward :
    forall j w, (j < k)%nat -> length w = nr ->
      vecdot w (matvec A (nth j (GKL.Vs st) []))
      = (nth j (GKL.alphas st) 0 * vecdot w (nth j (GKL.Us st) [])
         + (if Nat.eqb j 0 then 0
            else nth j (GKL.betas st) 0
                 * vecdot w (nth (j - 1) (GKL.Us st) [])))%R;
  ginv_backward :
    forall j w, (S j < k)%nat -> length w = nc ->
      vecdot w (vecmat (nth j (GKL.Us st) []) A)
      = (nth j (GKL.alphas st) 0 * vecdot w (nth j (GKL.Vs st) [])
         + nth (S j) (GKL.betas st) 0 * vecdot w (nth (S j) (GKL.Vs st) []))%R
}.

(** What holds of the working vector and the trailing scalar before step [k]:
    the working vector is a unit vector orthogonal to the right vectors
    written, and it completes, with the trailing scalar, the relation of the
    transpose of [A] on the last left vector written. *)
Record gkl_pending (A : list (list R)) (nc k : nat) (st : GKL._GKLState R)
  : Prop := {
  gpend_length : length (GKL.vk st) = nc;
  gpend_unit : vecdot (GKL.vk st) (GKL.vk st) = 1%R;
  gpend_orthogonal :
    forall j, (j < k)%nat -> vecdot (GKL.vk st) (nth j (GKL.Vs st) []) = 0%R;
  gpend_backward :
    forall w, (1 <= k)%nat -> length w = nc ->
      vecdot w (vecmat (nth (k - 1) (GKL.Us st) []) A)
      = (nth (k - 1) (GKL.alphas st) 0 * vecdot w (nth (k - 1) (GKL.Vs st) [])
         + GKL.beta st * vecdot w (GKL.vk st))%R
}.

(** * Properties *)

(** ** Indexing *)

Section IndexingFacts.

Context {A : Type}.

Implicit Types (l : list A) (x d : A) (j k : nat) (i : Z).

Lemma list_update_length l k x : length (list_update l k x) = length l.
Proof.
  revert k; induction l as [|y l IH]; intros [|k]; simpl; auto.
Qed.

Lemma nth_error_list_update_eq l k x :
  (k < length l)%nat -> nth_error (list_update l k x) k = Some x.
Proof.
  revert k; induction l as [|y l IH]; intros [|k] Hk; simpl in *; try lia; auto.
  apply IH; lia.
Qed.

Lemma nth_error_list_update_neq l k j x :
  j <> k -> nth_error (list_update l k x) j = nth_error l j.
Proof.
  revert k j; induction l as [|y l IH]; intros [|k] [|j] Hjk; simpl; auto; try lia.
Qed.

Lemma nth_list_update_eq l k x d :
  (k < length l)%nat -> nth k (list_update l k x) d = x.
Proof.
  intros Hk. apply nth_error_nth. now apply nth_error_list_update_eq.
Qed.

Lemma nth_list_update_neq l k j x d :
  j <> k -> nth j (list_update l k x) d = nth j l d.
Proof.
  revert k j; induction l as [|y l IH]; intros [|k] [|j] Hjk; simpl; auto; try lia.
Qed.

Lemma at_set_length l i x : length (at_set l i x) = length l.
Proof.
  unfold at_set. destruct (_ && _); auto using list_update_length.
Qed.

(** An index of the range [0 <= i < len] addresses entry [i]. *)
Lemma at_set_in_range l i x :
  (0 <= i < Z.of_nat (length l))%Z -> at_set l i x = list_update l (Z.to_nat i) x.
Proof.
  intros Hi. unfold at_set, norm_index.
  rewrite (proj2 (Z.ltb_ge _ _)) by lia.
  rewrite (proj2 (Z.leb_le _ _)), (proj2 (Z.ltb_lt _ _)) by lia.
  reflexivity.
Qed.

(** Index [-1] addresses the last entry. *)
Lemma at_set_minus_one l x :
  l <> [] -> at_set l (-1) x = list_update l (length l - 1) x.
Proof.
  intros Hl. unfold at_set, norm_index.
  assert (0 < length l)%nat by (destruct l; [congruence | simpl; lia]).
  change (-1 <? 0)%Z with true. cbv iota.
  rewrite (proj2 (Z.leb_le _ _)), (proj2 (Z.ltb_lt _ _)) by lia.
  cbn [andb]. f_equal. lia.
Qed.

Lemma getitem_in_range d l i :
  (0 <= i < Z.of_nat (length l))%Z -> getitem d l i = nth (Z.to_nat i) l d.
Proof.
  intros Hi. unfold getitem, norm_index.
  rewrite (proj2 (Z.ltb_ge _ _)) by lia.
  f_equal. lia.
Qed.

Lemma getitem_minus_one d l :
  l <> [] -> getitem d l (-1) = nth (length l - 1) l d.
Proof.
  intros Hl. unfold getitem, norm_index.
  assert (0 < length l)%nat by (destruct l; [congruence | simpl; lia]).
  change (-1 <? 0)%Z with true. cbv iota.
  f_equal. lia.
Qed.

End IndexingFacts.

(** ** Gram-Schmidt projection, for any scalar arithmetic *)

Section GramSchmidtFacts.

Context {F : Type} `{Scalar F}.

Implicit Types (u v w ref : list F) (refs : list (list F)).

Lemma gram_schmidt_set_is_scan v refs :
  _gram_schmidt_orthogonalise_set v refs = scan _gram_schmidt_orthogonalise v refs.
Proof.
  unfold _gram_schmidt_orthogonalise_set. now destruct (scan _ v refs).
Qed.

Lemma gram_schmidt_set_nil v : _gram_schmidt_orthogonalise_set v [] = (v, []).
Proof. reflexivity. Qed.

Lemma gram_schmidt_set_cons v ref refs :
  _gram_schmidt_orthogonalise_set v (ref :: refs) =
  (fst (_gram_schmidt_orthogonalise_set (vsub v (vscale (vecdot v ref) ref)) refs),
   vecdot v ref
   :: snd (_gram_schmidt_orthogonalise_set (vsub v (vscale (vecdot v ref) ref)) refs)).
Proof.
  rewrite !gram_schmidt_set_is_scan. simpl.
  now destruct (scan _ _ refs).
Qed.

Lemma gram_schmidt_set_app v refs1 refs2 :
  fst (_gram_schmidt_orthogonalise_set v (refs1 ++ refs2)) =
  fst (_gram_schmidt_orthogonalise_set
         (fst (_gram_schmidt_orthogonalise_set v refs1)) refs2).
Proof.
  revert v; induction refs1 as [|r refs1 IH]; intros v; simpl.
  - reflexivity.
  - rewrite !gram_schmidt_set_cons. simpl. apply IH.
Qed.

Lemma gram_schmidt_set_coeffs_length v refs :
  length (snd (_gram_schmidt_orthogonalise_set v refs)) = length refs.
Proof.
  revert v; induction refs as [|r refs IH]; intros v.
  - reflexivity.
  - rewrite gram_schmidt_set_cons. simpl. now rewrite IH.
Qed.

Lemma project_out_sequence_from refs : forall v acc,
  fold_left
    (fun '(residual, coeffs) ref =>
       let '(residual', c) := _gram_schmidt_orthogonalise residual ref in
       (residual', coeffs ++ [c]))
    refs (v, acc) =
  (fst (_gram_schmidt_orthogonalise_set v refs),
   acc ++ snd (_gram_schmidt_orthogonalise_set v refs)).
Proof.
  induction refs as [|r refs IH]; intros v acc.
  - simpl. now rewrite app_nil_r.
  - rewrite gram_schmidt_set_cons. cbn [fold_left fst snd].
    change (_gram_schmidt_orthogonalise v r)
      with (vsub v (vscale (vecdot v r) r), vecdot v r).
    cbv beta iota. rewrite IH.
    now rewrite <- app_assoc.
Qed.

Lemma gram_schmidt_set_is_fold v refs :
  _gram_schmidt_orthogonalise_set v refs = project_out_sequence v refs.
Proof.
  unfold project_out_sequence. rewrite project_out_sequence_from. simpl.
  now destruct (_gram_schmidt_orthogonalise_set v refs).
Qed.

(** C7: the single-vector projection returns the residual
    [v - dot(v, ref) * ref] and the coefficient [dot(v, ref)]; the batched
    projection is the left fold of the single-vector projection over the
    reference vectors, and returns the final residual with one coefficient per
    reference vector, in their order. *)
Theorem gram_schmidt_projection_fold v ref refs :
  _gram_schmidt_orthogonalise v ref
    = (vsub v (vscale (vecdot v ref) ref), vecdot v ref)
  /\ _gram_schmidt_orthogonalise_set v refs = project_out_sequence v refs
  /\ fst (_gram_schmidt_orthogonalise_set v refs)
       = fold_left (fun residual r => fst (_gram_schmidt_orthogonalise residual r)) refs v
  /\ length (snd (_gram_schmidt_orthogonalise_set v refs)) = length refs
  /\ (forall k r, nth_error refs k = Some r ->
        nth_error (snd (_gram_schmidt_orthogonalise_set v refs)) k
        = Some (vecdot (fst (_gram_schmidt_orthogonalise_set v (firstn k refs))) r)).
Proof.
  split; [reflexivity|].
  split; [apply gram_schmidt_set_is_fold|].
  split; [|split; [apply gram_schmidt_set_coeffs_length|]].
  - revert v; induction refs as [|r0 refs IH]; intros v.
    + reflexivity.
    + rewrite gram_schmidt_set_cons. simpl. apply IH.
  - revert v; induction refs as [|r0 refs IH]; intros v [|k] r Hk; simpl in Hk.
    + discriminate.
    + discriminate.
    + injection Hk as ->. now rewrite gram_schmidt_set_cons.
    + rewrite gram_schmidt_set_cons. cbn [snd nth_error firstn].
      rewrite (IH _ _ _ Hk). f_equal. f_equal.
      now rewrite gram_schmidt_set_cons.
Qed.

End GramSchmidtFacts.

(** ** The tridiagonal step, for any scalar arithmetic *)

Section TridiagonalStep.

Context {F : Type} `{Scalar F}.

Implicit Types (idx depth : Z) (bs : list (list F)) (dg od vec : list F)
  (Av : list F -> list F) (st : _LanczosState F).

(** The step, written out on the components of the state. *)
Lemma lanczos_apply_unfold idx bs dg od vec Av :
  let len := vector_norm vec in
  let residual := fst (_gram_schmidt_orthogonalise_set (vdiv vec len) bs) in
  let qi := vdiv residual (vector_norm residual) in
  let bs' := at_set bs idx qi in
  let w := Av qi in
  let coeff_i := vecdot w (getitem [] bs' idx) in
  let w1 := vsub w (vscale coeff_i (getitem [] bs' idx)) in
  let coeff_p := vecdot w1 (getitem [] bs' (idx - 1)) in
  let w2 := vsub w1 (vscale coeff_p (getitem [] bs' (idx - 1))) in
  _lanczos_full_reortho_apply (mk_LanczosState idx bs (dg, od) vec) Av
  = mk_LanczosState (idx + 1) bs'
      (at_set dg idx coeff_i, at_set od (idx - 1) len) w2.
Proof.
  cbv zeta. unfold _lanczos_full_reortho_apply, _normalise.
  destruct (_gram_schmidt_orthogonalise_set (vdiv vec (vector_norm vec)) bs)
    as [r cs].
  cbn [fst snd].
  rewrite !gram_schmidt_set_cons, gram_schmidt_set_nil.
  reflexivity.
Qed.

Lemma lanczos_steps_succ Av k st :
  lanczos_steps Av (S k) st = _lanczos_full_reortho_apply (lanczos_steps Av k st) Av.
Proof. reflexivity. Qed.

Lemma lanczos_init_ok depth (v0 : list F) :
  (1 <= depth < Z.of_nat (length v0))%Z ->
  _lanczos_full_reortho_init depth v0
  = Ok (mk_LanczosState 0 (zeros2 (depth + 1) (Z.of_nat (length v0)))
          (zeros (depth + 1), zeros depth) v0).
Proof.
  intros Hd. unfold _lanczos_full_reortho_init.
  destruct (Z.geb_spec depth (Z.of_nat (length v0))); [lia|].
  destruct (Z.ltb_spec depth 1); [lia|].
  reflexivity.
Qed.

Lemma lanczos_init_raises depth (v0 : list F) :
  (depth >= Z.of_nat (length v0) \/ depth < 1)%Z ->
  _lanczos_full_reortho_init depth v0 = Raise (ValueError None).
Proof.
  intros Hd. unfold _lanczos_full_reortho_init.
  destruct (Z.geb_spec depth (Z.of_nat (length v0))); [reflexivity|].
  destruct (Z.ltb_spec depth 1); [reflexivity|lia].
Qed.

Lemma lanczos_init_inv depth (v0 : list F) s0 :
  _lanczos_full_reortho_init depth v0 = Ok s0 ->
  (1 <= depth < Z.of_nat (length v0))%Z
  /\ s0 = mk_LanczosState 0 (zeros2 (depth + 1) (Z.of_nat (length v0)))
            (zeros (depth + 1), zeros depth) v0.
Proof.
  intros Hinit.
  destruct (Z_lt_ge_dec depth 1) as [Hl|Hl];
    [rewrite lanczos_init_raises in Hinit by lia; discriminate|].
  destruct (Z_lt_ge_dec depth (Z.of_nat (length v0))) as [Hu|Hu];
    [|rewrite lanczos_init_raises in Hinit by lia; discriminate].
  rewrite lanczos_init_ok in Hinit by lia.
  injection Hinit as <-. split; [lia | reflexivity].
Qed.

Lemma zeros_length (n : Z) : length (zeros (F:=F) n) = Z.to_nat n.
Proof. apply repeat_length. Qed.

Lemma zeros2_length (m n : Z) : length (zeros2 (F:=F) m n) = Z.to_nat m.
Proof. apply repeat_length. Qed.

(** Along a run, the index counts the steps and the arrays keep the shapes
    that the initialiser allocated. *)
Lemma lanczos_steps_shape depth (v0 : list F) s0 Av k :
  _lanczos_full_reortho_init depth v0 = Ok s0 ->
  let st := lanczos_steps Av k s0 in
  i st = Z.of_nat k
  /\ length (basis st) = Z.to_nat (depth + 1)
  /\ length (fst (tridiag st)) = Z.to_nat (depth + 1)
  /\ length (snd (tridiag st)) = Z.to_nat depth.
Proof.
  intros Hinit. destruct (lanczos_init_inv _ _ _ Hinit) as [Hd ->].
  induction k as [|k IH].
  - simpl. now rewrite zeros2_length, !zeros_length.
  - cbv zeta. rewrite lanczos_steps_succ.
    cbv zeta in IH.
    destruct (lanczos_steps Av k _) as [idx bs [dg od] vec].
    rewrite lanczos_apply_unfold. cbn [i basis tridiag fst snd] in *.
    rewrite !at_set_length.
    destruct IH as (-> & -> & -> & ->). repeat split; lia.
Qed.

(** What a step with an index of the loop range writes, and where. *)
Lemma lanczos_apply_writes depth idx bs dg od vec Av :
  (1 <= depth)%Z -> (0 <= idx <= depth)%Z ->
  length bs = Z.to_nat (depth + 1) ->
  length dg = Z.to_nat (depth + 1) ->
  length od = Z.to_nat depth ->
  exists row coeff vec',
    _lanczos_full_reortho_apply (mk_LanczosState idx bs (dg, od) vec) Av
    = mk_LanczosState (idx + 1)
        (list_update bs (Z.to_nat idx) row)
        (list_update dg (Z.to_nat idx) coeff,
         list_update od (Z.to_nat ((idx - 1) mod depth)) (vector_norm vec))
        vec'.
Proof.
  intros Hd Hidx Hbs Hdg Hod.
  rewrite lanczos_apply_unfold. cbv zeta.
  rewrite (at_set_in_range bs) by lia.
  rewrite (at_set_in_range dg) by lia.
  assert (Hodw : forall x, at_set od (idx - 1) x
                           = list_update od (Z.to_nat ((idx - 1) mod depth)) x).
  { intros x. destruct (Z.eq_dec idx 0) as [->|Hnz].
    - change (0 - 1)%Z with (-1)%Z.
      rewrite at_set_minus_one by (destruct od; [simpl in Hod; lia|congruence]).
      f_equal. rewrite Hod.
      replace (-1 mod depth)%Z with (depth - 1)%Z; [lia|].
      apply Z.mod_unique with (q := (-1)%Z); lia.
    - rewrite at_set_in_range by lia.
      now rewrite Z.mod_small by lia. }
  rewrite Hodw. eauto.
Qed.

End TridiagonalStep.

Section TridiagonalClaims.

Context {F : Type} `{Scalar F}.

Implicit Types (idx depth : Z) (bs : list (list F)) (dg od vec : list F)
  (Av : list F -> list F) (st : _LanczosState F).

(** The residual of the projection against a list of rows, written out on the
    backend operations: every row in turn is scaled by its dot product with
    the current residual and subtracted from it. *)
Lemma gram_schmidt_set_residual_fold (v : list F) (refs : list (list F)) :
  fst (_gram_schmidt_orthogonalise_set v refs)
  = fold_left (fun r ref => vsub r (vscale (vecdot r ref) ref)) refs v.
Proof.
  revert v; induction refs as [|ref refs IH]; intros v; [reflexivity|].
  rewrite gram_schmidt_set_cons. cbn [fst fold_left]. apply IH.
Qed.

(** C1: a tridiagonal step on the state [(idx, bs, (dg, od), vec)], written
    out on the operations of the backend.  It normalises [vec]: divides it by
    its Euclidean norm [len] and keeps [len]; projects the unit vector
    against every row of the basis in turn, one coefficient per row (all
    [depth + 1] rows in a run); re-normalises the residual; writes the
    result [row] into row [idx]; applies [Av]; projects the image against
    exactly the two rows [idx] and [idx - 1], in this order, which yields the
    coefficients [(coeff_i, coeff_p)]; stores [coeff_i] in [dg[idx]] and
    [len] in [od[idx - 1]]; and returns the state with index [idx + 1] and
    the twice-projected image as working vector. *)
Theorem tridiagonal_step_performs idx bs dg od vec Av :
  (let len := vector_norm vec in
   let unit := vdiv vec len in
   let residual :=
     fold_left (fun r ref => vsub r (vscale (vecdot r ref) ref)) bs unit in
   let row := vdiv residual (vector_norm residual) in
   let bs' := at_set bs idx row in
   let w := Av row in
   let coeff_i := vecdot w (getitem [] bs' idx) in
   let w1 := vsub w (vscale coeff_i (getitem [] bs' idx)) in
   let coeff_p := vecdot w1 (getitem [] bs' (idx - 1)) in
   let w2 := vsub w1 (vscale coeff_p (getitem [] bs' (idx - 1))) in
   _normalise vec = (unit, len)
   /\ fst (_gram_schmidt_orthogonalise_set unit bs) = residual
   /\ length (snd (_gram_schmidt_orthogonalise_set unit bs)) = length bs
   /\ _normalise residual = (row, vector_norm residual)
   /\ _gram_schmidt_orthogonalise w (getitem [] bs' idx) = (w1, coeff_i)
   /\ _gram_schmidt_orthogonalise w1 (getitem [] bs' (idx - 1)) = (w2, coeff_p)
   /\ _gram_schmidt_orthogonalise_set w
        [getitem [] bs' idx; getitem [] bs' (idx - 1)]
      = (w2, [coeff_i; coeff_p])
   /\ _lanczos_full_reortho_apply (mk_LanczosState idx bs (dg, od) vec) Av
      = mk_LanczosState (idx + 1) bs'
          (at_set dg idx coeff_i, at_set od (idx - 1) len) w2)
  /\ (forall depth (v0 : list F) s0 k,
        _lanczos_full_reortho_init depth v0 = Ok s0 ->
        Z.of_nat (length (basis (lanczos_steps Av k s0))) = (depth + 1)%Z).
Proof.
  split.
  - cbv zeta. split; [reflexivity|].
    split; [apply gram_schmidt_set_residual_fold|].
    split; [apply gram_schmidt_set_coeffs_length|].
    split; [reflexivity|]. split; [reflexivity|]. split; [reflexivity|].
    split.
    + now rewrite !gram_schmidt_set_cons, gram_schmidt_set_nil.
    + rewrite lanczos_apply_unfold. cbv zeta.
      now rewrite gram_schmidt_set_residual_fold.
  - intros depth v0 s0 k Hinit.
    destruct (lanczos_steps_shape _ _ _ Av k Hinit) as (_ & -> & _).
    apply lanczos_init_inv in Hinit. lia.
Qed.

Lemma lanczos_offdiag_transient depth (v0 : list F) s0 Av k :
  _lanczos_full_reortho_init depth v0 = Ok s0 ->
  (1 <= k)%nat -> (Z.of_nat k <= depth)%Z ->
  nth_error (snd (tridiag (lanczos_steps Av k s0))) (Z.to_nat (depth - 1))
  = Some (vector_norm v0).
Proof.
  intros Hinit Hk1 Hkd.
  destruct (lanczos_init_inv _ _ _ Hinit) as [Hd Hs0].
  induction k as [|k IH]; [lia|].
  rewrite lanczos_steps_succ.
  pose proof (lanczos_steps_shape _ _ _ Av k Hinit) as Hshape. cbv zeta in Hshape.
  destruct (lanczos_steps Av k s0) as [idx bs [dg od] vec] eqn:Hst.
  cbn [i basis tridiag fst snd] in *.
  destruct Hshape as (Hidx & Hbs & Hdg & Hod).
  destruct (lanczos_apply_writes depth idx bs dg od vec Av (proj1 Hd)
              ltac:(lia) Hbs Hdg Hod) as (row & coeff & vec' & ->).
  cbn [tridiag snd].
  destruct k as [|k].
  - subst s0. simpl in Hst. injection Hst as <- <- <- <- <-.
    replace ((0 - 1) mod depth)%Z with (depth - 1)%Z
      by (apply Z.mod_unique with (q := (-1)%Z); lia).
    apply nth_error_list_update_eq. rewrite zeros_length. lia.
  - rewrite nth_error_list_update_neq.
    + apply IH; lia.
    + rewrite Z.mod_small by lia. lia.
Qed.

(** C9: a tridiagonal step with index [idx] of the loop range leaves every
    basis row and diagonal entry other than [idx] and every off-diagonal entry
    other than [(idx - 1) mod depth] as they were, stores the length of the
    working vector in that off-diagonal entry, and advances the index by one.
    In a run, the step with index 0 therefore leaves the norm of the initial
    vector in the last off-diagonal entry, where it stays until the step with
    index [depth] overwrites it. *)
Theorem tridiagonal_step_frame depth Av :
  (forall idx bs dg od vec,
     (1 <= depth)%Z -> (0 <= idx <= depth)%Z ->
     length bs = Z.to_nat (depth + 1) ->
     length dg = Z.to_nat (depth + 1) ->
     length od = Z.to_nat depth ->
     let st' := _lanczos_full_reortho_apply (mk_LanczosState idx bs (dg, od) vec) Av in
     let written := Z.to_nat ((idx - 1) mod depth) in
     i st' = (idx + 1)%Z
     /\ (forall j, j <> Z.to_nat idx -> nth_error (basis st') j = nth_error bs j)
     /\ (forall j, j <> Z.to_nat idx ->
           nth_error (fst (tridiag st')) j = nth_error dg j)
     /\ (forall j, j <> written ->
           nth_error (snd (tridiag st')) j = nth_error od j)
     /\ nth_error (snd (tridiag st')) written = Some (vector_norm vec))
  /\ (forall (v0 : list F) s0,
        _lanczos_full_reortho_init depth v0 = Ok s0 ->
        (forall k, (1 <= k)%nat -> (Z.of_nat k <= depth)%Z ->
           nth_error (snd (tridiag (lanczos_steps Av k s0))) (Z.to_nat (depth - 1))
           = Some (vector_norm v0))
        /\ i (lanczos_steps Av (Z.to_nat depth) s0) = depth
        /\ nth_error (snd (tridiag (lanczos_steps Av (S (Z.to_nat depth)) s0)))
             (Z.to_nat (depth - 1))
           = Some (vector_norm (q (lanczos_steps Av (Z.to_nat depth) s0)))).
Proof.
  split.
  - intros idx bs dg od vec Hd Hidx Hbs Hdg Hod.
    destruct (lanczos_apply_writes depth idx bs dg od vec Av Hd Hidx Hbs Hdg Hod)
      as (row & coeff & vec' & Heq).
    cbv zeta. rewrite Heq. cbn [i basis tridiag fst snd].
    split; [reflexivity|].
    split; [intros j Hj; now apply nth_error_list_update_neq|].
    split; [intros j Hj; now apply nth_error_list_update_neq|].
    split; [intros j Hj; now apply nth_error_list_update_neq|].
    apply nth_error_list_update_eq.
    rewrite Hod. pose proof (Z.mod_pos_bound (idx - 1) depth). lia.
  - intros v0 s0 Hinit.
    destruct (lanczos_init_inv _ _ _ Hinit) as [Hd Hs0].
    split; [intros k Hk1 Hkd; now apply lanczos_offdiag_transient|].
    pose proof (lanczos_steps_shape _ _ _ Av (Z.to_nat depth) Hinit) as Hshape.
    cbv zeta in Hshape.
    rewrite lanczos_steps_succ.
    destruct (lanczos_steps Av (Z.to_nat depth) s0) as [idx bs [dg od] vec].
    cbn [i basis tridiag fst snd q] in *.
    destruct Hshape as (Hidx & Hbs & Hdg & Hod).
    split; [lia|].
    destruct (lanczos_apply_writes depth idx bs dg od vec Av (proj1 Hd)
                ltac:(lia) Hbs Hdg Hod) as (row & coeff & vec' & ->).
    cbn [tridiag snd].
    replace ((idx - 1) mod depth)%Z with (depth - 1)%Z
      by (rewrite Z.mod_small; lia).
    apply nth_error_list_update_eq. lia.
Qed.

End TridiagonalClaims.

(** ** Rejection of an invalid depth *)

Section DepthValidation.

Context {F : Type} `{Scalar F}.

Lemma gkl_constructor_ok depth nrows ncols :
  (0 <= depth <= Z.min nrows ncols - 1)%Z ->
  exists alg, GKL.gkl_full_reortho (F := F) depth (nrows, ncols) = Ok alg.
Proof.
  intros Hd. unfold GKL.gkl_full_reortho.
  destruct (Z.gtb_spec depth (Z.min nrows ncols - 1)); [lia|].
  destruct (Z.ltb_spec depth 0); [lia|].
  eexists; reflexivity.
Qed.

Lemma gkl_constructor_raises depth nrows ncols :
  (depth > Z.min nrows ncols - 1 \/ depth < 0)%Z ->
  GKL.gkl_full_reortho (F := F) depth (nrows, ncols)
  = Raise (ValueError (Some
      (("Depth " ++ str depth ++ " exceeds the matrix' dimensions. ")
       ++ ("Expected: 0 <= depth <= min(nrows, ncols) - 1 = "
           ++ str (Z.min nrows ncols - 1) ++ " ")
       ++ ("for a matrix with shape (" ++ str nrows ++ ", " ++ str ncols
           ++ ")."))%string)).
Proof.
  intros Hd. unfold GKL.gkl_full_reortho.
  destruct (Z.gtb_spec depth (Z.min nrows ncols - 1)); [reflexivity|].
  destruct (Z.ltb_spec depth 0); [reflexivity|lia].
Qed.

Lemma driver_init_raises {Vec State Ops Out : Type} lower upper (v0 : Vec)
  (ops : Ops) (alg : _DecompAlg Vec State Ops Out) e :
  init alg v0 = Raise e ->
  decompose_fori_loop lower upper v0 ops alg = ([Init_called], Raise e).
Proof.
  intros Hinit. unfold decompose_fori_loop. now rewrite Hinit.
Qed.

Lemma driver_init_ok {Vec State Ops Out : Type} lower upper (v0 : Vec)
  (ops : Ops) (alg : _DecompAlg Vec State Ops Out) s0 :
  init alg v0 = Ok s0 ->
  exists log out, decompose_fori_loop lower upper v0 ops alg = (log, Ok out).
Proof.
  intros Hinit. unfold decompose_fori_loop. rewrite Hinit.
  destruct (fori_loop _ _ _ _) as [log final]. eauto.
Qed.

(** C4: the tridiagonal algorithm raises [ValueError] from its initialiser,
    with no step made, exactly when [depth >= n] or [depth < 1]; the
    constructor of the bidiagonal descriptor raises [ValueError], so that no
    descriptor exists to step with, exactly when
    [depth > min(nrows, ncols) - 1] or [depth < 0]. *)
Theorem invalid_depth_is_rejected (depth lower upper nrows ncols : Z)
  (v0 : list F) (Av : list F -> list F) :
  (decompose_fori_loop lower upper v0 Av (lanczos_full_reortho depth)
     = ([Init_called], Raise (ValueError None))
   <-> (depth >= Z.of_nat (length v0) \/ depth < 1)%Z)
  /\ ((exists e, snd (decompose_fori_loop lower upper v0 Av
                        (lanczos_full_reortho depth)) = Raise e)
      <-> (depth >= Z.of_nat (length v0) \/ depth < 1)%Z)
  /\ ((exists msg, GKL.gkl_full_reortho (F := F) depth (nrows, ncols)
                   = Raise (ValueError msg))
      <-> (depth > Z.min nrows ncols - 1 \/ depth < 0)%Z).
Proof.
  assert (Hvalid : ~ (depth >= Z.of_nat (length v0) \/ depth < 1)%Z ->
                   exists log out,
                     decompose_fori_loop lower upper v0 Av
                       (lanczos_full_reortho depth) = (log, Ok out)).
  { intros Hd. eapply driver_init_ok. cbn [init lanczos_full_reortho].
    apply lanczos_init_ok. lia. }
  split; [|split]; split.
  - intros Hrun.
    destruct (Z_lt_ge_dec depth 1); [lia|].
    destruct (Z_lt_ge_dec depth (Z.of_nat (length v0))); [|lia].
    destruct Hvalid as (log & out & Heq); [lia|]. congruence.
  - intros Hd. apply driver_init_raises. cbn [init lanczos_full_reortho].
    now apply lanczos_init_raises.
  - intros [e He].
    destruct (Z_lt_ge_dec depth 1); [lia|].
    destruct (Z_lt_ge_dec depth (Z.of_nat (length v0))); [|lia].
    destruct Hvalid as (log & out & Heq); [lia|].
    rewrite Heq in He. discriminate.
  - intros Hd. exists (ValueError None).
    rewrite driver_init_raises with (e := ValueError None); [reflexivity|].
    cbn [init lanczos_full_reortho]. now apply lanczos_init_raises.
  - intros [msg Hmsg].
    destruct (Z_lt_ge_dec depth 0); [lia|].
    destruct (Z_gt_le_dec depth (Z.min nrows ncols - 1)); [lia|].
    destruct (gkl_constructor_ok depth nrows ncols) as [alg Halg]; [lia|].
    congruence.
  - intros Hd. eexists. now apply gkl_constructor_raises.
Qed.

(** C5, as amended: the constructor of the bidiagonal descriptor signals an
    out-of-range depth itself, with a message that names the depth and the
    bound [min(nrows, ncols) - 1]; the constructor of the tridiagonal
    descriptor always returns a descriptor, and an out-of-range depth is
    signalled by the state initialiser, before any step. *)
Theorem invalid_depth_is_signalled (depth : Z) :
  (forall nrows ncols,
     (depth > Z.min nrows ncols - 1 \/ depth < 0)%Z ->
     GKL.gkl_full_reortho (F := F) depth (nrows, ncols)
     = Raise (ValueError (Some
         (("Depth " ++ str depth ++ " exceeds the matrix' dimensions. ")
          ++ ("Expected: 0 <= depth <= min(nrows, ncols) - 1 = "
              ++ str (Z.min nrows ncols - 1) ++ " ")
          ++ ("for a matrix with shape (" ++ str nrows ++ ", " ++ str ncols
              ++ ")."))%string)))
  /\ (forall lower upper (v0 : list F) (Av : list F -> list F),
        (depth >= Z.of_nat (length v0) \/ depth < 1)%Z ->
        lower_upper (lanczos_full_reortho (F := F) depth) = (0, depth + 1)%Z
        /\ exists e,
             init (lanczos_full_reortho depth) v0 = Raise e
             /\ decompose_fori_loop lower upper v0 Av (lanczos_full_reortho depth)
                = ([Init_called], Raise e)).
Proof.
  split.
  - intros nrows ncols Hd. now apply gkl_constructor_raises.
  - intros lower upper v0 Av Hd. split; [reflexivity|].
    exists (ValueError None).
    assert (Hinit : init (lanczos_full_reortho depth) v0 = Raise (ValueError None))
      by (cbn [init lanczos_full_reortho]; now apply lanczos_init_raises).
    split; [exact Hinit|]. now apply driver_init_raises.
Qed.

End DepthValidation.

(** C5, as the specification states it, fails for the tridiagonal algorithm:
    with the out-of-range depth 5 for a vector of dimension 3 the descriptor
    is built and handed to the driver, the error comes from the state
    initialiser, and it carries no message. *)
Lemma tridiagonal_depth_error_comes_from_init :
  let alg := lanczos_full_reortho (F := R) 5 in
  let run := decompose_fori_loop 0 6 [1; 2; 3]%R (fun v => v) alg in
  lower_upper alg = (0, 6)%Z
  /\ fst run = [Init_called]
  /\ snd run = Raise (ValueError None)
  /\ ~ (exists msg, snd run = Raise (ValueError (Some msg))).
Proof.
  cbv zeta.
  assert (Hrun : decompose_fori_loop 0 6 [1; 2; 3]%R (fun v => v)
                   (lanczos_full_reortho (F := R) 5)
                 = ([Init_called], Raise (ValueError None)))
    by reflexivity.
  rewrite Hrun. repeat split.
  intros [msg Hmsg]. discriminate.
Qed.

(** ** The bidiagonal algorithm, for any scalar arithmetic *)

Section Bidiagonal.

Context {F : Type} `{Scalar F}.

Lemma at_set_nonneg {A : Type} (l : list A) (idx : Z) (x : A) :
  (0 <= idx)%Z ->
  at_set l idx x
  = if (idx <? Z.of_nat (length l))%Z then list_update l (Z.to_nat idx) x else l.
Proof.
  intros Hidx. unfold at_set, norm_index.
  rewrite (proj2 (Z.ltb_ge _ _)) by lia.
  now rewrite (proj2 (Z.leb_le _ _)) by lia.
Qed.

Lemma gkl_apply_index_betas idx us vs al be b v (Av vA : list F -> list F) :
  GKL.i (GKL._gkl_full_reortho_apply (GKL.mk_GKLState idx us vs al be b v) Av vA)
  = (idx + 1)%Z
  /\ GKL.betas (GKL._gkl_full_reortho_apply (GKL.mk_GKLState idx us vs al be b v) Av vA)
     = at_set be idx b.
Proof.
  unfold GKL._gkl_full_reortho_apply, _normalise.
  repeat match goal with
         | |- context [_gram_schmidt_orthogonalise_set ?x ?y] =>
             destruct (_gram_schmidt_orthogonalise_set x y)
         end.
  split; reflexivity.
Qed.

Lemma gkl_init_components depth nrows ncols (v0 : list F) :
  GKL._gkl_full_reortho_init depth (nrows, ncols) v0
  = GKL.mk_GKLState 0 (zeros2 (depth + 1) nrows) (zeros2 (depth + 1) ncols)
      (zeros (depth + 1)) (zeros (depth + 1)) szero (vdiv v0 (vector_norm v0)).
Proof. reflexivity. Qed.

Lemma gkl_steps_succ (Av vA : list F -> list F) k st :
  gkl_steps Av vA (S k) st
  = GKL._gkl_full_reortho_apply (gkl_steps Av vA k st) Av vA.
Proof. reflexivity. Qed.

(** Along a bidiagonal run the first entry of [betas] stays the zero that the
    initialiser wrote. *)
Lemma gkl_steps_first_beta depth nrows ncols (v0 : list F) Av vA k :
  (0 <= depth)%Z ->
  let st := gkl_steps Av vA k (GKL._gkl_full_reortho_init depth (nrows, ncols) v0) in
  GKL.i st = Z.of_nat k
  /\ nth_error (GKL.betas st) 0 = Some szero
  /\ (k = 0%nat -> GKL.beta st = szero).
Proof.
  intros Hd. cbv zeta. induction k as [|k IH].
  - rewrite gkl_init_components. cbn.
    repeat split. unfold zeros.
    destruct (Z.to_nat (depth + 1)) eqn:E; [lia|reflexivity].
  - rewrite gkl_steps_succ.
    destruct (gkl_steps Av vA k _) as [idx us vs al be b v].
    cbn [GKL.i GKL.betas GKL.beta] in IH. destruct IH as (Hidx & Hbe & Hb).
    destruct (gkl_apply_index_betas idx us vs al be b v Av vA) as [-> ->].
    split; [lia|]. split; [|discriminate].
    rewrite at_set_nonneg by lia.
    destruct (Z.ltb_spec idx (Z.of_nat (length be))); [|exact Hbe].
    destruct k as [|k].
    + rewrite Hb by reflexivity. subst idx. cbn [Z.of_nat Z.to_nat].
      destruct be; [discriminate|reflexivity].
    + rewrite nth_error_list_update_neq by lia. exact Hbe.
Qed.

(** C6: extraction returns the left basis transposed, the pair of [alphas]
    and [betas] without its first entry, the right basis, and the trailing
    pair [(beta, vk)]; and in every state of a bidiagonal run, after any
    number of steps from the initialiser, [betas[0]] is zero. *)
Theorem gkl_extraction_drops_zero_beta depth nrows ncols (v0 : list F) Av vA :
  (0 <= depth)%Z ->
  (forall idx us vs al be b v,
     GKL._gkl_full_reortho_extract (GKL.mk_GKLState idx us vs al be b v)
     = (transpose us, (al, tl be), vs, (b, v)))
  /\ (forall k,
        nth_error
          (GKL.betas (gkl_steps Av vA k
                        (GKL._gkl_full_reortho_init depth (nrows, ncols) v0))) 0
        = Some szero).
Proof.
  intros Hd. split.
  - intros idx us vs al be b v. cbn. now destruct be.
  - intros k. now apply gkl_steps_first_beta.
Qed.

End Bidiagonal.

(** ** Vectors over the real numbers (exact arithmetic) *)

Section RealVectors.

Local Open Scope R_scope.

Implicit Types (u v w r : list R) (c x y : R) (n : Z) (B : list (list R)).

Lemma vecdot_cons x u y v : vecdot (x :: u) (y :: v) = x * y + vecdot u v.
Proof. reflexivity. Qed.

Lemma vecdot_nil_r u : vecdot u [] = 0.
Proof. now destruct u. Qed.

Lemma vecdot_comm u v : vecdot u v = vecdot v u.
Proof.
  revert v; induction u as [|x u IH]; intros [|y v]; try reflexivity.
  rewrite !vecdot_cons, IH. lra.
Qed.

Lemma vecdot_vscale_l c u v : vecdot (vscale c u) v = c * vecdot u v.
Proof.
  revert v; induction u as [|x u IH]; intros [|y v]; cbn [vscale map];
    try (cbn; lra).
  rewrite !vecdot_cons. fold (vscale c u). rewrite IH.
  change (smul c x) with (c * x). lra.
Qed.

Lemma vecdot_vdiv_l c u v : vecdot (vdiv u c) v = vecdot u v / c.
Proof.
  revert v; induction u as [|x u IH]; intros [|y v]; cbn [vdiv map];
    try (cbn; unfold Rdiv; lra).
  rewrite !vecdot_cons. fold (vdiv u c). rewrite IH.
  change (sdiv x c) with (x / c). unfold Rdiv. lra.
Qed.

Lemma vecdot_vsub_l u w v :
  length u = length w -> vecdot (vsub u w) v = vecdot u v - vecdot w v.
Proof.
  revert w v; induction u as [|x u IH]; intros [|z w] [|y v] Hlen;
    simpl in Hlen; try discriminate; try (cbn; lra).
  cbn [vsub]. rewrite !vecdot_cons, IH by lia.
  change (ssub x z) with (x - z). lra.
Qed.

Lemma vecdot_vsub_r u w v :
  length u = length w -> vecdot v (vsub u w) = vecdot v u - vecdot v w.
Proof.
  intros Hlen. rewrite vecdot_comm, vecdot_vsub_l by assumption.
  now rewrite (vecdot_comm u), (vecdot_comm w).
Qed.

Lemma vecdot_vscale_r c u v : vecdot v (vscale c u) = c * vecdot v u.
Proof. now rewrite vecdot_comm, vecdot_vscale_l, vecdot_comm. Qed.

Lemma vecdot_vdiv_r c u v : vecdot v (vdiv u c) = vecdot v u / c.
Proof. now rewrite vecdot_comm, vecdot_vdiv_l, vecdot_comm. Qed.

Lemma vscale_length c u : length (vscale c u) = length u.
Proof. apply length_map. Qed.

Lemma vdiv_length c u : length (vdiv u c) = length u.
Proof. apply length_map. Qed.

Lemma vsub_length u v : length u = length v -> length (vsub u v) = length u.
Proof.
  revert v; induction u as [|x u IH]; intros [|y v] Hlen; simpl in *;
    try discriminate; auto.
Qed.

Lemma vsub_length_le u v : (length (vsub u v) <= length u)%nat.
Proof.
  revert v; induction u as [|x u IH]; intros [|y v]; simpl; try lia.
  specialize (IH v). lia.
Qed.

Lemma matvec_length (M : list (list R)) v : length (matvec M v) = length M.
Proof. apply length_map. Qed.

(** The zero vector. *)
Lemma zeros_succ (k : nat) : zeros (F := R) (Z.of_nat (S k)) = 0 :: zeros (Z.of_nat k).
Proof. unfold zeros. rewrite !Nat2Z.id. reflexivity. Qed.

Lemma zeros_repeat (k : nat) : zeros (F := R) (Z.of_nat k) = repeat 0 k.
Proof. unfold zeros. now rewrite Nat2Z.id. Qed.

Lemma vecdot_repeat_zero_r u (k : nat) : vecdot u (repeat 0 k) = 0.
Proof.
  revert k; induction u as [|x u IH]; intros [|k]; try reflexivity.
  cbn [repeat]. rewrite vecdot_cons, IH. lra.
Qed.

Lemma vecdot_repeat_zero_l u (k : nat) : vecdot (repeat 0 k) u = 0.
Proof. now rewrite vecdot_comm, vecdot_repeat_zero_r. Qed.

Lemma vsub_vscale_repeat_zero c u (k : nat) :
  (length u <= k)%nat -> vsub u (vscale c (repeat 0 k)) = u.
Proof.
  revert k; induction u as [|x u IH]; intros [|k] Hk; simpl in Hk; try lia;
    try reflexivity.
  cbn [repeat vscale map vsub]. fold (vscale c (repeat 0 k)).
  rewrite IH by lia. f_equal.
  change (ssub x (smul c 0)) with (x - c * 0). lra.
Qed.

(** Subtracting the zero multiple of a vector. *)
Lemma vsub_vscale_zero u w :
  length u = length w -> vsub u (vscale 0 w) = u.
Proof.
  revert w; induction u as [|x u IH]; intros [|y w] Hlen; simpl in Hlen;
    try discriminate; try reflexivity.
  cbn [vscale map vsub]. fold (vscale 0 w). rewrite IH by lia. f_equal.
  change (ssub x (smul 0 y)) with (x - 0 * y). lra.
Qed.

Lemma vecdot_self_nonneg v : 0 <= vecdot v v.
Proof.
  induction v as [|x v IH]; [cbn; lra|].
  rewrite vecdot_cons. nra.
Qed.

Lemma vecdot_self_zero v : vecdot v v = 0 -> v = repeat 0 (length v).
Proof.
  induction v as [|x v IH]; intros Hv; [reflexivity|].
  rewrite vecdot_cons in Hv. pose proof (vecdot_self_nonneg v).
  assert (x = 0) by nra. assert (vecdot v v = 0) by nra.
  cbn [length repeat]. f_equal; auto.
Qed.

Lemma vector_norm_sqr v : vector_norm v * vector_norm v = vecdot v v.
Proof. apply sqrt_sqrt, vecdot_self_nonneg. Qed.

Lemma vector_norm_nonneg v : 0 <= vector_norm v.
Proof. apply sqrt_pos. Qed.

Lemma vector_norm_zero_iff v :
  vector_norm v = 0 <-> v = zeros (Z.of_nat (length v)).
Proof.
  rewrite zeros_repeat. split.
  - intros Hn. apply vecdot_self_zero.
    rewrite <- vector_norm_sqr, Hn. lra.
  - intros ->. unfold vector_norm. rewrite vecdot_repeat_zero_l.
    apply sqrt_0.
Qed.

(** A normalised non-zero vector has unit length. *)
Lemma normalise_unit v :
  vector_norm v <> 0 -> vecdot (vdiv v (vector_norm v)) (vdiv v (vector_norm v)) = 1.
Proof.
  intros Hn. rewrite vecdot_vdiv_l, vecdot_vdiv_r, <- vector_norm_sqr.
  now field.
Qed.

Lemma vector_norm_of_unit v : vecdot v v = 1 -> vector_norm v = 1.
Proof. intros Hv. unfold vector_norm. rewrite Hv. apply sqrt_1. Qed.

Lemma vdiv_one v : vdiv v 1 = v.
Proof.
  induction v as [|x v IH]; [reflexivity|].
  cbn [vdiv map]. fold (vdiv v 1). rewrite IH. f_equal.
  change (sdiv x 1) with (x / 1). lra.
Qed.

Lemma normalise_of_unit v : vecdot v v = 1 -> _normalise v = (v, 1).
Proof.
  intros Hv. unfold _normalise. rewrite vector_norm_of_unit by assumption.
  now rewrite vdiv_one.
Qed.

End RealVectors.

(** ** Gram-Schmidt projection over the real numbers *)

Section RealGramSchmidt.

Local Open Scope R_scope.

Implicit Types (u v w r : list R) (c x y : R) (n : Z) (B : list (list R)).

Lemma gram_schmidt_residual_length_le v B :
  (length (fst (_gram_schmidt_orthogonalise_set v B)) <= length v)%nat.
Proof.
  revert v; induction B as [|r B IH]; intros v.
  - simpl. lia.
  - rewrite gram_schmidt_set_cons. cbn [fst].
    specialize (IH (vsub v (vscale (vecdot v r) r))).
    pose proof (vsub_length_le v (vscale (vecdot v r) r)). lia.
Qed.

Lemma gram_schmidt_zero_row v (k : nat) :
  (length v <= k)%nat ->
  _gram_schmidt_orthogonalise v (repeat 0 k) = (v, 0).
Proof.
  intros Hk. unfold _gram_schmidt_orthogonalise.
  now rewrite vecdot_repeat_zero_r, vsub_vscale_repeat_zero.
Qed.

Lemma gram_schmidt_set_zero_rows v (k : nat) B :
  (length v <= k)%nat ->
  Forall (fun row => row = repeat 0 k) B ->
  fst (_gram_schmidt_orthogonalise_set v B) = v.
Proof.
  intros Hk HB. induction HB as [|r B -> _ IH]; [reflexivity|].
  rewrite gram_schmidt_set_cons. cbn [fst].
  now rewrite vecdot_repeat_zero_r, vsub_vscale_repeat_zero.
Qed.

(** Rows orthogonal to the vector leave it as it is. *)
Lemma gram_schmidt_set_orthogonal v B :
  Forall (fun row => length row = length v /\ vecdot v row = 0) B ->
  fst (_gram_schmidt_orthogonalise_set v B) = v.
Proof.
  intros HB. induction HB as [|r B [Hlen Hdot] _ IH]; [reflexivity|].
  rewrite gram_schmidt_set_cons. cbn [fst].
  rewrite Hdot, vsub_vscale_zero by congruence. exact IH.
Qed.

(** C3: projecting a vector against the zero vector returns the vector
    unchanged with the coefficient zero; hence the fold over a basis padded
    with zero rows returns the residual of the fold over the valid rows
    (exact arithmetic). *)
Theorem zero_rows_do_not_project v n (valid padding : list (list R)) :
  Z.of_nat (length v) = n ->
  Forall (fun row => row = zeros n) padding ->
  _gram_schmidt_orthogonalise v (zeros n) = (v, 0)
  /\ fst (_gram_schmidt_orthogonalise_set v (valid ++ padding))
     = fst (_gram_schmidt_orthogonalise_set v valid).
Proof.
  intros <- Hpad. rewrite zeros_repeat in *. split.
  - now apply gram_schmidt_zero_row.
  - rewrite gram_schmidt_set_app.
    apply gram_schmidt_set_zero_rows with (k := length v); [|exact Hpad].
    apply gram_schmidt_residual_length_le.
Qed.

Lemma float_vecdot_zeros (k : nat) :
  vecdot (F := float) (repeat 0%float k) (repeat 0%float k) = 0%float.
Proof.
  induction k as [|k IH]; [reflexivity|].
  cbn [repeat vecdot]. rewrite IH. reflexivity.
Qed.

(** In binary64 arithmetic a division by zero has no finite result: it is
    [nan] for a zero or [nan] dividend and an infinity otherwise. *)
Lemma float_div_zero_not_finite (x : float) :
  PrimFloat.is_finite (x / 0)%float = false.
Proof.
  rewrite <- (SF2Prim_Prim2SF (x / 0)%float), div_spec.
  replace (Prim2SF 0%float) with (S754_zero false) by reflexivity.
  destruct (Prim2SF x) as [s|s| |s m e]; try reflexivity;
    destruct s; reflexivity.
Qed.



(** C10: the bidiagonal initialiser stores the normalised initial vector,
    which has unit length in exact arithmetic, with the trailing scalar zero,
    the index zero and all arrays zero; the tridiagonal initialiser stores the
    initial vector as given. *)
Theorem initialisers_store_initial_vector :
  (forall (F : Type) (S : Scalar F) depth nrows ncols (v0 : list F),
     GKL._gkl_full_reortho_init depth (nrows, ncols) v0
     = GKL.mk_GKLState 0 (zeros2 (depth + 1) nrows) (zeros2 (depth + 1) ncols)
         (zeros (depth + 1)) (zeros (depth + 1)) szero (fst (_normalise v0))
     /\ forall s0,
          _lanczos_full_reortho_init depth v0 = Ok s0 ->
          s0 = mk_LanczosState 0 (zeros2 (depth + 1) (Z.of_nat (length v0)))
                 (zeros (depth + 1), zeros depth) v0)
  /\ (forall v0 : list R,
        vector_norm v0 <> 0 ->
        vector_norm (fst (_normalise v0)) = 1
        /\ fst (_normalise v0) = vdiv v0 (vector_norm v0)).
Proof.
  split.
  - intros F S depth nrows ncols v0. split; [reflexivity|].
    intros s0 Hinit. now apply lanczos_init_inv in Hinit.
  - intros v0 Hn. split; [|reflexivity].
    apply vector_norm_of_unit. cbn [_normalise fst]. now apply normalise_unit.
Qed.

End RealGramSchmidt.

(** ** Finite sums and the entries of matrices *)

Section Sums.

Local Open Scope R_scope.

Implicit Types (f g : nat -> R) (n m : nat) (c : R).

Lemma big_sum_ext f g n :
  (forall k, (k < n)%nat -> f k = g k) -> big_sum f n = big_sum g n.
Proof.
  induction n as [|n IH]; intros Hfg; [reflexivity|].
  simpl. rewrite IH, Hfg by auto with arith. reflexivity.
Qed.

Lemma big_sum_zero n : big_sum (fun _ => 0) n = 0.
Proof. induction n as [|n IH]; simpl; [|rewrite IH]; lra. Qed.

Lemma big_sum_plus f g n :
  big_sum (fun k => f k + g k) n = big_sum f n + big_sum g n.
Proof. induction n as [|n IH]; simpl; [|rewrite IH]; lra. Qed.

Lemma big_sum_scale_l c f n : big_sum (fun k => c * f k) n = c * big_sum f n.
Proof. induction n as [|n IH]; simpl; [|rewrite IH]; lra. Qed.

Lemma big_sum_scale_r c f n : big_sum (fun k => f k * c) n = big_sum f n * c.
Proof. induction n as [|n IH]; simpl; [|rewrite IH]; lra. Qed.

Lemma big_sum_shift f n :
  big_sum f (S n) = f 0%nat + big_sum (fun k => f (S k)) n.
Proof.
  induction n as [|n IH]; [simpl; lra|].
  change (big_sum f (S (S n))) with (big_sum f (S n) + f (S n)).
  rewrite IH. simpl. lra.
Qed.

Lemma big_sum_exchange (h : nat -> nat -> R) n m :
  big_sum (fun a => big_sum (fun b => h a b) m) n
  = big_sum (fun b => big_sum (fun a => h a b) n) m.
Proof.
  induction n as [|n IH]; simpl.
  - now rewrite big_sum_zero.
  - now rewrite IH, big_sum_plus.
Qed.

(** A sum against the Kronecker delta picks one term. *)
Lemma big_sum_delta_r f n b :
  (b < n)%nat ->
  big_sum (fun k => f k * (if Nat.eqb k b then 1 else 0)) n = f b.
Proof.
  induction n as [|n IH]; intros Hb; [lia|]. simpl.
  destruct (Nat.eq_dec b n) as [->|Hne].
  - rewrite Nat.eqb_refl.
    rewrite big_sum_ext with (g := fun _ => 0); [rewrite big_sum_zero; lra|].
    intros k Hk. destruct (Nat.eqb_spec k n); [lia|lra].
  - rewrite IH by lia. destruct (Nat.eqb_spec n b); [lia|lra].
Qed.

Lemma big_sum_delta_l f n a :
  (a < n)%nat ->
  big_sum (fun k => (if Nat.eqb a k then 1 else 0) * f k) n = f a.
Proof.
  intros Ha. rewrite <- (big_sum_delta_r f n a Ha) at 1.
  apply big_sum_ext. intros k _. rewrite (Nat.eqb_sym a k). lra.
Qed.

Lemma big_sum_nonneg f n :
  (forall k, (k < n)%nat -> 0 <= f k) -> 0 <= big_sum f n.
Proof.
  induction n as [|n IH]; intros Hf; simpl; [lra|].
  specialize (Hf n ltac:(lia)) as Hn.
  assert (0 <= big_sum f n) by (apply IH; auto with arith). lra.
Qed.

Lemma big_sum_le f g n :
  (forall k, (k < n)%nat -> f k <= g k) -> big_sum f n <= big_sum g n.
Proof.
  induction n as [|n IH]; intros Hf; simpl; [lra|].
  specialize (Hf n ltac:(lia)) as Hn.
  assert (big_sum f n <= big_sum g n) by (apply IH; auto with arith). lra.
Qed.

Lemma big_sum_const c n : big_sum (fun _ => c) n = INR n * c.
Proof.
  induction n as [|n IH]; [simpl; lra|].
  rewrite S_INR. simpl. rewrite IH. lra.
Qed.

(** Terms bounded by [g] whose sum reaches the sum of [g] all meet [g]. *)
Lemma big_sum_squeeze f g n :
  (forall k, (k < n)%nat -> f k <= g k) ->
  big_sum f n = big_sum g n ->
  forall k, (k < n)%nat -> f k = g k.
Proof.
  induction n as [|n IH]; intros Hle Hsum k Hk; [lia|].
  simpl in Hsum.
  assert (Hn : f n <= g n) by (apply Hle; lia).
  assert (Hprefix : big_sum f n <= big_sum g n)
    by (apply big_sum_le; auto with arith).
  destruct (Nat.eq_dec k n) as [->|Hne]; [lra|].
  apply IH; auto with arith; try lra; lia.
Qed.

(** A sum of non-negative terms that vanishes has only vanishing terms. *)
Lemma big_sum_nonneg_zero f n :
  (forall k, (k < n)%nat -> 0 <= f k) ->
  big_sum f n = 0 ->
  forall k, (k < n)%nat -> f k = 0.
Proof.
  intros Hf Hsum k Hk. symmetry.
  apply (big_sum_squeeze (fun _ => 0) f n); auto.
  now rewrite big_sum_zero.
Qed.

End Sums.

Section Matrices.

Local Open Scope R_scope.

Implicit Types (M N P : list (list R)) (u v : list R) (a b k m n p : nat).

Lemma entry_unfold M a b : entry M a b = nth b (nth a M []) 0.
Proof. reflexivity. Qed.

Lemma nth_map_seq {A : Type} (f : nat -> A) n a d :
  (a < n)%nat -> nth a (map f (seq 0 n)) d = f a.
Proof.
  intros Ha. rewrite nth_indep with (d' := f 0%nat) by now rewrite length_map, length_seq.
  rewrite map_nth, seq_nth by assumption. reflexivity.
Qed.

Lemma nth_map_rows {A : Type} (f : list R -> A) M a d :
  (a < length M)%nat -> nth a (map f M) d = f (nth a M []).
Proof.
  intros Ha. rewrite nth_indep with (d' := f []) by now rewrite length_map.
  apply map_nth.
Qed.

Lemma vecdot_big_sum u v :
  length u = length v ->
  vecdot u v = big_sum (fun k => nth k u 0 * nth k v 0) (length u).
Proof.
  revert v; induction u as [|x u IH]; intros [|y v] Hlen; simpl in Hlen;
    try discriminate; [reflexivity|].
  rewrite vecdot_cons, IH by lia. cbn [length].
  rewrite big_sum_shift. reflexivity.
Qed.

Lemma has_shape_rows m n M : has_shape m n M -> length M = m.
Proof. now intros [? _]. Qed.

Lemma has_shape_row m n M a :
  has_shape m n M -> (a < m)%nat -> length (nth a M []) = n.
Proof.
  intros [Hm Hrows] Ha. rewrite Forall_forall in Hrows.
  apply Hrows, nth_In. lia.
Qed.

Lemma has_shape_intro m n M :
  length M = m ->
  (forall a, (a < m)%nat -> length (nth a M []) = n) ->
  has_shape m n M.
Proof.
  intros Hm Hrows. split; [exact Hm|].
  apply Forall_forall. intros r Hr.
  destruct (In_nth _ _ [] Hr) as (a & Ha & <-). apply Hrows. lia.
Qed.

(** Matrices of one shape with the same entries are equal. *)
Lemma matrix_ext m n M N :
  has_shape m n M -> has_shape m n N ->
  (forall a b, (a < m)%nat -> (b < n)%nat -> entry M a b = entry N a b) ->
  M = N.
Proof.
  intros HM HN Hentries.
  apply nth_ext with (d := []) (d' := []).
  - now rewrite (has_shape_rows _ _ _ HM), (has_shape_rows _ _ _ HN).
  - intros a Ha. rewrite (has_shape_rows _ _ _ HM) in Ha.
    apply nth_ext with (d := 0) (d' := 0).
    + now rewrite (has_shape_row _ _ _ _ HM Ha), (has_shape_row _ _ _ _ HN Ha).
    + intros b Hb. rewrite (has_shape_row _ _ _ _ HM Ha) in Hb.
      now apply Hentries.
Qed.

Lemma transpose_rows m n M :
  has_shape m n M -> (0 < m)%nat ->
  transpose M = map (fun j => map (fun row => nth j row 0) M) (seq 0 n).
Proof.
  intros HM Hm. pose proof (has_shape_row _ _ _ 0%nat HM Hm) as Hrow.
  destruct HM as [Hlen _]. destruct M as [|r M]; [simpl in Hlen; lia|].
  simpl in Hrow. unfold transpose. now rewrite Hrow.
Qed.

Lemma transpose_shape m n M :
  has_shape m n M -> (0 < m)%nat -> has_shape n m (transpose M).
Proof.
  intros HM Hm. rewrite (transpose_rows _ _ _ HM Hm).
  apply has_shape_intro.
  - now rewrite length_map, length_seq.
  - intros b Hb. rewrite nth_map_seq by assumption.
    rewrite length_map. now destruct HM.
Qed.

Lemma transpose_nth m n M b :
  has_shape m n M -> (0 < m)%nat -> (b < n)%nat ->
  nth b (transpose M) [] = map (fun row => nth b row 0) M.
Proof.
  intros HM Hm Hb. rewrite (transpose_rows _ _ _ HM Hm).
  now rewrite nth_map_seq.
Qed.

Lemma transpose_entry m n M a b :
  has_shape m n M -> (a < m)%nat -> (b < n)%nat ->
  entry (transpose M) b a = entry M a b.
Proof.
  intros HM Ha Hb. rewrite !entry_unfold.
  rewrite (transpose_nth _ _ _ _ HM) by (assumption || lia).
  rewrite nth_map_rows by (destruct HM; lia). reflexivity.
Qed.

Lemma matvec_nth M v a :
  (a < length M)%nat -> nth a (matvec M v) 0 = vecdot (nth a M []) v.
Proof. intros Ha. unfold matvec. now rewrite nth_map_rows. Qed.

Lemma matmul_shape m p n M N :
  has_shape m p M -> has_shape p n N -> (0 < p)%nat ->
  has_shape m n (matmul M N).
Proof.
  intros HM HN Hp. unfold matmul. apply has_shape_intro.
  - rewrite length_map. now destruct HM.
  - intros a Ha. rewrite nth_map_rows by (destruct HM; lia).
    rewrite length_map.
    now destruct (transpose_shape _ _ _ HN Hp).
Qed.

Lemma matmul_entry m p n M N a b :
  has_shape m p M -> has_shape p n N -> (0 < p)%nat ->
  (a < m)%nat -> (b < n)%nat ->
  entry (matmul M N) a b = big_sum (fun k => entry M a k * entry N k b) p.
Proof.
  intros HM HN Hp Ha Hb. rewrite entry_unfold. unfold matmul.
  rewrite nth_map_rows by (destruct HM; lia).
  pose proof (transpose_shape _ _ _ HN Hp) as HNt.
  rewrite nth_map_rows by (destruct HNt; lia).
  rewrite (transpose_nth _ _ _ _ HN Hp Hb).
  rewrite vecdot_big_sum
    by (rewrite length_map, (has_shape_row _ _ _ _ HM Ha); now destruct HN).
  rewrite (has_shape_row _ _ _ _ HM Ha).
  apply big_sum_ext. intros k Hk.
  rewrite nth_map_rows by (destruct HN; lia). reflexivity.
Qed.

Lemma eye_shape n : has_shape n n (eye (F := R) n).
Proof.
  unfold eye. apply has_shape_intro.
  - now rewrite length_map, length_seq.
  - intros a Ha. rewrite nth_map_seq by assumption.
    now rewrite length_map, length_seq.
Qed.

Lemma eye_entry n a b :
  (a < n)%nat -> (b < n)%nat ->
  entry (eye n) a b = if Nat.eqb a b then 1 else 0.
Proof.
  intros Ha Hb. rewrite entry_unfold. unfold eye.
  rewrite nth_map_seq by assumption. now rewrite nth_map_seq.
Qed.

Lemma matmul_assoc m p r n M N P :
  has_shape m p M -> has_shape p r N -> has_shape r n P ->
  (0 < p)%nat -> (0 < r)%nat ->
  matmul (matmul M N) P = matmul M (matmul N P).
Proof.
  intros HM HN HP Hp Hr.
  pose proof (matmul_shape _ _ _ _ _ HM HN Hp) as HMN.
  pose proof (matmul_shape _ _ _ _ _ HN HP Hr) as HNP.
  apply matrix_ext with (m := m) (n := n);
    [now apply matmul_shape with (p := r) | now apply matmul_shape with (p := p) |].
  intros a b Ha Hb.
  rewrite (matmul_entry _ _ _ _ _ _ _ HMN HP Hr Ha Hb).
  rewrite (matmul_entry _ _ _ _ _ _ _ HM HNP Hp Ha Hb).
  rewrite big_sum_ext
    with (g := fun k => big_sum (fun j => entry M a j * entry N j k * entry P k b) p).
  2:{ intros k Hk. rewrite (matmul_entry _ _ _ _ _ _ _ HM HN Hp Ha Hk).
      now rewrite big_sum_scale_r. }
  rewrite big_sum_exchange. apply big_sum_ext. intros j Hj.
  rewrite (matmul_entry _ _ _ _ _ _ _ HN HP Hr Hj Hb).
  rewrite <- big_sum_scale_l. apply big_sum_ext. intros k _. lra.
Qed.

Lemma matmul_eye_l n p M :
  has_shape n p M -> (0 < n)%nat -> matmul (eye n) M = M.
Proof.
  intros HM Hn.
  apply matrix_ext with (m := n) (n := p);
    [now apply matmul_shape with (p := n); auto using eye_shape | assumption |].
  intros a b Ha Hb.
  rewrite (matmul_entry _ _ _ _ _ _ _ (eye_shape n) HM Hn Ha Hb).
  rewrite big_sum_ext
    with (g := fun k => (if Nat.eqb a k then 1 else 0) * entry M k b)
    by (intros k Hk; now rewrite eye_entry).
  now rewrite big_sum_delta_l.
Qed.

Lemma matmul_eye_r m n M :
  has_shape m n M -> (0 < n)%nat -> matmul M (eye n) = M.
Proof.
  intros HM Hn.
  apply matrix_ext with (m := m) (n := n);
    [now apply matmul_shape with (p := n); auto using eye_shape | assumption |].
  intros a b Ha Hb.
  rewrite (matmul_entry _ _ _ _ _ _ _ HM (eye_shape n) Hn Ha Hb).
  rewrite big_sum_ext
    with (g := fun k => entry M a k * (if Nat.eqb k b then 1 else 0))
    by (intros k Hk; now rewrite eye_entry).
  now rewrite big_sum_delta_r.
Qed.

End Matrices.

Section MatrixFacts.

Local Open Scope R_scope.

Implicit Types (M N P Q A : list (list R)) (u v d e : list R) (a b k m n p : nat).

Lemma big_sum_term_le (f : nat -> R) n a :
  (forall k, (k < n)%nat -> 0 <= f k) -> (a < n)%nat -> f a <= big_sum f n.
Proof.
  induction n as [|n IH]; intros Hf Ha; [lia|]. simpl.
  assert (0 <= big_sum f n) by (apply big_sum_nonneg; auto with arith).
  assert (0 <= f n) by (apply Hf; lia).
  destruct (Nat.eq_dec a n) as [->|Hne]; [lra|].
  assert (f a <= big_sum f n) by (apply IH; auto with arith; lia). lra.
Qed.

(** A symmetric matrix is self-adjoint for the dot product. *)
Lemma matvec_symmetric n A u v :
  has_shape n n A -> symmetric A -> length u = n -> length v = n ->
  vecdot (matvec A u) v = vecdot u (matvec A v).
Proof.
  intros HA Hsym Hu Hv.
  pose proof (has_shape_rows _ _ _ HA) as Hrows.
  rewrite !vecdot_big_sum by (rewrite ?matvec_length; congruence).
  rewrite matvec_length, Hrows, Hu.
  rewrite big_sum_ext
    with (g := fun a => big_sum (fun b => entry A a b * nth b u 0 * nth a v 0) n).
  2:{ intros a Ha. rewrite matvec_nth by lia.
      rewrite vecdot_big_sum by (rewrite (has_shape_row _ _ _ _ HA Ha); congruence).
      rewrite (has_shape_row _ _ _ _ HA Ha), <- big_sum_scale_r.
      apply big_sum_ext. intros b _. now rewrite entry_unfold. }
  rewrite big_sum_exchange. apply big_sum_ext. intros b Hb.
  rewrite matvec_nth by lia.
  rewrite vecdot_big_sum by (rewrite (has_shape_row _ _ _ _ HA Hb); congruence).
  rewrite (has_shape_row _ _ _ _ HA Hb), <- big_sum_scale_l.
  apply big_sum_ext. intros a _. rewrite (Hsym a b), entry_unfold. lra.
Qed.

(** A square matrix with orthonormal rows has orthonormal columns. *)
Lemma orthonormal_rows_complete n Q :
  has_shape n n Q -> (0 < n)%nat ->
  matmul Q (transpose Q) = eye n -> matmul (transpose Q) Q = eye n.
Proof.
  intros HQ Hn Hrows.
  pose proof (transpose_shape _ _ _ HQ Hn) as HQt.
  pose proof (matmul_shape _ _ _ _ _ HQt HQ Hn) as HP.
  set (P := matmul (transpose Q) Q) in *.
  assert (Hentry : forall a b, (a < n)%nat -> (b < n)%nat ->
            entry P a b = big_sum (fun k => entry Q k a * entry Q k b) n).
  { intros a b Ha Hb. unfold P.
    rewrite (matmul_entry _ _ _ _ _ _ _ HQt HQ Hn Ha Hb).
    apply big_sum_ext. intros k Hk.
    now rewrite (transpose_entry _ _ _ _ _ HQ Hk Ha). }
  assert (Hsym : forall a b, (a < n)%nat -> (b < n)%nat -> entry P a b = entry P b a).
  { intros a b Ha Hb. rewrite !Hentry by assumption.
    apply big_sum_ext. intros k _. lra. }
  assert (Hidem : matmul P P = P).
  { unfold P at 1.
    rewrite (matmul_assoc _ _ _ _ _ _ _ HQt HQ HP Hn Hn).
    unfold P. rewrite <- (matmul_assoc _ _ _ _ _ _ _ HQ HQt HQ Hn Hn).
    rewrite Hrows. now rewrite (matmul_eye_l _ _ _ HQ Hn). }
  assert (Hdiag : forall a, (a < n)%nat ->
            entry P a a = big_sum (fun c => entry P a c * entry P a c) n).
  { intros a Ha. rewrite <- Hidem at 1.
    rewrite (matmul_entry _ _ _ _ _ _ _ HP HP Hn Ha Ha).
    apply big_sum_ext. intros c Hc. now rewrite (Hsym c a). }
  assert (Htrace : big_sum (fun a => entry P a a) n = big_sum (fun _ => 1) n).
  { rewrite big_sum_ext
      with (g := fun a => big_sum (fun k => entry Q k a * entry Q k a) n)
      by (intros a Ha; now apply Hentry).
    rewrite big_sum_exchange. apply big_sum_ext. intros k Hk.
    assert (Hkk : entry (matmul Q (transpose Q)) k k = 1)
      by (rewrite Hrows, eye_entry, Nat.eqb_refl by assumption; reflexivity).
    rewrite (matmul_entry _ _ _ _ _ _ _ HQ HQt Hn Hk Hk) in Hkk.
    rewrite <- Hkk. apply big_sum_ext. intros a Ha.
    now rewrite (transpose_entry _ _ _ _ _ HQ Hk Ha). }
  assert (Hone : forall a, (a < n)%nat -> entry P a a = 1).
  { apply big_sum_squeeze; [|exact Htrace].
    intros a Ha.
    assert (entry P a a * entry P a a <= entry P a a).
    { rewrite (Hdiag a Ha) at 3.
      apply (big_sum_term_le (fun c => entry P a c * entry P a c)); [|exact Ha].
      intros c _. nra. }
    nra. }
  apply matrix_ext with (m := n) (n := n); [exact HP | apply eye_shape |].
  intros a b Ha Hb. rewrite eye_entry by assumption.
  assert (Hsq : (if Nat.eqb a b then 1 else 0) = entry P a b * entry P a b).
  { apply (big_sum_squeeze (fun c => if Nat.eqb a c then 1 else 0)
             (fun c => entry P a c * entry P a c) n); [| |exact Hb].
    - intros c Hc. destruct (Nat.eqb_spec a c) as [<-|_]; [|nra].
      rewrite (Hone a Ha). lra.
    - rewrite <- (Hdiag a Ha), (Hone a Ha).
      rewrite big_sum_ext
        with (g := fun c => (if Nat.eqb a c then 1 else 0) * 1)
        by (intros; lra).
      now rewrite (big_sum_delta_l (fun _ => 1)). }
  destruct (Nat.eqb_spec a b) as [<-|Hne]; [now apply Hone|]. nra.
Qed.

(** Entries of sums of matrices and of banded matrices. *)
Lemma vadd_length u v : length u = length v -> length (vadd u v) = length u.
Proof.
  revert v; induction u as [|x u IH]; intros [|y v] Hlen; simpl in *;
    try discriminate; auto.
Qed.

Lemma vadd_nth u v k :
  length u = length v -> nth k (vadd u v) 0 = nth k u 0 + nth k v 0.
Proof.
  revert v k; induction u as [|x u IH]; intros [|y v] [|k] Hlen; simpl in *;
    try discriminate; try lra; auto.
Qed.

Lemma madd_shape m n M N :
  has_shape m n M -> has_shape m n N -> has_shape m n (madd M N).
Proof.
  revert m N; induction M as [|r M IH]; intros m [|s N] [HmM HrM] [HmN HrN];
    simpl in *; try (subst m; discriminate); [split; auto|].
  inversion HrM; inversion HrN; subst.
  destruct (IH (length M) N) as [Hlen Hrows]; [split; auto | split; auto; lia |].
  split; simpl; [lia|]. constructor; [|exact Hrows].
  rewrite vadd_length; congruence.
Qed.

Lemma madd_entry m n M N a b :
  has_shape m n M -> has_shape m n N ->
  entry (madd M N) a b = entry M a b + entry N a b.
Proof.
  rewrite !entry_unfold.
  revert m N a; induction M as [|r M IH]; intros m [|s N] a [HmM HrM] [HmN HrN];
    simpl in *; try (subst m; discriminate).
  - destruct a, b; simpl; lra.
  - inversion HrM; inversion HrN; subst.
    destruct a as [|a].
    + apply vadd_nth. congruence.
    + apply (IH (length M)); split; auto; lia.
Qed.

Lemma diagonal_matrix_shape v (k : Z) :
  has_shape (length v + Z.abs_nat k) (length v + Z.abs_nat k) (diagonal_matrix v k).
Proof.
  unfold diagonal_matrix. apply has_shape_intro.
  - now rewrite length_map, length_seq.
  - intros a Ha. rewrite nth_map_seq by assumption.
    now rewrite length_map, length_seq.
Qed.

Lemma diagonal_matrix_entry v (k : Z) a b :
  (a < length v + Z.abs_nat k)%nat -> (b < length v + Z.abs_nat k)%nat ->
  entry (diagonal_matrix v k) a b
  = if (Z.of_nat b - Z.of_nat a =? k)%Z then nth (Nat.min a b) v 0 else 0.
Proof.
  intros Ha Hb. rewrite entry_unfold. unfold diagonal_matrix.
  rewrite nth_map_seq by assumption. now rewrite nth_map_seq.
Qed.

Lemma sym_tridiagonal_dense_shape n d e :
  length d = n -> length e = (n - 1)%nat -> (0 < n)%nat ->
  has_shape n n (_sym_tridiagonal_dense d e).
Proof.
  intros Hd He Hn. unfold _sym_tridiagonal_dense.
  pose proof (diagonal_matrix_shape d 0) as H0.
  pose proof (diagonal_matrix_shape e 1) as H1.
  pose proof (diagonal_matrix_shape e (-1)) as H2.
  replace (length d + Z.abs_nat 0)%nat with n in H0 by (simpl; lia).
  replace (length e + Z.abs_nat 1)%nat with n in H1 by (simpl; lia).
  replace (length e + Z.abs_nat (-1))%nat with n in H2 by (simpl; lia).
  auto using madd_shape.
Qed.

Lemma sym_tridiagonal_dense_entry n d e a b :
  length d = n -> length e = (n - 1)%nat -> (a < n)%nat -> (b < n)%nat ->
  entry (_sym_tridiagonal_dense d e) a b
  = if Nat.eqb a b then nth a d 0
    else if Nat.eqb b (S a) then nth a e 0
    else if Nat.eqb a (S b) then nth b e 0
    else 0.
Proof.
  intros Hd He Ha Hb. unfold _sym_tridiagonal_dense.
  pose proof (diagonal_matrix_shape d 0) as H0.
  pose proof (diagonal_matrix_shape e 1) as H1.
  pose proof (diagonal_matrix_shape e (-1)) as H2.
  replace (length d + Z.abs_nat 0)%nat with n in H0 by (simpl; lia).
  replace (length e + Z.abs_nat 1)%nat with n in H1 by (simpl; lia).
  replace (length e + Z.abs_nat (-1))%nat with n in H2 by (simpl; lia).
  rewrite (madd_entry _ _ _ _ _ _ (madd_shape _ _ _ _ H0 H1) H2).
  rewrite (madd_entry _ _ _ _ _ _ H0 H1).
  rewrite !diagonal_matrix_entry by (simpl; lia).
  destruct (Nat.eqb_spec a b) as [->|Hab].
  - rewrite Z.sub_diag, Nat.min_id. simpl. lra.
  - destruct (Z.eqb_spec (Z.of_nat b - Z.of_nat a) 0); [lia|].
    destruct (Nat.eqb_spec b (S a)) as [->|Hba].
    + destruct (Z.eqb_spec (Z.of_nat (S a) - Z.of_nat a) 1); [|lia].
      destruct (Z.eqb_spec (Z.of_nat (S a) - Z.of_nat a) (-1)); [lia|].
      rewrite Nat.min_l by lia. lra.
    + destruct (Z.eqb_spec (Z.of_nat b - Z.of_nat a) 1); [lia|].
      destruct (Nat.eqb_spec a (S b)) as [->|Hab'].
      * destruct (Z.eqb_spec (Z.of_nat b - Z.of_nat (S b)) (-1)); [|lia].
        rewrite Nat.min_r by lia. lra.
      * destruct (Z.eqb_spec (Z.of_nat b - Z.of_nat a) (-1)); [lia|]. lra.
Qed.

End MatrixFacts.

(** ** The tridiagonal algorithm in exact arithmetic *)

Section LanczosExact.

Local Open Scope R_scope.

Variables (A : list (list R)) (n : nat).

Hypothesis HA : has_shape n n A.
Hypothesis Hsym : symmetric A.
Hypothesis Hn : (2 <= n)%nat.

Implicit Types (bs : list (list R)) (dg od vec u v w r p : list R) (k j : nat).

Lemma vecdot_two_projections_l w u p ci cp r :
  length w = length u -> length w = length p ->
  vecdot (vsub (vsub w (vscale ci u)) (vscale cp p)) r
  = vecdot w r - ci * vecdot u r - cp * vecdot p r.
Proof.
  intros Hu Hp.
  rewrite vecdot_vsub_l
    by (rewrite vsub_length, vscale_length; rewrite ?vscale_length; congruence).
  rewrite vecdot_vsub_l by (rewrite vscale_length; congruence).
  now rewrite !vecdot_vscale_l.
Qed.

Lemma vecdot_two_projections_r w u p ci cp r :
  length w = length u -> length w = length p ->
  vecdot r (vsub (vsub w (vscale ci u)) (vscale cp p))
  = vecdot r w - ci * vecdot r u - cp * vecdot r p.
Proof.
  intros Hu Hp. rewrite vecdot_comm, vecdot_two_projections_l by assumption.
  now rewrite (vecdot_comm w), (vecdot_comm u), (vecdot_comm p).
Qed.

(** The step on a state that satisfies the invariant: reorthogonalisation and
    re-normalisation leave the normalised working vector as it is. *)
Lemma lanczos_step_explicit k bs dg od vec :
  lanczos_invariant A n k (mk_LanczosState (Z.of_nat k) bs (dg, od) vec) ->
  (k < n)%nat -> vector_norm vec <> 0 ->
  let len := vector_norm vec in
  let u := vdiv vec len in
  let p := if Nat.eqb k 0 then repeat 0 n else nth (k - 1) bs [] in
  let w := matvec A u in
  let c_i := vecdot w u in
  let w1 := vsub w (vscale c_i u) in
  let c_p := vecdot w1 p in
  _lanczos_full_reortho_apply (mk_LanczosState (Z.of_nat k) bs (dg, od) vec) (matvec A)
  = mk_LanczosState (Z.of_nat (S k)) (list_update bs k u)
      (list_update dg k c_i,
       list_update od (if Nat.eqb k 0 then n - 2 else k - 1) len)
      (vsub w1 (vscale c_p p)).
Proof.
  intros [_ Hbs Hdg Hod Hvec Hpad _ Hvo _ _ _ _] Hk Hlen.
  cbn [i basis tridiag q fst snd] in *.
  pose proof (has_shape_rows _ _ _ Hbs) as Hrows.
  cbv zeta. rewrite lanczos_apply_unfold. cbv zeta.
  assert (Hgs : fst (_gram_schmidt_orthogonalise_set (vdiv vec (vector_norm vec)) bs)
                = vdiv vec (vector_norm vec)).
  { apply gram_schmidt_set_orthogonal, Forall_forall. intros r Hr.
    destruct (In_nth _ _ [] Hr) as (j & Hj & <-). rewrite Hrows in Hj.
    split.
    - now rewrite (has_shape_row _ _ _ _ Hbs Hj), vdiv_length.
    - rewrite vecdot_vdiv_l. destruct (Nat.lt_ge_cases j k) as [Hjk|Hjk].
      + rewrite Hvo by assumption. unfold Rdiv. lra.
      + rewrite Hpad, vecdot_repeat_zero_r by lia. unfold Rdiv. lra. }
  rewrite Hgs.
  rewrite (vector_norm_of_unit _ (normalise_unit _ Hlen)), vdiv_one.
  set (u := vdiv vec (vector_norm vec)).
  rewrite (at_set_in_range bs) by lia.
  rewrite (at_set_in_range dg) by lia.
  rewrite Nat2Z.id.
  rewrite (getitem_in_range [] (list_update bs k u) (Z.of_nat k))
    by (rewrite list_update_length; lia).
  rewrite Nat2Z.id, nth_list_update_eq by lia.
  replace (Z.of_nat k + 1)%Z with (Z.of_nat (S k)) by lia.
  destruct k as [|k'].
  - cbn [Nat.eqb Z.of_nat]. change (0 - 1)%Z with (-1)%Z.
    rewrite getitem_minus_one by (destruct bs; [simpl in Hrows; lia|discriminate]).
    rewrite list_update_length, Hrows.
    rewrite nth_list_update_neq by lia.
    rewrite Hpad by lia.
    rewrite at_set_minus_one by (destruct od; [simpl in Hod; lia|discriminate]).
    rewrite Hod. replace (n - 1 - 1)%nat with (n - 2)%nat by lia.
    reflexivity.
  - cbn [Nat.eqb].
    rewrite (getitem_in_range [] _ (Z.of_nat (S k') - 1))
      by (rewrite list_update_length; lia).
    rewrite (at_set_in_range od) by lia.
    replace (Z.to_nat (Z.of_nat (S k') - 1)) with (S k' - 1)%nat by lia.
    rewrite nth_list_update_neq by lia.
    reflexivity.
Qed.

(** A step on a non-zero working vector preserves the invariant. *)
Lemma lanczos_step_preserves k st :
  lanczos_invariant A n k st -> (k < n)%nat -> vector_norm (q st) <> 0 ->
  lanczos_invariant A n (S k) (_lanczos_full_reortho_apply st (matvec A)).
Proof.
  intros Hinv Hk Hlen.
  destruct st as [idx bs [dg od] vec].
  pose proof (inv_index _ _ _ _ Hinv) as Hidx. cbn [i] in Hidx. subst idx.
  cbn [q] in Hlen.
  rewrite (lanczos_step_explicit k bs dg od vec Hinv Hk Hlen).
  destruct Hinv as [_ Hbs Hdg Hod Hvec Hpad Hon Hvo Hd He Hrec Hpend].
  cbn [i basis tridiag q fst snd] in *.
  pose proof (has_shape_rows _ _ _ Hbs) as Hrows.
  set (len := vector_norm vec) in *.
  set (u := vdiv vec len).
  set (p := if Nat.eqb k 0 then repeat 0 n else nth (k - 1) bs []).
  set (w := matvec A u).
  set (c_i := vecdot w u).
  set (w1 := vsub w (vscale c_i u)).
  set (c_p := vecdot w1 p).
  assert (Hrow_len : forall j, (j < n)%nat -> length (nth j bs []) = n)
    by (intros; now apply (has_shape_row _ _ _ _ Hbs)).
  assert (Hu_len : length u = n) by (unfold u; now rewrite vdiv_length).
  assert (Huu : vecdot u u = 1) by now apply normalise_unit.
  assert (Hu_row : forall j, (j < k)%nat -> vecdot u (nth j bs []) = 0).
  { intros j Hj. unfold u. rewrite vecdot_vdiv_l, Hvo by assumption.
    unfold Rdiv; lra. }
  assert (Hvec_u : forall x, vecdot x vec = len * vecdot x u).
  { intros x. unfold u. rewrite vecdot_vdiv_r. field. exact Hlen. }
  assert (Hp_len : length p = n).
  { unfold p. destruct (Nat.eqb_spec k 0); [apply repeat_length | apply Hrow_len; lia]. }
  assert (Hp_orth : forall x, ((1 <= k)%nat -> vecdot x (nth (k - 1) bs []) = 0) ->
                              vecdot x p = 0).
  { intros x Hx. unfold p.
    destruct (Nat.eqb_spec k 0); [apply vecdot_repeat_zero_r | apply Hx; lia]. }
  assert (Hup : vecdot u p = 0) by (apply Hp_orth; intros; apply Hu_row; lia).
  assert (Hw_len : length w = n)
    by (unfold w; rewrite matvec_length; now destruct HA).
  assert (Hrow' : forall j, nth j (list_update bs k u) []
                            = if Nat.eqb j k then u else nth j bs []).
  { intros j. destruct (Nat.eqb_spec j k) as [->|Hne];
      [apply nth_list_update_eq; lia | now apply nth_list_update_neq]. }
  assert (Hw2_l : forall r, vecdot (vsub w1 (vscale c_p p)) r
                            = vecdot w r - c_i * vecdot u r - c_p * vecdot p r)
    by (intros r; unfold w1; apply vecdot_two_projections_l; congruence).
  assert (Hw2_r : forall r, vecdot r (vsub w1 (vscale c_p p))
                            = vecdot r w - c_i * vecdot r u - c_p * vecdot r p)
    by (intros r; unfold w1; apply vecdot_two_projections_r; congruence).
  assert (Hcp : c_p = vecdot w p - c_i * vecdot u p).
  { unfold c_p, w1.
    rewrite vecdot_vsub_l, vecdot_vscale_l by (rewrite vscale_length; congruence).
    reflexivity. }
  constructor; cbn [i basis tridiag q fst snd].
  - reflexivity.
  - apply has_shape_intro; [now rewrite list_update_length|].
    intros a Ha. rewrite Hrow'. destruct (Nat.eqb a k); auto.
  - now rewrite list_update_length.
  - now rewrite list_update_length.
  - assert (Hw1_len : length w1 = n)
      by (unfold w1; rewrite vsub_length; rewrite ?vscale_length; lia).
    rewrite vsub_length; rewrite ?vscale_length; lia.
  - intros j Hj. rewrite Hrow'. destruct (Nat.eqb_spec j k); [lia|].
    apply Hpad; lia.
  - intros a b Ha Hb. rewrite !Hrow'.
    destruct (Nat.eqb_spec a k) as [->|Hak], (Nat.eqb_spec b k) as [->|Hbk].
    + now rewrite Nat.eqb_refl.
    + destruct (Nat.eqb_spec k b); [lia|]. apply Hu_row; lia.
    + destruct (Nat.eqb_spec a k); [lia|]. rewrite vecdot_comm. apply Hu_row; lia.
    + apply Hon; lia.
  - intros j Hj. rewrite Hw2_l, Hrow'.
    destruct (Nat.eqb_spec j k) as [->|Hjk].
    + fold c_i. rewrite Huu, (vecdot_comm p u), Hup. lra.
    + assert (Hur : vecdot u (nth j bs []) = 0) by (apply Hu_row; lia).
      rewrite Hur.
      destruct (Nat.eq_dec (S j) k) as [HSj|HSj].
      * assert (Hpj : p = nth j bs [])
          by (unfold p; destruct (Nat.eqb_spec k 0); [lia|]; f_equal; lia).
        rewrite <- Hpj, Hcp, Hup.
        assert (Hpp : vecdot p p = 1)
          by (rewrite Hpj, Hon by lia; now rewrite Nat.eqb_refl).
        rewrite Hpp. lra.
      * assert (Hwr : vecdot w (nth j bs []) = 0).
        { unfold w.
          rewrite (matvec_symmetric n) by (auto; apply Hrow_len; lia).
          apply Hrec; try lia; auto.
          - apply Hu_row; lia.
          - intros; apply Hu_row; lia. }
        assert (Hpr : vecdot p (nth j bs []) = 0).
        { unfold p. destruct (Nat.eqb_spec k 0); [apply vecdot_repeat_zero_l|].
          rewrite Hon by lia. destruct (Nat.eqb_spec (k - 1) j); [lia|reflexivity]. }
        rewrite Hwr, Hpr. lra.
  - intros j Hj. rewrite !Hrow'. destruct (Nat.eqb_spec j k) as [->|Hjk].
    + rewrite nth_list_update_eq by lia. unfold c_i, w. apply vecdot_comm.
    + rewrite nth_list_update_neq by assumption. apply Hd; lia.
  - intros j Hj. rewrite !Hrow'.
    destruct (Nat.eqb_spec k 0) as [->|Hk0]; [lia|].
    destruct (Nat.eqb_spec (j - 1) k); [lia|].
    destruct (Nat.eqb_spec j k) as [->|Hjk].
    + rewrite nth_list_update_eq by lia.
      rewrite (Hpend u)
        by solve [lia | assumption | apply Hu_row; lia | intros; apply Hu_row; lia].
      rewrite Hvec_u, Huu. lra.
    + rewrite nth_list_update_neq by lia. apply He; lia.
  - intros j x Hj Hx Hx1 Hx2 Hx3. rewrite Hrow' in Hx1, Hx2, Hx3 |- *.
    assert (Ej : Nat.eqb j k = false) by (apply Nat.eqb_neq; lia).
    assert (Ej1 : Nat.eqb (j - 1) k = false) by (apply Nat.eqb_neq; lia).
    rewrite Ej in Hx2 |- *. rewrite Ej1 in Hx3.
    destruct (Nat.eq_dec (S j) k) as [HSj|HSj].
    + rewrite (proj2 (Nat.eqb_eq _ _) HSj) in Hx1.
      assert (Hxv : vecdot x (matvec A (nth (k - 1) bs [])) = vecdot x vec).
      { apply Hpend; [lia | assumption | |].
        - replace (k - 1)%nat with j by lia. exact Hx2.
        - intros Hk2. replace (k - 2)%nat with (j - 1)%nat by lia.
          apply Hx3. lia. }
      replace (k - 1)%nat with j in Hxv by lia.
      rewrite Hxv, Hvec_u, Hx1. lra.
    + rewrite (proj2 (Nat.eqb_neq _ _) HSj) in Hx1.
      apply Hrec; auto; lia.
  - intros x _ Hx Hx1 Hx2. rewrite Hrow' in Hx1, Hx2 |- *.
    replace (S k - 1)%nat with k in Hx1 |- * by lia.
    rewrite Nat.eqb_refl in Hx1 |- *.
    rewrite Hw2_r. fold w. rewrite Hx1.
    assert (Hxp : vecdot x p = 0).
    { apply Hp_orth. intros Hk1. specialize (Hx2 ltac:(lia)).
      replace (S k - 2)%nat with (k - 1)%nat in Hx2 by lia.
      destruct (Nat.eqb_spec (k - 1) k); [lia|]. exact Hx2. }
    rewrite Hxp. lra.
Qed.

(** The initial state satisfies the invariant. *)
Lemma lanczos_invariant_init (v0 : list R) :
  length v0 = n ->
  lanczos_invariant A n 0
    (mk_LanczosState 0 (zeros2 (Z.of_nat n - 1 + 1) (Z.of_nat (length v0)))
       (zeros (Z.of_nat n - 1 + 1), zeros (Z.of_nat n - 1)) v0).
Proof.
  intros Hv0. rewrite Hv0.
  replace (Z.of_nat n - 1 + 1)%Z with (Z.of_nat n) by lia.
  assert (Hrow : forall j, (j < n)%nat ->
            nth j (zeros2 (F := R) (Z.of_nat n) (Z.of_nat n)) [] = repeat 0 n).
  { intros j Hj. unfold zeros2. rewrite zeros_repeat, Nat2Z.id.
    rewrite nth_indep with (d' := repeat 0 n) by (rewrite repeat_length; lia).
    apply nth_repeat. }
  constructor; cbn [i basis tridiag q fst snd]; try solve [intros; lia].
  - apply has_shape_intro; [rewrite zeros2_length; lia|].
    intros a Ha. rewrite Hrow by assumption. apply repeat_length.
  - rewrite zeros_length. lia.
  - rewrite zeros_length. lia.
  - intros j Hj. apply Hrow. lia.
Qed.

(** The invariant holds along a run that never normalises a zero vector. *)
Lemma lanczos_invariant_steps (v0 : list R) s0 k :
  length v0 = n ->
  _lanczos_full_reortho_init (Z.of_nat n - 1) v0 = Ok s0 ->
  (k <= n)%nat ->
  (forall j, (j < k)%nat -> vector_norm (q (lanczos_steps (matvec A) j s0)) <> 0) ->
  lanczos_invariant A n k (lanczos_steps (matvec A) k s0).
Proof.
  intros Hv0 Hinit Hk Hnz.
  destruct (lanczos_init_inv _ _ _ Hinit) as [_ ->].
  induction k as [|k IH].
  - now apply lanczos_invariant_init.
  - rewrite lanczos_steps_succ. apply lanczos_step_preserves; [|lia|].
    + apply IH; [lia|]. intros j Hj. apply Hnz. lia.
    + apply Hnz. lia.
Qed.

(** With the invariant, the dense tridiagonal matrix built from the
    coefficients has the entries of [A] in the basis. *)
Lemma lanczos_invariant_tridiagonal st a b :
  lanczos_invariant A n n st -> (a < n)%nat -> (b < n)%nat ->
  entry (_sym_tridiagonal_dense (fst (tridiag st)) (snd (tridiag st))) a b
  = vecdot (nth a (basis st) []) (matvec A (nth b (basis st) [])).
Proof.
  intros [_ Hbs Hdg Hod _ _ Hon _ Hd He Hrec _] Ha Hb.
  rewrite (sym_tridiagonal_dense_entry n) by assumption.
  assert (Hrow_len : forall j, (j < n)%nat -> length (nth j (basis st) []) = n)
    by (intros; now apply (has_shape_row _ _ _ _ Hbs)).
  assert (Hadj : forall x y, (x < n)%nat -> (y < n)%nat ->
            vecdot (nth x (basis st) []) (matvec A (nth y (basis st) []))
            = vecdot (nth y (basis st) []) (matvec A (nth x (basis st) []))).
  { intros x y Hx Hy. rewrite vecdot_comm.
    apply (matvec_symmetric n); auto. }
  assert (Hoff : forall x y, (x < n)%nat -> (y < n)%nat -> x <> y ->
            vecdot (nth x (basis st) []) (nth y (basis st) []) = 0).
  { intros x y Hx Hy Hxy. rewrite Hon by assumption.
    destruct (Nat.eqb_spec x y); [lia|reflexivity]. }
  destruct (Nat.eqb_spec a b) as [->|Hab]; [now apply Hd|].
  destruct (Nat.eqb_spec b (S a)) as [->|Hba].
  - rewrite Hadj by assumption.
    replace a with (S a - 1)%nat at 1 3 by lia. apply He. lia.
  - destruct (Nat.eqb_spec a (S b)) as [->|Hab'].
    + replace b with (S b - 1)%nat at 1 3 by lia. apply He. lia.
    + symmetry. destruct (Nat.lt_ge_cases (S b) n) as [HSb|HSb].
      * apply Hrec; auto; try (apply Hoff; lia). intros _. apply Hoff; lia.
      * rewrite Hadj by assumption.
        apply Hrec; auto; try lia; try (apply Hoff; lia).
        intros _. apply Hoff; lia.
Qed.

(** At full order the basis is an orthogonal matrix and the reconstruction
    recovers [A]. *)
Lemma lanczos_invariant_full_order st :
  lanczos_invariant A n n st ->
  let Q := basis st in
  let T := _sym_tridiagonal_dense (fst (tridiag st)) (snd (tridiag st)) in
  has_shape n n Q
  /\ matmul Q (transpose Q) = eye n
  /\ matmul (transpose Q) Q = eye n
  /\ matmul (matmul (transpose Q) T) Q = A.
Proof.
  intros Hinv. cbv zeta.
  pose proof (inv_basis_shape _ _ _ _ Hinv) as HQ.
  assert (Hpos : (0 < n)%nat) by lia.
  pose proof (transpose_shape _ _ _ HQ Hpos) as HQt.
  assert (Hrow_len : forall j, (j < n)%nat -> length (nth j (basis st) []) = n)
    by (intros; now apply (has_shape_row _ _ _ _ HQ)).
  assert (Hrows : matmul (basis st) (transpose (basis st)) = eye n).
  { apply matrix_ext with (m := n) (n := n);
      [now apply matmul_shape with (p := n) | apply eye_shape |].
    intros a b Ha Hb.
    rewrite (matmul_entry _ _ _ _ _ _ _ HQ HQt Hpos Ha Hb).
    rewrite eye_entry by assumption.
    rewrite <- (inv_orthonormal _ _ _ _ Hinv a b Ha Hb).
    rewrite vecdot_big_sum by (rewrite !Hrow_len; auto).
    rewrite Hrow_len by assumption.
    apply big_sum_ext. intros k Hk.
    now rewrite (transpose_entry _ _ _ _ _ HQ Hb Hk). }
  pose proof (orthonormal_rows_complete _ _ HQ Hpos Hrows) as Hcols.
  pose proof (matmul_shape _ _ _ _ _ HA HQt Hpos) as HAQt.
  assert (HT : _sym_tridiagonal_dense (fst (tridiag st)) (snd (tridiag st))
               = matmul (basis st) (matmul A (transpose (basis st)))).
  { apply matrix_ext with (m := n) (n := n);
      [apply sym_tridiagonal_dense_shape; auto; apply Hinv
      | now apply matmul_shape with (p := n) |].
    intros a b Ha Hb.
    rewrite (lanczos_invariant_tridiagonal st a b Hinv Ha Hb).
    rewrite (matmul_entry _ _ _ _ _ _ _ HQ HAQt Hpos Ha Hb).
    rewrite vecdot_big_sum
      by (rewrite matvec_length, Hrow_len by assumption; now destruct HA).
    rewrite Hrow_len by assumption.
    apply big_sum_ext. intros c Hc. rewrite entry_unfold. f_equal.
    rewrite matvec_nth by (destruct HA; lia).
    rewrite (matmul_entry _ _ _ _ _ _ _ HA HQt Hpos Hc Hb).
    rewrite vecdot_big_sum
      by (rewrite (has_shape_row _ _ _ _ HA Hc), Hrow_len; auto).
    rewrite (has_shape_row _ _ _ _ HA Hc).
    apply big_sum_ext. intros k Hk.
    now rewrite (transpose_entry _ _ _ _ _ HQ Hb Hk). }
  split; [exact HQ|]. split; [exact Hrows|]. split; [exact Hcols|].
  rewrite HT.
  rewrite <- (matmul_assoc _ _ _ _ _ _ _ HQt HQ HAQt Hpos Hpos).
  rewrite Hcols, (matmul_eye_l _ _ _ HAQt Hpos).
  rewrite (matmul_assoc _ _ _ _ _ _ _ HA HQt HQ Hpos Hpos).
  rewrite Hcols. now apply (matmul_eye_r n n).
Qed.

End LanczosExact.

(** ** The driver on the tridiagonal algorithm *)

Section DriverOnLanczos.

Context {F : Type} `{Scalar F}.

Lemma lanczos_steps_succ_r (Av : list F -> list F) k st :
  lanczos_steps Av (S k) st
  = lanczos_steps Av k (_lanczos_full_reortho_apply st Av).
Proof. unfold lanczos_steps. apply Nat.iter_succ_r. Qed.

Lemma fori_loop_from_lanczos (Av : list F -> list F) count :
  forall k log st,
    snd (fori_loop_from count k
           (fun (k : Z) '(log, s) =>
              (log ++ [Step_called k], _lanczos_full_reortho_apply s Av))
           (log, st))
    = lanczos_steps Av count st.
Proof.
  induction count as [|count IH]; intros k log st.
  - reflexivity.
  - cbn [fori_loop_from]. rewrite IH. now rewrite lanczos_steps_succ_r.
Qed.

(** The driver returns what [extract] reads off the state after
    [upper - lower] steps from the initial state. *)
Lemma driver_on_lanczos depth lower upper (v0 : list F) Av s0 :
  _lanczos_full_reortho_init depth v0 = Ok s0 ->
  snd (decompose_fori_loop lower upper v0 Av (lanczos_full_reortho depth))
  = Ok (_lanczos_full_reortho_extract
          (lanczos_steps Av (Z.to_nat (upper - lower)) s0)).
Proof.
  intros Hinit. unfold decompose_fori_loop.
  cbn [init step extract lanczos_full_reortho]. rewrite Hinit.
  unfold fori_loop.
  pose proof (fori_loop_from_lanczos Av (Z.to_nat (upper - lower)) lower
                [Init_called] s0) as Hloop.
  destruct (fori_loop_from _ _ _ _) as [log final].
  cbn [snd] in *. now subst final.
Qed.

End DriverOnLanczos.

(** C2: for a symmetric [n]-by-[n] matrix [A] and an initial vector of
    dimension [n], the tridiagonal decomposition of depth [n - 1], run for
    [depth + 1] steps none of which normalises a zero vector, returns in exact
    arithmetic a square orthogonal basis [Q] and coefficients whose dense
    symmetric tridiagonal matrix [T] satisfies [Q.T @ T @ Q = A]. *)
Theorem full_order_tridiagonalisation_is_exact (n : nat) (A : list (list R))
  (v0 : list R) (s0 : _LanczosState R) :
  has_shape n n A ->
  symmetric A ->
  length v0 = n ->
  let depth := (Z.of_nat n - 1)%Z in
  _lanczos_full_reortho_init depth v0 = Ok s0 ->
  no_zero_normalisation (matvec A) (Z.to_nat (depth + 1)) s0 ->
  exists Q d e,
    snd (decompose_fori_loop 0 (depth + 1) v0 (matvec A) (lanczos_full_reortho depth))
    = Ok (Q, (d, e))
    /\ has_shape n n Q
    /\ matmul Q (transpose Q) = eye n
    /\ matmul (transpose Q) Q = eye n
    /\ matmul (matmul (transpose Q) (_sym_tridiagonal_dense d e)) Q = A.
Proof.
  intros HA Hsym Hv0 depth Hinit Hnz.
  destruct (lanczos_init_inv _ _ _ Hinit) as [Hdepth _].
  assert (Hn : (2 <= n)%nat) by (subst depth; lia).
  assert (Hsteps : Z.to_nat (depth + 1 - 0) = n) by (subst depth; lia).
  assert (Hinv : lanczos_invariant A n n (lanczos_steps (matvec A) n s0)).
  { apply lanczos_invariant_steps with (v0 := v0); auto.
    intros j Hj. apply (Hnz j); [subst depth; lia|].
    unfold normalised_by_step. now left. }
  pose proof (lanczos_invariant_full_order A n HA Hsym Hn _ Hinv) as Hfull.
  cbv zeta in Hfull.
  rewrite (driver_on_lanczos depth 0 (depth + 1) v0 (matvec A) s0 Hinit), Hsteps.
  destruct (lanczos_steps (matvec A) n s0) as [idx Q [d e] vec].
  cbn [basis tridiag fst snd _lanczos_full_reortho_extract] in *.
  exists Q, d, e. split; [reflexivity|exact Hfull].
Qed.

(** ** The theorems on concrete inputs *)

Section ConcreteRun.

Local Open Scope R_scope.

(** A full-order run on the matrix that swaps the two coordinates. *)
Lemma swap_matrix_shape : has_shape 2 2 [[0; 1]; [1; 0]].
Proof. split; [reflexivity | repeat constructor]. Qed.

Lemma swap_matrix_symmetric : symmetric [[0; 1]; [1; 0]].
Proof.
  intros a b. destruct a as [|[|[|a]]], b as [|[|[|b]]]; reflexivity.
Qed.

Lemma unit_vector_norm_1 : vector_norm [1; 0] = 1.
Proof. apply vector_norm_of_unit; cbn; lra. Qed.

Lemma unit_vector_norm_2 : vector_norm [0; 1] = 1.
Proof. apply vector_norm_of_unit; cbn; lra. Qed.

Lemma swap_run_first_step :
  lanczos_steps (matvec [[0; 1]; [1; 0]]) 1
    (mk_LanczosState 0 (zeros2 2 2) (zeros 2, zeros 1) [1; 0])
  = mk_LanczosState 1 [[1; 0]; [0; 0]] ([0; 0], [1]) [0; 1].
Proof.
  rewrite lanczos_steps_succ. change (lanczos_steps _ 0 ?s) with s.
  rewrite lanczos_apply_unfold. cbv zeta.
  rewrite unit_vector_norm_1, vdiv_one.
  change (zeros2 2 2) with [[0; 0]; [0; 0]].
  rewrite (gram_schmidt_set_zero_rows [1; 0] 2) by (simpl; repeat constructor).
  rewrite unit_vector_norm_1, vdiv_one.
  change (at_set [[0; 0]; [0; 0]] 0 [1; 0]) with [[1; 0]; [0; 0]].
  change (getitem [] [[1; 0]; [0; 0]] 0) with [1; 0].
  change (getitem [] [[1; 0]; [0; 0]] (0 - 1)) with [0; 0].
  change (at_set (zeros 2) 0 ?c) with [c; 0].
  change (at_set (zeros 1) (0 - 1) ?c) with [c].
  simpl. repeat f_equal; lra.
Qed.

Lemma swap_run_no_zero_normalisation :
  no_zero_normalisation (matvec [[0; 1]; [1; 0]]) 2
    (mk_LanczosState 0 (zeros2 2 2) (zeros 2, zeros 1) [1; 0]).
Proof.
  intros k v Hk Hv.
  assert (Hone : vector_norm v = 1); [|lra].
  destruct k as [|[|k]]; [| |lia].
  - change (lanczos_steps _ 0 ?s) with s in Hv.
    unfold normalised_by_step in Hv. cbn [q basis] in Hv.
    rewrite (normalise_of_unit [1; 0]) in Hv by (cbn; lra). cbn [fst] in Hv.
    change (zeros2 2 2) with [[0; 0]; [0; 0]] in Hv.
    rewrite (gram_schmidt_set_zero_rows [1; 0] 2) in Hv
      by (simpl; repeat constructor).
    destruct Hv as [<-|[<-|[]]]; exact unit_vector_norm_1.
  - rewrite swap_run_first_step in Hv.
    unfold normalised_by_step in Hv. cbn [q basis] in Hv.
    rewrite (normalise_of_unit [0; 1]) in Hv by (cbn; lra). cbn [fst] in Hv.
    rewrite gram_schmidt_set_orthogonal in Hv by (repeat constructor; cbn; lra).
    destruct Hv as [<-|[<-|[]]]; exact unit_vector_norm_2.
Qed.

Lemma full_order_tridiagonalisation_is_exact_witness :
  exists Q d e,
    snd (decompose_fori_loop 0 2 [1; 0] (matvec [[0; 1]; [1; 0]])
           (lanczos_full_reortho 1))
    = Ok (Q, (d, e))
    /\ has_shape 2 2 Q
    /\ matmul Q (transpose Q) = eye 2
    /\ matmul (transpose Q) Q = eye 2
    /\ matmul (matmul (transpose Q) (_sym_tridiagonal_dense d e)) Q
       = [[0; 1]; [1; 0]].
Proof.
  exact (full_order_tridiagonalisation_is_exact 2 [[0; 1]; [1; 0]] [1; 0]
           (mk_LanczosState 0 (zeros2 2 2) (zeros 2, zeros 1) [1; 0])
           swap_matrix_shape swap_matrix_symmetric eq_refl eq_refl
           swap_run_no_zero_normalisation).
Defined.

Lemma zero_rows_do_not_project_witness :
  _gram_schmidt_orthogonalise [1; 2] (zeros 2) = ([1; 2], 0)
  /\ fst (_gram_schmidt_orthogonalise_set [1; 2] ([[1; 0]] ++ [[0; 0]; [0; 0]]))
     = fst (_gram_schmidt_orthogonalise_set [1; 2] [[1; 0]]).
Proof.
  apply (zero_rows_do_not_project [1; 2] 2 [[1; 0]] [[0; 0]; [0; 0]]).
  - reflexivity.
  - repeat constructor.
Defined.

Lemma initialisers_store_initial_vector_witness :
  _lanczos_full_reortho_init 1 [3; 4]
  = Ok (mk_LanczosState 0 (zeros2 2 2) (zeros 2, zeros 1) [3; 4])
  /\ vector_norm (fst (_normalise [1; 0])) = 1.
Proof.
  split.
  - reflexivity.
  - apply (proj2 initialisers_store_initial_vector [1; 0]).
    rewrite unit_vector_norm_1. lra.
Defined.

End ConcreteRun.

Lemma tridiagonal_step_performs_witness :
  _normalise [3; 4]%float = ([3 / 5; 4 / 5]%float, 5%float)
  /\ i (_lanczos_full_reortho_apply
          (mk_LanczosState 0%Z [[0; 0]; [0; 0]]%float
             ([0; 0]%float, [0]%float) [3; 4]%float)
          (fun v => v))
     = 1%Z
  /\ snd (tridiag (_lanczos_full_reortho_apply
                     (mk_LanczosState 0%Z [[0; 0]; [0; 0]]%float
                        ([0; 0]%float, [0]%float) [3; 4]%float)
                     (fun v => v)))
     = [5%float]
  /\ Z.of_nat (length (basis (lanczos_steps (fun v => v) 3
                                (mk_LanczosState 0%Z (zeros2 2 2)
                                   (zeros 2, zeros 1) [3; 4]%float))))
     = 2%Z.
Proof.
  destruct (tridiagonal_step_performs 0%Z [[0; 0]; [0; 0]]%float [0; 0]%float
              [0]%float [3; 4]%float (fun v => v)) as [Hstep Hrun].
  cbv zeta in Hstep.
  destruct Hstep as (Hnorm & _ & _ & _ & _ & _ & _ & Happly).
  split; [exact Hnorm|].
  split; [rewrite Happly; reflexivity|].
  split; [rewrite Happly; reflexivity|].
  exact (Hrun 1%Z [3; 4]%float _ 3%nat eq_refl).
Defined.

Lemma tridiagonal_step_frame_witness :
  i (_lanczos_full_reortho_apply
       (mk_LanczosState 0%Z (zeros2 3 3) (zeros 3, zeros 2) [3; 0; 4]%float)
       (fun v => v))
  = 1%Z
  /\ nth_error
       (snd (tridiag (lanczos_steps (fun v => v) 1
                        (mk_LanczosState 0%Z (zeros2 3 3) (zeros 3, zeros 2)
                           [3; 0; 4]%float))))
       1
     = Some (vector_norm [3; 0; 4]%float).
Proof.
  split.
  - refine (proj1 (proj1 (tridiagonal_step_frame 2%Z (fun v => v))
                     0%Z (zeros2 3 3) (zeros 3) (zeros 2) [3; 0; 4]%float
                     _ _ _ _ _)); (lia || reflexivity).
  - refine (proj1 (proj2 (tridiagonal_step_frame 2%Z (fun v => v))
                     [3; 0; 4]%float _ eq_refl) 1%nat _ _); lia.
Defined.

Lemma invalid_depth_is_signalled_witness :
  GKL.gkl_full_reortho (F := R) 5 (3, 4)%Z
  = Raise (ValueError (Some
      (("Depth " ++ str 5 ++ " exceeds the matrix' dimensions. ")
       ++ ("Expected: 0 <= depth <= min(nrows, ncols) - 1 = "
           ++ str (Z.min 3 4 - 1) ++ " ")
       ++ ("for a matrix with shape (" ++ str 3 ++ ", " ++ str 4
           ++ ")."))%string))
  /\ exists e,
       init (lanczos_full_reortho 5) [1; 2; 3]%R = Raise e
       /\ decompose_fori_loop 0 6 [1; 2; 3]%R (fun v => v) (lanczos_full_reortho 5)
          = ([Init_called], Raise e).
Proof.
  split.
  - apply (proj1 (invalid_depth_is_signalled (F := R) 5) 3%Z 4%Z). lia.
  - apply (proj2 (invalid_depth_is_signalled (F := R) 5) 0%Z 6%Z [1; 2; 3]%R).
    simpl. lia.
Defined.

Lemma gkl_extraction_drops_zero_beta_witness :
  nth_error
    (GKL.betas (gkl_steps (fun v => v) (fun v => v) 3
                  (GKL._gkl_full_reortho_init 1 (2, 2)%Z [3; 4]%float))) 0
  = Some 0%float.
Proof.
  refine (proj2 (gkl_extraction_drops_zero_beta 1 2 2 [3; 4]%float
                   (fun v => v) (fun v => v) _) 3%nat).
  lia.
Defined.

Lemma gram_schmidt_projection_fold_witness :
  nth_error (snd (_gram_schmidt_orthogonalise_set [3; 4]%float
                    [[1; 0]; [0; 1]]%float)) 1
  = Some (vecdot (fst (_gram_schmidt_orthogonalise_set [3; 4]%float
                         (firstn 1 [[1; 0]; [0; 1]]%float)))
            [0; 1]%float).
Proof.
  refine (proj2 (proj2 (proj2 (proj2
            (gram_schmidt_projection_fold [3; 4]%float [] [[1; 0]; [0; 1]]%float))))
            1%nat [0; 1]%float _).
  reflexivity.
Defined.


(** * Further properties of the decompositions *)

(** ** Shapes along a run, for any scalar arithmetic *)

Section Shapes.

Context {F : Type} `{Scalar F}.

Implicit Types (u v w vec : list F) (c : F) (B bs us vs : list (list F))
  (n m : nat) (idx : Z).

Lemma length_vscale c v : length (vscale c v) = length v.
Proof. apply length_map. Qed.

Lemma length_vdiv v c : length (vdiv v c) = length v.
Proof. apply length_map. Qed.

Lemma length_vsub u v : length u = length v -> length (vsub u v) = length u.
Proof.
  revert v; induction u as [|x u IH]; intros [|y v] Hlen; simpl in *;
    try discriminate; auto.
Qed.

Lemma length_gram_schmidt_residual n v B :
  length v = n -> Forall (fun r => length r = n) B ->
  length (fst (_gram_schmidt_orthogonalise_set v B)) = n.
Proof.
  intros Hv HB. revert v Hv. induction HB as [|r B Hr _ IH]; intros v Hv.
  - exact Hv.
  - rewrite gram_schmidt_set_cons. cbn [fst]. apply IH.
    rewrite length_vsub; rewrite ?length_vscale; congruence.
Qed.

Lemma Forall_list_update {A : Type} (P : A -> Prop) (l : list A) k x :
  Forall P l -> P x -> Forall P (list_update l k x).
Proof.
  intros Hl Hx. revert k. induction Hl as [|y l Hy Hl IH]; intros [|k]; simpl;
    constructor; auto.
Qed.

Lemma Forall_at_set {A : Type} (P : A -> Prop) (l : list A) idx x :
  Forall P l -> P x -> Forall P (at_set l idx x).
Proof.
  intros Hl Hx. unfold at_set. destruct (_ && _); auto using Forall_list_update.
Qed.

(** Reading any index of a non-empty array returns one of its entries. *)
Lemma getitem_Forall {A : Type} (P : A -> Prop) d (l : list A) idx :
  l <> [] -> Forall P l -> P (getitem d l idx).
Proof.
  intros Hne Hl. unfold getitem. rewrite Forall_forall in Hl.
  apply Hl, nth_In.
  assert (0 < length l)%nat by (destruct l; [congruence | simpl; lia]).
  lia.
Qed.

Lemma lanczos_apply_row_lengths n idx bs (dg od : list F) vec Av :
  bs <> [] ->
  Forall (fun r => length r = n) bs ->
  length vec = n ->
  (forall v, length v = n -> length (Av v) = n) ->
  Forall (fun r => length r = n)
    (basis (_lanczos_full_reortho_apply (mk_LanczosState idx bs (dg, od) vec) Av))
  /\ length (q (_lanczos_full_reortho_apply (mk_LanczosState idx bs (dg, od) vec) Av))
     = n.
Proof.
  intros Hne Hbs Hvec HAv.
  rewrite lanczos_apply_unfold. cbv zeta. cbn [basis q].
  set (qi := vdiv (fst (_gram_schmidt_orthogonalise_set
                          (vdiv vec (vector_norm vec)) bs)) _).
  assert (Hqi : length qi = n).
  { unfold qi. rewrite length_vdiv.
    apply length_gram_schmidt_residual; [|exact Hbs].
    now rewrite length_vdiv. }
  assert (Hbs' : Forall (fun r => length r = n) (at_set bs idx qi))
    by now apply Forall_at_set.
  assert (Hne' : at_set bs idx qi <> []).
  { intros Hnil. apply (f_equal (@length _)) in Hnil.
    rewrite at_set_length in Hnil. destruct bs; [congruence|discriminate]. }
  split; [exact Hbs'|].
  pose proof (getitem_Forall _ [] _ idx Hne' Hbs') as Hrow.
  pose proof (getitem_Forall _ [] _ (idx - 1)%Z Hne' Hbs') as Hprev.
  cbv beta in Hrow, Hprev.
  assert (Hw1 : length (vsub (Av qi)
                   (vscale (vecdot (Av qi) (getitem [] (at_set bs idx qi) idx))
                      (getitem [] (at_set bs idx qi) idx))) = n).
  { rewrite length_vsub; rewrite ?length_vscale, ?HAv; congruence. }
  rewrite length_vsub; rewrite ?length_vscale; congruence.
Qed.

(** The basis has [depth + 1] rows of the dimension of the initial vector,
    and the coefficient arrays have [depth + 1] and [depth] entries, after any
    number of steps, when the operator keeps the dimension. *)
Theorem lanczos_run_keeps_shapes depth (v0 : list F) s0 Av k :
  _lanczos_full_reortho_init depth v0 = Ok s0 ->
  (forall v, length v = length v0 -> length (Av v) = length v0) ->
  let '(Q, (d, e)) := _lanczos_full_reortho_extract (lanczos_steps Av k s0) in
  has_shape (Z.to_nat (depth + 1)) (length v0) Q
  /\ length d = Z.to_nat (depth + 1)
  /\ length e = Z.to_nat depth
  /\ length (q (lanczos_steps Av k s0)) = length v0.
Proof.
  intros Hinit HAv.
  pose proof (lanczos_steps_shape _ _ _ Av k Hinit) as Hshape. cbv zeta in Hshape.
  destruct (lanczos_init_inv _ _ _ Hinit) as [Hd Hs0].
  assert (Hrows : Forall (fun r => length r = length v0)
                    (basis (lanczos_steps Av k s0))
                  /\ length (q (lanczos_steps Av k s0)) = length v0).
  { clear Hshape. induction k as [|k IH].
    - subst s0. change (lanczos_steps Av 0 ?s) with s. cbn [basis q].
      split; [|reflexivity].
      unfold zeros2. apply Forall_forall. intros r Hr.
      apply repeat_spec in Hr. subst r. rewrite zeros_length. lia.
    - rewrite lanczos_steps_succ.
      pose proof (lanczos_steps_shape _ _ _ Av k Hinit) as Hk. cbv zeta in Hk.
      destruct (lanczos_steps Av k s0) as [idx bs [dg od] vec].
      cbn [basis q tridiag] in *.
      destruct IH as [Hbs Hvec].
      apply lanczos_apply_row_lengths; auto.
      destruct Hk as (_ & Hlen & _). destruct bs; [simpl in Hlen; lia|discriminate]. }
  destruct (lanczos_steps Av k s0) as [idx bs [dg od] vec].
  cbn [_lanczos_full_reortho_extract basis q tridiag fst snd] in *.
  destruct Hshape as (_ & Hbs & Hdg & Hod). destruct Hrows as [Hrows Hvec].
  repeat split; assumption.
Qed.

End Shapes.

(** ** The bidiagonal step, for any scalar arithmetic *)

Section BidiagonalStep.

Context {F : Type} `{Scalar F}.

Implicit Types (v w vec : list F) (c b : F) (us vs : list (list F))
  (al be : list F) (Av vA : list F -> list F) (n m : nat) (idx depth : Z).

(** The step, written out on the components of the state. *)
Lemma gkl_apply_unfold idx us vs al be b v Av vA :
  let vs' := at_set vs idx v in
  let be' := at_set be idx b in
  let uraw := vsub (Av v) (vscale b (getitem [] us (idx - 1))) in
  let alpha := vector_norm uraw in
  let ures := fst (_gram_schmidt_orthogonalise_set (vdiv uraw alpha) us) in
  let u := vdiv ures (vector_norm ures) in
  let us' := at_set us idx u in
  let al' := at_set al idx alpha in
  let vraw := vsub (vA u) (vscale alpha v) in
  let beta' := vector_norm vraw in
  let vres := fst (_gram_schmidt_orthogonalise_set (vdiv vraw beta') vs') in
  GKL._gkl_full_reortho_apply (GKL.mk_GKLState idx us vs al be b v) Av vA
  = GKL.mk_GKLState (idx + 1) us' vs' al' be' beta'
      (vdiv vres (vector_norm vres)).
Proof.
  cbv zeta. unfold GKL._gkl_full_reortho_apply, _normalise.
  destruct (_gram_schmidt_orthogonalise_set _ us) as [ures cs].
  cbn [fst].
  destruct (_gram_schmidt_orthogonalise_set _ (at_set vs idx v)) as [vres cs'].
  reflexivity.
Qed.

Lemma gkl_steps_shape depth nrows ncols (v0 : list F) Av vA k :
  (0 <= depth)%Z ->
  let st := gkl_steps Av vA k (GKL._gkl_full_reortho_init depth (nrows, ncols) v0) in
  GKL.i st = Z.of_nat k
  /\ length (GKL.Us st) = Z.to_nat (depth + 1)
  /\ length (GKL.Vs st) = Z.to_nat (depth + 1)
  /\ length (GKL.alphas st) = Z.to_nat (depth + 1)
  /\ length (GKL.betas st) = Z.to_nat (depth + 1).
Proof.
  intros Hd. cbv zeta. induction k as [|k IH].
  - rewrite gkl_init_components. change (gkl_steps Av vA 0 ?s) with s.
    cbn [GKL.i GKL.Us GKL.Vs GKL.alphas GKL.betas].
    now rewrite !zeros2_length, !zeros_length.
  - rewrite gkl_steps_succ.
    destruct (gkl_steps Av vA k _) as [idx us vs al be b v].
    rewrite gkl_apply_unfold. cbv zeta.
    cbn [GKL.i GKL.Us GKL.Vs GKL.alphas GKL.betas] in *.
    rewrite !at_set_length.
    destruct IH as (-> & -> & -> & -> & ->). repeat split; lia.
Qed.

Lemma gkl_apply_row_lengths nr nc idx us vs al be b v Av vA :
  us <> [] -> vs <> [] ->
  Forall (fun r => length r = nr) us ->
  Forall (fun r => length r = nc) vs ->
  length v = nc ->
  (forall x, length x = nc -> length (Av x) = nr) ->
  (forall x, length x = nr -> length (vA x) = nc) ->
  let st' := GKL._gkl_full_reortho_apply (GKL.mk_GKLState idx us vs al be b v) Av vA in
  Forall (fun r => length r = nr) (GKL.Us st')
  /\ Forall (fun r => length r = nc) (GKL.Vs st')
  /\ length (GKL.vk st') = nc.
Proof.
  intros Hune Hvne Hus Hvs Hv HAv HvA.
  rewrite gkl_apply_unfold. cbv zeta. cbn [GKL.Us GKL.Vs GKL.vk].
  pose proof (getitem_Forall _ [] _ (idx - 1)%Z Hune Hus) as Hprev.
  cbv beta in Hprev.
  set (uraw := vsub (Av v) (vscale b (getitem [] us (idx - 1)))).
  assert (Huraw : length uraw = nr)
    by (unfold uraw; rewrite length_vsub; rewrite ?length_vscale, ?HAv; congruence).
  set (u := vdiv (fst (_gram_schmidt_orthogonalise_set (vdiv uraw _) us)) _).
  assert (Hu : length u = nr).
  { unfold u. rewrite length_vdiv.
    apply length_gram_schmidt_residual; [|exact Hus]. now rewrite length_vdiv. }
  assert (Hvs' : Forall (fun r => length r = nc) (at_set vs idx v))
    by now apply Forall_at_set.
  split; [now apply Forall_at_set|]. split; [exact Hvs'|].
  rewrite length_vdiv.
  apply length_gram_schmidt_residual; [|exact Hvs'].
  rewrite length_vdiv, length_vsub; rewrite ?length_vscale, ?HvA; congruence.
Qed.

(** A bidiagonal step with an index inside the arrays stores the working
    vector in row [idx] of [Vs], the trailing scalar in [betas[idx]] and the
    length of [Av(vk) - beta * Us[idx - 1]] in [alphas[idx]], touches no other
    row or entry, keeps the lengths of the four arrays, and advances the index
    by one. *)
Theorem gkl_step_frame m idx us vs al be b v Av vA :
  (0 <= idx < Z.of_nat m)%Z ->
  length us = m -> length vs = m -> length al = m -> length be = m ->
  let st' := GKL._gkl_full_reortho_apply (GKL.mk_GKLState idx us vs al be b v) Av vA in
  GKL.i st' = (idx + 1)%Z
  /\ nth_error (GKL.Vs st') (Z.to_nat idx) = Some v
  /\ nth_error (GKL.betas st') (Z.to_nat idx) = Some b
  /\ nth_error (GKL.alphas st') (Z.to_nat idx)
     = Some (vector_norm (vsub (Av v) (vscale b (getitem [] us (idx - 1)))))
  /\ (forall j, j <> Z.to_nat idx ->
        nth_error (GKL.Us st') j = nth_error us j
        /\ nth_error (GKL.Vs st') j = nth_error vs j
        /\ nth_error (GKL.alphas st') j = nth_error al j
        /\ nth_error (GKL.betas st') j = nth_error be j)
  /\ length (GKL.Us st') = m /\ length (GKL.Vs st') = m
  /\ length (GKL.alphas st') = m /\ length (GKL.betas st') = m.
Proof.
  intros Hidx Hus Hvs Hal Hbe.
  rewrite gkl_apply_unfold. cbv zeta.
  cbn [GKL.i GKL.Us GKL.Vs GKL.alphas GKL.betas].
  rewrite (at_set_in_range us), (at_set_in_range vs), (at_set_in_range al),
    (at_set_in_range be) by lia.
  split; [reflexivity|].
  split; [apply nth_error_list_update_eq; lia|].
  split; [apply nth_error_list_update_eq; lia|].
  split; [apply nth_error_list_update_eq; lia|].
  split; [intros j Hj; now rewrite !nth_error_list_update_neq by assumption|].
  now rewrite !list_update_length.
Qed.

(** Along a bidiagonal run of a valid depth the index counts the steps, the
    two bases keep [depth + 1] rows of the dimensions [nrows] and [ncols], the
    coefficient arrays keep [depth + 1] entries and the working vector keeps
    the dimension [ncols], when the two operators map between these
    dimensions. *)
Theorem gkl_run_keeps_shapes depth nrows ncols (v0 : list F) Av vA k :
  (0 <= depth <= Z.min nrows ncols - 1)%Z ->
  Z.of_nat (length v0) = ncols ->
  (forall x, Z.of_nat (length x) = ncols -> Z.of_nat (length (Av x)) = nrows) ->
  (forall x, Z.of_nat (length x) = nrows -> Z.of_nat (length (vA x)) = ncols) ->
  let st := gkl_steps Av vA k (GKL._gkl_full_reortho_init depth (nrows, ncols) v0) in
  GKL.i st = Z.of_nat k
  /\ has_shape (Z.to_nat (depth + 1)) (Z.to_nat nrows) (GKL.Us st)
  /\ has_shape (Z.to_nat (depth + 1)) (Z.to_nat ncols) (GKL.Vs st)
  /\ length (GKL.alphas st) = Z.to_nat (depth + 1)
  /\ length (GKL.betas st) = Z.to_nat (depth + 1)
  /\ length (GKL.vk st) = Z.to_nat ncols.
Proof.
  intros Hd Hv0 HAv HvA. cbv zeta.
  pose proof (gkl_steps_shape depth nrows ncols v0 Av vA k ltac:(lia)) as Hshape.
  cbv zeta in Hshape.
  assert (Hrows :
    Forall (fun r => length r = Z.to_nat nrows)
      (GKL.Us (gkl_steps Av vA k (GKL._gkl_full_reortho_init depth (nrows, ncols) v0)))
    /\ Forall (fun r => length r = Z.to_nat ncols)
         (GKL.Vs (gkl_steps Av vA k (GKL._gkl_full_reortho_init depth (nrows, ncols) v0)))
    /\ length (GKL.vk (gkl_steps Av vA k
                         (GKL._gkl_full_reortho_init depth (nrows, ncols) v0)))
       = Z.to_nat ncols).
  { clear Hshape. induction k as [|k IH].
    - rewrite gkl_init_components. change (gkl_steps Av vA 0 ?s) with s.
      cbn [GKL.Us GKL.Vs GKL.vk].
      repeat split.
      + apply Forall_forall. intros r Hr. apply repeat_spec in Hr. subst r.
        apply zeros_length.
      + apply Forall_forall. intros r Hr. apply repeat_spec in Hr. subst r.
        apply zeros_length.
      + rewrite length_vdiv. lia.
    - rewrite gkl_steps_succ.
      pose proof (gkl_steps_shape depth nrows ncols v0 Av vA k ltac:(lia)) as Hk.
      cbv zeta in Hk.
      destruct (gkl_steps Av vA k _) as [idx us vs al be b v].
      cbn [GKL.i GKL.Us GKL.Vs GKL.alphas GKL.betas GKL.vk] in *.
      destruct IH as (Hus & Hvs & Hv). destruct Hk as (_ & Hlu & Hlv & _).
      apply gkl_apply_row_lengths; auto.
      + destruct us; [simpl in Hlu; lia|discriminate].
      + destruct vs; [simpl in Hlv; lia|discriminate].
      + intros x Hx. specialize (HAv x). lia.
      + intros x Hx. specialize (HvA x). lia. }
  destruct (gkl_steps Av vA k _) as [idx us vs al be b v].
  cbn [GKL.i GKL.Us GKL.Vs GKL.alphas GKL.betas GKL.vk] in *.
  destruct Hshape as (Hi & Hlu & Hlv & Hla & Hlb).
  destruct Hrows as (Hus & Hvs & Hv).
  repeat split; assumption.
Qed.

End BidiagonalStep.

(** ** Projection and normalisation in exact arithmetic *)

Section RealProjection.

Local Open Scope R_scope.

Implicit Types (u v w r x : list R) (c : R) (B : list (list R)) (n : nat).

(** Projecting rows out of a vector keeps its dot product with every vector
    orthogonal to these rows. *)
Lemma gram_schmidt_set_keeps_dot B : forall v x,
  (forall r, In r B -> length r = length v /\ vecdot r x = 0) ->
  vecdot (fst (_gram_schmidt_orthogonalise_set v B)) x = vecdot v x.
Proof.
  induction B as [|r0 B IH]; intros v x HB; [reflexivity|].
  rewrite gram_schmidt_set_cons. cbn [fst].
  destruct (HB r0 (or_introl eq_refl)) as [Hlen0 Hdot0].
  assert (Hlen1 : length (vsub v (vscale (vecdot v r0) r0)) = length v)
    by (rewrite vsub_length; rewrite ?vscale_length; congruence).
  rewrite IH.
  - rewrite vecdot_vsub_l, vecdot_vscale_l, Hdot0
      by (rewrite vscale_length; congruence).
    lra.
  - intros r Hr. destruct (HB r (or_intror Hr)) as [Hlen Hdot].
    split; congruence.
Qed.

Lemma orthonormal_rows_cons r0 B :
  orthonormal_rows (r0 :: B) ->
  vecdot r0 r0 = 1
  /\ (forall r, In r B -> vecdot r r0 = 0 /\ vecdot r0 r = 0)
  /\ orthonormal_rows B.
Proof.
  intros Hon. split; [|split].
  - apply (Hon 0%nat 0%nat); simpl; lia.
  - intros r Hr. destruct (In_nth _ _ [] Hr) as (a & Ha & <-). split.
    + apply (Hon (S a) 0%nat); simpl; lia.
    + apply (Hon 0%nat (S a)); simpl; lia.
  - intros a b Ha Hb. apply (Hon (S a) (S b)); simpl; lia.
Qed.

Lemma gram_schmidt_set_orthonormal n B : forall v,
  length v = n -> Forall (fun r => length r = n) B -> orthonormal_rows B ->
  (forall r, In r B -> vecdot (fst (_gram_schmidt_orthogonalise_set v B)) r = 0)
  /\ snd (_gram_schmidt_orthogonalise_set v B) = map (vecdot v) B
  /\ vecdot v v
     = vecdot (fst (_gram_schmidt_orthogonalise_set v B))
         (fst (_gram_schmidt_orthogonalise_set v B))
       + vecdot (snd (_gram_schmidt_orthogonalise_set v B))
           (snd (_gram_schmidt_orthogonalise_set v B)).
Proof.
  induction B as [|r0 B IH]; intros v Hv HB Hon.
  - cbn. repeat split; [intros r []|lra].
  - inversion HB as [|? ? Hr0 HB']; subst.
    destruct (orthonormal_rows_cons _ _ Hon) as (Hunit & Hcross & Hon').
    rewrite Forall_forall in HB'.
    set (c := vecdot v r0).
    assert (Hv1 : length (vsub v (vscale c r0)) = length v)
      by (rewrite vsub_length; rewrite ?vscale_length; congruence).
    assert (Hdot1 : forall x, vecdot (vsub v (vscale c r0)) x
                              = vecdot v x - c * vecdot r0 x).
    { intros x. rewrite vecdot_vsub_l, vecdot_vscale_l
        by (rewrite vscale_length; congruence). reflexivity. }
    destruct (IH (vsub v (vscale c r0)) Hv1
                ltac:(apply Forall_forall; exact HB') Hon')
      as (Horth & Hcoeffs & Hpyth).
    rewrite gram_schmidt_set_cons. fold c. cbn [fst snd].
    split; [|split].
    + intros r [<-|Hr]; [|now apply Horth].
      rewrite gram_schmidt_set_keeps_dot.
      * rewrite Hdot1. unfold c. rewrite Hunit. lra.
      * intros r Hr. split; [rewrite (HB' r Hr); congruence | now apply Hcross].
    + rewrite Hcoeffs. cbn [map]. f_equal. apply map_ext_in.
      intros r Hr. rewrite Hdot1. destruct (Hcross r Hr) as [_ ->]. lra.
    + rewrite vecdot_cons.
      assert (Hv1v1 : vecdot (vsub v (vscale c r0)) (vsub v (vscale c r0))
                      = vecdot v v - c * c).
      { rewrite Hdot1.
        rewrite (vecdot_comm v (vsub v (vscale c r0))), Hdot1.
        rewrite (vecdot_comm r0 (vsub v (vscale c r0))), Hdot1.
        rewrite (vecdot_comm r0 v). fold c. rewrite Hunit. lra. }
      rewrite Hv1v1 in Hpyth. lra.
Qed.

Lemma gram_schmidt_set_of_orthogonal B : forall v,
  Forall (fun row => length row = length v /\ vecdot v row = 0) B ->
  _gram_schmidt_orthogonalise_set v B = (v, repeat 0 (length B)).
Proof.
  induction B as [|r0 B IH]; intros v HB; [reflexivity|].
  inversion HB as [|? ? [Hlen Hdot] HB']; subst.
  rewrite gram_schmidt_set_cons, Hdot, vsub_vscale_zero by congruence.
  now rewrite IH.
Qed.

(** Full reorthogonalisation against orthonormal rows: the residual is
    orthogonal to every row, the coefficients are the dot products of the
    vector with the rows, the squared length of the vector is the squared
    length of the residual plus the squares of the coefficients, and
    projecting the residual once more changes nothing. *)
Theorem gram_schmidt_against_orthonormal_rows n v B :
  length v = n -> Forall (fun r => length r = n) B -> orthonormal_rows B ->
  let '(residual, coeffs) := _gram_schmidt_orthogonalise_set v B in
  (forall a, (a < length B)%nat -> vecdot residual (nth a B []) = 0)
  /\ (forall a, (a < length B)%nat -> nth a coeffs 0 = vecdot v (nth a B []))
  /\ length residual = n
  /\ vecdot v v = vecdot residual residual + vecdot coeffs coeffs
  /\ _gram_schmidt_orthogonalise_set residual B
     = (residual, repeat 0 (length B)).
Proof.
  intros Hv HB Hon.
  destruct (gram_schmidt_set_orthonormal n B v Hv HB Hon) as (Horth & Hcoeffs & Hpyth).
  pose proof (length_gram_schmidt_residual n v B Hv HB) as Hlen.
  destruct (_gram_schmidt_orthogonalise_set v B) as [residual coeffs].
  cbn [fst snd] in *.
  split; [intros a Ha; apply Horth, nth_In, Ha|].
  split.
  { intros a Ha. subst coeffs.
    rewrite nth_indep with (d' := vecdot v []) by now rewrite length_map.
    apply map_nth. }
  split; [exact Hlen|]. split; [exact Hpyth|].
  apply gram_schmidt_set_of_orthogonal, Forall_forall.
  intros r Hr. rewrite Forall_forall in HB. split.
  - rewrite (HB r Hr). congruence.
  - now apply Horth.
Qed.

(** Normalising a vector of non-zero norm: scaling the unit vector by the
    length gives the vector back, the unit vector has norm one, the length
    is positive, and normalising again returns the unit vector and one. *)
Theorem normalise_round_trip v :
  vector_norm v <> 0 ->
  let '(unit, len) := _normalise v in
  vscale len unit = v
  /\ vector_norm unit = 1
  /\ 0 < len
  /\ _normalise unit = (unit, 1).
Proof.
  intros Hn. unfold _normalise. cbv zeta.
  pose proof (vector_norm_nonneg v) as Hpos.
  pose proof (normalise_unit v Hn) as Hunit.
  split; [|split; [|split]].
  - unfold vscale, vdiv. rewrite map_map.
    rewrite <- (map_id v) at 2. apply map_ext. intros x.
    change (vector_norm v * (x / vector_norm v) = x). now field.
  - now apply vector_norm_of_unit.
  - lra.
  - rewrite (vector_norm_of_unit _ Hunit). now rewrite vdiv_one.
Qed.

(** The off-diagonal coefficients of a tridiagonal run are lengths: none is
    negative, whatever the operator and the number of steps. *)
Theorem lanczos_offdiag_nonneg depth (v0 : list R) s0 Av k :
  _lanczos_full_reortho_init depth v0 = Ok s0 ->
  Forall (fun c => 0 <= c) (snd (tridiag (lanczos_steps Av k s0))).
Proof.
  intros Hinit. destruct (lanczos_init_inv _ _ _ Hinit) as [_ ->].
  induction k as [|k IH].
  - change (lanczos_steps Av 0 ?s) with s. cbn [tridiag snd]. unfold zeros.
    apply Forall_forall. intros x Hx. apply repeat_spec in Hx. subst x.
    change (0 <= 0). lra.
  - rewrite lanczos_steps_succ.
    destruct (lanczos_steps Av k _) as [idx bs [dg od] vec].
    rewrite lanczos_apply_unfold. cbv zeta. cbn [tridiag snd] in *.
    apply Forall_at_set; [exact IH | apply vector_norm_nonneg].
Qed.

(** The coefficients of a bidiagonal run are lengths: no entry of [alphas] or
    [betas] and no trailing scalar is negative. *)
Theorem gkl_coefficients_nonneg depth nrows ncols (v0 : list R) Av vA k :
  let st := gkl_steps Av vA k (GKL._gkl_full_reortho_init depth (nrows, ncols) v0) in
  Forall (fun c => 0 <= c) (GKL.alphas st)
  /\ Forall (fun c => 0 <= c) (GKL.betas st)
  /\ 0 <= GKL.beta st.
Proof.
  cbv zeta. induction k as [|k IH].
  - rewrite gkl_init_components.
    change (gkl_steps Av vA 0 ?s) with s.
    cbn [GKL.alphas GKL.betas GKL.beta]. unfold zeros.
    repeat split; try (change (0 <= 0); lra);
      apply Forall_forall; intros x Hx; apply repeat_spec in Hx; subst x;
      change (0 <= 0); lra.
  - rewrite gkl_steps_succ.
    destruct (gkl_steps Av vA k _) as [idx us vs al be b v].
    rewrite gkl_apply_unfold. cbv zeta.
    cbn [GKL.alphas GKL.betas GKL.beta] in *.
    destruct IH as (Hal & Hbe & Hb).
    repeat split.
    + apply Forall_at_set; [exact Hal | apply vector_norm_nonneg].
    + now apply Forall_at_set.
    + apply vector_norm_nonneg.
Qed.

End RealProjection.

(** ** The dense banded matrices *)

Section DenseBanded.

Local Open Scope R_scope.

Implicit Types (M : list (list R)) (d e : list R) (a b n m : nat).

Lemma entry_out_of_range m n M a b :
  has_shape m n M -> (m <= a \/ n <= b)%nat -> entry M a b = 0.
Proof.
  intros HM Hab. rewrite entry_unfold.
  destruct (Nat.lt_ge_cases a m) as [Ha|Ha].
  - apply nth_overflow. rewrite (has_shape_row _ _ _ _ HM Ha). lia.
  - rewrite (nth_overflow M) by (rewrite (has_shape_rows _ _ _ HM); lia).
    now destruct b.
Qed.

Lemma bidiagonal_dense_shape n d e :
  length d = n -> length e = (n - 1)%nat -> (0 < n)%nat ->
  has_shape n n (_bidiagonal_dense d e).
Proof.
  intros Hd He Hn. unfold _bidiagonal_dense.
  pose proof (diagonal_matrix_shape d 0) as H0.
  pose proof (diagonal_matrix_shape e 1) as H1.
  replace (length d + Z.abs_nat 0)%nat with n in H0 by (simpl; lia).
  replace (length e + Z.abs_nat 1)%nat with n in H1 by (simpl; lia).
  now apply madd_shape.
Qed.

Lemma bidiagonal_dense_entry n d e a b :
  length d = n -> length e = (n - 1)%nat -> (a < n)%nat -> (b < n)%nat ->
  entry (_bidiagonal_dense d e) a b
  = if Nat.eqb a b then nth a d 0
    else if Nat.eqb b (S a) then nth a e 0
    else 0.
Proof.
  intros Hd He Ha Hb. unfold _bidiagonal_dense.
  pose proof (diagonal_matrix_shape d 0) as H0.
  pose proof (diagonal_matrix_shape e 1) as H1.
  replace (length d + Z.abs_nat 0)%nat with n in H0 by (simpl; lia).
  replace (length e + Z.abs_nat 1)%nat with n in H1 by (simpl; lia).
  rewrite (madd_entry _ _ _ _ _ _ H0 H1).
  rewrite !diagonal_matrix_entry by (simpl; lia).
  destruct (Nat.eqb_spec a b) as [->|Hab].
  - rewrite Z.sub_diag, Nat.min_id. simpl. lra.
  - destruct (Z.eqb_spec (Z.of_nat b - Z.of_nat a) 0); [lia|].
    destruct (Nat.eqb_spec b (S a)) as [->|Hba].
    + destruct (Z.eqb_spec (Z.of_nat (S a) - Z.of_nat a) 1); [|lia].
      rewrite Nat.min_l by lia. lra.
    + destruct (Z.eqb_spec (Z.of_nat b - Z.of_nat a) 1); [lia|]. lra.
Qed.

(** The dense tridiagonal matrix of a diagonal [d] of [n] entries and an
    off-diagonal [e] of [n - 1] entries is an [n]-by-[n] symmetric matrix, equal
    to its transpose, with [d] on the diagonal, [e] on both neighbouring
    diagonals and zero elsewhere. *)
Theorem sym_tridiagonal_dense_is_symmetric n d e :
  length d = n -> length e = (n - 1)%nat -> (0 < n)%nat ->
  let T := _sym_tridiagonal_dense d e in
  has_shape n n T
  /\ symmetric T
  /\ transpose T = T
  /\ (forall a, (a < n)%nat -> entry T a a = nth a d 0)
  /\ (forall a, (S a < n)%nat ->
        entry T a (S a) = nth a e 0 /\ entry T (S a) a = nth a e 0)
  /\ (forall a b, (a < n)%nat -> (b < n)%nat ->
        (S a < b \/ S b < a)%nat -> entry T a b = 0).
Proof.
  intros Hd He Hn. cbv zeta.
  pose proof (sym_tridiagonal_dense_shape n d e Hd He Hn) as HT.
  assert (Hsym : forall a b, (a < n)%nat -> (b < n)%nat ->
            entry (_sym_tridiagonal_dense d e) a b
            = entry (_sym_tridiagonal_dense d e) b a).
  { intros a b Ha Hb.
    rewrite !(sym_tridiagonal_dense_entry n) by assumption.
    destruct (Nat.eqb_spec a b) as [->|Hab]; [now rewrite Nat.eqb_refl|].
    destruct (Nat.eqb_spec b a); [lia|].
    destruct (Nat.eqb_spec b (S a)) as [->|Hba].
    - destruct (Nat.eqb_spec a (S (S a))); [lia|]. reflexivity.
    - destruct (Nat.eqb_spec a (S b)) as [->|Hab']; reflexivity. }
  split; [exact HT|]. split; [|split; [|split; [|split]]].
  - intros a b.
    destruct (Nat.lt_ge_cases a n) as [Ha|Ha], (Nat.lt_ge_cases b n) as [Hb|Hb];
      [now apply Hsym | | |];
      rewrite !(entry_out_of_range n n) by (assumption || lia); reflexivity.
  - apply matrix_ext with (m := n) (n := n);
      [now apply transpose_shape | exact HT |].
    intros a b Ha Hb. rewrite (transpose_entry _ _ _ _ _ HT Hb Ha).
    now apply Hsym.
  - intros a Ha. rewrite (sym_tridiagonal_dense_entry n) by assumption.
    now rewrite Nat.eqb_refl.
  - intros a Ha. rewrite !(sym_tridiagonal_dense_entry n) by (assumption || lia).
    destruct (Nat.eqb_spec a (S a)); [lia|].
    destruct (Nat.eqb_spec (S a) a); [lia|].
    rewrite Nat.eqb_refl.
    destruct (Nat.eqb_spec a (S (S a))); [lia|]. split; reflexivity.
  - intros a b Ha Hb Hab. rewrite (sym_tridiagonal_dense_entry n) by assumption.
    destruct (Nat.eqb_spec a b); [lia|].
    destruct (Nat.eqb_spec b (S a)); [lia|].
    destruct (Nat.eqb_spec a (S b)); [lia|]. reflexivity.
Qed.

(** The dense bidiagonal matrix of a diagonal [d] of [n] entries and an
    off-diagonal [e] of [n - 1] entries is an [n]-by-[n] upper bidiagonal
    matrix: [d] on the diagonal, [e] on the diagonal above it, and zero
    elsewhere, in particular below the diagonal. *)
Theorem bidiagonal_dense_is_upper_bidiagonal n d e :
  length d = n -> length e = (n - 1)%nat -> (0 < n)%nat ->
  let B := _bidiagonal_dense d e in
  has_shape n n B
  /\ (forall a, (a < n)%nat -> entry B a a = nth a d 0)
  /\ (forall a, (S a < n)%nat -> entry B a (S a) = nth a e 0)
  /\ (forall a b, (a < n)%nat -> (b < n)%nat ->
        (b < a \/ S a < b)%nat -> entry B a b = 0).
Proof.
  intros Hd He Hn. cbv zeta.
  split; [now apply bidiagonal_dense_shape|]. split; [|split].
  - intros a Ha. rewrite (bidiagonal_dense_entry n) by assumption.
    now rewrite Nat.eqb_refl.
  - intros a Ha. rewrite (bidiagonal_dense_entry n) by (assumption || lia).
    destruct (Nat.eqb_spec a (S a)); [lia|]. now rewrite Nat.eqb_refl.
  - intros a b Ha Hb Hab. rewrite (bidiagonal_dense_entry n) by assumption.
    destruct (Nat.eqb_spec a b); [lia|].
    destruct (Nat.eqb_spec b (S a)); [lia|]. reflexivity.
Qed.

End DenseBanded.

(** ** The tridiagonal algorithm at any depth, in exact arithmetic *)

Section LanczosAnyDepth.

Local Open Scope R_scope.

Variables (A : list (list R)) (m n : nat).

Hypothesis HA : has_shape n n A.
Hypothesis Hsym : symmetric A.
Hypothesis Hm : (2 <= m)%nat.

Implicit Types (bs : list (list R)) (dg od vec u v w r p : list R) (k j : nat).

(** The step on a state that satisfies the invariant: reorthogonalisation and
    re-normalisation leave the normalised working vector as it is. *)
Lemma lanczos_partial_step_explicit k bs dg od vec :
  lanczos_partial_invariant A m n k (mk_LanczosState (Z.of_nat k) bs (dg, od) vec) ->
  (k < m)%nat -> vector_norm vec <> 0 ->
  let len := vector_norm vec in
  let u := vdiv vec len in
  let p := if Nat.eqb k 0 then repeat 0 n else nth (k - 1) bs [] in
  let w := matvec A u in
  let c_i := vecdot w u in
  let w1 := vsub w (vscale c_i u) in
  let c_p := vecdot w1 p in
  _lanczos_full_reortho_apply (mk_LanczosState (Z.of_nat k) bs (dg, od) vec) (matvec A)
  = mk_LanczosState (Z.of_nat (S k)) (list_update bs k u)
      (list_update dg k c_i,
       list_update od (if Nat.eqb k 0 then m - 2 else k - 1) len)
      (vsub w1 (vscale c_p p)).
Proof.
  intros [_ Hbs Hdg Hod Hvec Hpad _ Hvo _ _ _ _] Hk Hlen.
  cbn [i basis tridiag q fst snd] in *.
  pose proof (has_shape_rows _ _ _ Hbs) as Hrows.
  cbv zeta. rewrite lanczos_apply_unfold. cbv zeta.
  assert (Hgs : fst (_gram_schmidt_orthogonalise_set (vdiv vec (vector_norm vec)) bs)
                = vdiv vec (vector_norm vec)).
  { apply gram_schmidt_set_orthogonal, Forall_forall. intros r Hr.
    destruct (In_nth _ _ [] Hr) as (j & Hj & <-). rewrite Hrows in Hj.
    split.
    - now rewrite (has_shape_row _ _ _ _ Hbs Hj), vdiv_length.
    - rewrite vecdot_vdiv_l. destruct (Nat.lt_ge_cases j k) as [Hjk|Hjk].
      + rewrite Hvo by assumption. unfold Rdiv. lra.
      + rewrite Hpad, vecdot_repeat_zero_r by lia. unfold Rdiv. lra. }
  rewrite Hgs.
  rewrite (vector_norm_of_unit _ (normalise_unit _ Hlen)), vdiv_one.
  set (u := vdiv vec (vector_norm vec)).
  rewrite (at_set_in_range bs) by lia.
  rewrite (at_set_in_range dg) by lia.
  rewrite Nat2Z.id.
  rewrite (getitem_in_range [] (list_update bs k u) (Z.of_nat k))
    by (rewrite list_update_length; lia).
  rewrite Nat2Z.id, nth_list_update_eq by lia.
  replace (Z.of_nat k + 1)%Z with (Z.of_nat (S k)) by lia.
  destruct k as [|k'].
  - cbn [Nat.eqb Z.of_nat]. change (0 - 1)%Z with (-1)%Z.
    rewrite getitem_minus_one by (destruct bs; [simpl in Hrows; lia|discriminate]).
    rewrite list_update_length, Hrows.
    rewrite nth_list_update_neq by lia.
    rewrite Hpad by lia.
    rewrite at_set_minus_one by (destruct od; [simpl in Hod; lia|discriminate]).
    rewrite Hod. replace (m - 1 - 1)%nat with (m - 2)%nat by lia.
    reflexivity.
  - cbn [Nat.eqb].
    rewrite (getitem_in_range [] _ (Z.of_nat (S k') - 1))
      by (rewrite list_update_length; lia).
    rewrite (at_set_in_range od) by lia.
    replace (Z.to_nat (Z.of_nat (S k') - 1)) with (S k' - 1)%nat by lia.
    rewrite nth_list_update_neq by lia.
    reflexivity.
Qed.

(** A step on a non-zero working vector preserves the invariant. *)
Lemma lanczos_partial_step_preserves k st :
  lanczos_partial_invariant A m n k st -> (k < m)%nat -> vector_norm (q st) <> 0 ->
  lanczos_partial_invariant A m n (S k) (_lanczos_full_reortho_apply st (matvec A)).
Proof.
  intros Hinv Hk Hlen.
  destruct st as [idx bs [dg od] vec].
  pose proof (pinv_index _ _ _ _ _ Hinv) as Hidx. cbn [i] in Hidx. subst idx.
  cbn [q] in Hlen.
  rewrite (lanczos_partial_step_explicit k bs dg od vec Hinv Hk Hlen).
  destruct Hinv as [_ Hbs Hdg Hod Hvec Hpad Hon Hvo Hd He Hrec Hpend].
  cbn [i basis tridiag q fst snd] in *.
  pose proof (has_shape_rows _ _ _ Hbs) as Hrows.
  set (len := vector_norm vec) in *.
  set (u := vdiv vec len).
  set (p := if Nat.eqb k 0 then repeat 0 n else nth (k - 1) bs []).
  set (w := matvec A u).
  set (c_i := vecdot w u).
  set (w1 := vsub w (vscale c_i u)).
  set (c_p := vecdot w1 p).
  assert (Hrow_len : forall j, (j < m)%nat -> length (nth j bs []) = n)
    by (intros; now apply (has_shape_row _ _ _ _ Hbs)).
  assert (Hu_len : length u = n) by (unfold u; now rewrite vdiv_length).
  assert (Huu : vecdot u u = 1) by now apply normalise_unit.
  assert (Hu_row : forall j, (j < k)%nat -> vecdot u (nth j bs []) = 0).
  { intros j Hj. unfold u. rewrite vecdot_vdiv_l, Hvo by assumption.
    unfold Rdiv; lra. }
  assert (Hvec_u : forall x, vecdot x vec = len * vecdot x u).
  { intros x. unfold u. rewrite vecdot_vdiv_r. field. exact Hlen. }
  assert (Hp_len : length p = n).
  { unfold p. destruct (Nat.eqb_spec k 0); [apply repeat_length | apply Hrow_len; lia]. }
  assert (Hp_orth : forall x, ((1 <= k)%nat -> vecdot x (nth (k - 1) bs []) = 0) ->
                              vecdot x p = 0).
  { intros x Hx. unfold p.
    destruct (Nat.eqb_spec k 0); [apply vecdot_repeat_zero_r | apply Hx; lia]. }
  assert (Hup : vecdot u p = 0) by (apply Hp_orth; intros; apply Hu_row; lia).
  assert (Hw_len : length w = n)
    by (unfold w; rewrite matvec_length; now destruct HA).
  assert (Hrow' : forall j, nth j (list_update bs k u) []
                            = if Nat.eqb j k then u else nth j bs []).
  { intros j. destruct (Nat.eqb_spec j k) as [->|Hne];
      [apply nth_list_update_eq; lia | now apply nth_list_update_neq]. }
  assert (Hw2_l : forall r, vecdot (vsub w1 (vscale c_p p)) r
                            = vecdot w r - c_i * vecdot u r - c_p * vecdot p r)
    by (intros r; unfold w1; apply vecdot_two_projections_l; congruence).
  assert (Hw2_r : forall r, vecdot r (vsub w1 (vscale c_p p))
                            = vecdot r w - c_i * vecdot r u - c_p * vecdot r p)
    by (intros r; unfold w1; apply vecdot_two_projections_r; congruence).
  assert (Hcp : c_p = vecdot w p - c_i * vecdot u p).
  { unfold c_p, w1.
    rewrite vecdot_vsub_l, vecdot_vscale_l by (rewrite vscale_length; congruence).
    reflexivity. }
  constructor; cbn [i basis tridiag q fst snd].
  - reflexivity.
  - apply has_shape_intro; [now rewrite list_update_length|].
    intros a Ha. rewrite Hrow'. destruct (Nat.eqb a k); auto.
  - now rewrite list_update_length.
  - now rewrite list_update_length.
  - assert (Hw1_len : length w1 = n)
      by (unfold w1; rewrite vsub_length; rewrite ?vscale_length; lia).
    rewrite vsub_length; rewrite ?vscale_length; lia.
  - intros j Hj. rewrite Hrow'. destruct (Nat.eqb_spec j k); [lia|].
    apply Hpad; lia.
  - intros a b Ha Hb. rewrite !Hrow'.
    destruct (Nat.eqb_spec a k) as [->|Hak], (Nat.eqb_spec b k) as [->|Hbk].
    + now rewrite Nat.eqb_refl.
    + destruct (Nat.eqb_spec k b); [lia|]. apply Hu_row; lia.
    + destruct (Nat.eqb_spec a k); [lia|]. rewrite vecdot_comm. apply Hu_row; lia.
    + apply Hon; lia.
  - intros j Hj. rewrite Hw2_l, Hrow'.
    destruct (Nat.eqb_spec j k) as [->|Hjk].
    + fold c_i. rewrite Huu, (vecdot_comm p u), Hup. lra.
    + assert (Hur : vecdot u (nth j bs []) = 0) by (apply Hu_row; lia).
      rewrite Hur.
      destruct (Nat.eq_dec (S j) k) as [HSj|HSj].
      * assert (Hpj : p = nth j bs [])
          by (unfold p; destruct (Nat.eqb_spec k 0); [lia|]; f_equal; lia).
        rewrite <- Hpj, Hcp, Hup.
        assert (Hpp : vecdot p p = 1)
          by (rewrite Hpj, Hon by lia; now rewrite Nat.eqb_refl).
        rewrite Hpp. lra.
      * assert (Hwr : vecdot w (nth j bs []) = 0).
        { unfold w.
          rewrite (matvec_symmetric n) by (auto; apply Hrow_len; lia).
          apply Hrec; try lia; auto.
          - apply Hu_row; lia.
          - intros; apply Hu_row; lia. }
        assert (Hpr : vecdot p (nth j bs []) = 0).
        { unfold p. destruct (Nat.eqb_spec k 0); [apply vecdot_repeat_zero_l|].
          rewrite Hon by lia. destruct (Nat.eqb_spec (k - 1) j); [lia|reflexivity]. }
        rewrite Hwr, Hpr. lra.
  - intros j Hj. rewrite !Hrow'. destruct (Nat.eqb_spec j k) as [->|Hjk].
    + rewrite nth_list_update_eq by lia. unfold c_i, w. apply vecdot_comm.
    + rewrite nth_list_update_neq by assumption. apply Hd; lia.
  - intros j Hj. rewrite !Hrow'.
    destruct (Nat.eqb_spec k 0) as [->|Hk0]; [lia|].
    destruct (Nat.eqb_spec (j - 1) k); [lia|].
    destruct (Nat.eqb_spec j k) as [->|Hjk].
    + rewrite nth_list_update_eq by lia.
      rewrite (Hpend u)
        by solve [lia | assumption | apply Hu_row; lia | intros; apply Hu_row; lia].
      rewrite Hvec_u, Huu. lra.
    + rewrite nth_list_update_neq by lia. apply He; lia.
  - intros j x Hj Hx Hx1 Hx2 Hx3. rewrite Hrow' in Hx1, Hx2, Hx3 |- *.
    assert (Ej : Nat.eqb j k = false) by (apply Nat.eqb_neq; lia).
    assert (Ej1 : Nat.eqb (j - 1) k = false) by (apply Nat.eqb_neq; lia).
    rewrite Ej in Hx2 |- *. rewrite Ej1 in Hx3.
    destruct (Nat.eq_dec (S j) k) as [HSj|HSj].
    + rewrite (proj2 (Nat.eqb_eq _ _) HSj) in Hx1.
      assert (Hxv : vecdot x (matvec A (nth (k - 1) bs [])) = vecdot x vec).
      { apply Hpend; [lia | assumption | |].
        - replace (k - 1)%nat with j by lia. exact Hx2.
        - intros Hk2. replace (k - 2)%nat with (j - 1)%nat by lia.
          apply Hx3. lia. }
      replace (k - 1)%nat with j in Hxv by lia.
      rewrite Hxv, Hvec_u, Hx1. lra.
    + rewrite (proj2 (Nat.eqb_neq _ _) HSj) in Hx1.
      apply Hrec; auto; lia.
  - intros x _ Hx Hx1 Hx2. rewrite Hrow' in Hx1, Hx2 |- *.
    replace (S k - 1)%nat with k in Hx1 |- * by lia.
    rewrite Nat.eqb_refl in Hx1 |- *.
    rewrite Hw2_r. fold w. rewrite Hx1.
    assert (Hxp : vecdot x p = 0).
    { apply Hp_orth. intros Hk1. specialize (Hx2 ltac:(lia)).
      replace (S k - 2)%nat with (k - 1)%nat in Hx2 by lia.
      destruct (Nat.eqb_spec (k - 1) k); [lia|]. exact Hx2. }
    rewrite Hxp. lra.
Qed.

(** The initial state satisfies the invariant. *)
Lemma lanczos_partial_invariant_init (v0 : list R) :
  length v0 = n ->
  lanczos_partial_invariant A m n 0
    (mk_LanczosState 0 (zeros2 (Z.of_nat m - 1 + 1) (Z.of_nat (length v0)))
       (zeros (Z.of_nat m - 1 + 1), zeros (Z.of_nat m - 1)) v0).
Proof.
  intros Hv0. rewrite Hv0.
  replace (Z.of_nat m - 1 + 1)%Z with (Z.of_nat m) by lia.
  assert (Hrow : forall j, (j < m)%nat ->
            nth j (zeros2 (F := R) (Z.of_nat m) (Z.of_nat n)) [] = repeat 0 n).
  { intros j Hj. unfold zeros2. rewrite zeros_repeat, Nat2Z.id.
    rewrite nth_indep with (d' := repeat 0 n) by (rewrite repeat_length; lia).
    apply nth_repeat. }
  constructor; cbn [i basis tridiag q fst snd]; try solve [intros; lia].
  - apply has_shape_intro; [rewrite zeros2_length; lia|].
    intros a Ha. rewrite Hrow by assumption. apply repeat_length.
  - rewrite zeros_length. lia.
  - rewrite zeros_length. lia.
  - intros j Hj. apply Hrow. lia.
Qed.

(** The invariant holds along a run that never normalises a zero vector. *)
Lemma lanczos_partial_invariant_steps (v0 : list R) s0 k :
  length v0 = n ->
  _lanczos_full_reortho_init (Z.of_nat m - 1) v0 = Ok s0 ->
  (k <= m)%nat ->
  (forall j, (j < k)%nat -> vector_norm (q (lanczos_steps (matvec A) j s0)) <> 0) ->
  lanczos_partial_invariant A m n k (lanczos_steps (matvec A) k s0).
Proof.
  intros Hv0 Hinit Hk Hnz.
  destruct (lanczos_init_inv _ _ _ Hinit) as [_ ->].
  induction k as [|k IH].
  - now apply lanczos_partial_invariant_init.
  - rewrite lanczos_steps_succ. apply lanczos_partial_step_preserves; [|lia|].
    + apply IH; [lia|]. intros j Hj. apply Hnz. lia.
    + apply Hnz. lia.
Qed.

(** With the invariant, the dense tridiagonal matrix built from the
    coefficients has the entries of [A] in the basis. *)
Lemma lanczos_partial_invariant_tridiagonal st a b :
  lanczos_partial_invariant A m n m st -> (a < m)%nat -> (b < m)%nat ->
  entry (_sym_tridiagonal_dense (fst (tridiag st)) (snd (tridiag st))) a b
  = vecdot (nth a (basis st) []) (matvec A (nth b (basis st) [])).
Proof.
  intros [_ Hbs Hdg Hod _ _ Hon _ Hd He Hrec _] Ha Hb.
  rewrite (sym_tridiagonal_dense_entry m) by assumption.
  assert (Hrow_len : forall j, (j < m)%nat -> length (nth j (basis st) []) = n)
    by (intros; now apply (has_shape_row _ _ _ _ Hbs)).
  assert (Hadj : forall x y, (x < m)%nat -> (y < m)%nat ->
            vecdot (nth x (basis st) []) (matvec A (nth y (basis st) []))
            = vecdot (nth y (basis st) []) (matvec A (nth x (basis st) []))).
  { intros x y Hx Hy. rewrite vecdot_comm.
    apply (matvec_symmetric n); auto. }
  assert (Hoff : forall x y, (x < m)%nat -> (y < m)%nat -> x <> y ->
            vecdot (nth x (basis st) []) (nth y (basis st) []) = 0).
  { intros x y Hx Hy Hxy. rewrite Hon by assumption.
    destruct (Nat.eqb_spec x y); [lia|reflexivity]. }
  destruct (Nat.eqb_spec a b) as [->|Hab]; [now apply Hd|].
  destruct (Nat.eqb_spec b (S a)) as [->|Hba].
  - rewrite Hadj by assumption.
    replace a with (S a - 1)%nat at 1 3 by lia. apply He. lia.
  - destruct (Nat.eqb_spec a (S b)) as [->|Hab'].
    + replace b with (S b - 1)%nat at 1 3 by lia. apply He. lia.
    + symmetry. destruct (Nat.lt_ge_cases (S b) m) as [HSb|HSb].
      * apply Hrec; auto; try (apply Hoff; lia). intros _. apply Hoff; lia.
      * rewrite Hadj by assumption.
        apply Hrec; auto; try lia; try (apply Hoff; lia).
        intros _. apply Hoff; lia.
Qed.

(** With the invariant, the rows of the basis are orthonormal and the basis
    carries [A] to the dense tridiagonal matrix of the coefficients. *)
Lemma lanczos_partial_invariant_factorisation st :
  lanczos_partial_invariant A m n m st ->
  let Q := basis st in
  let T := _sym_tridiagonal_dense (fst (tridiag st)) (snd (tridiag st)) in
  has_shape m n Q
  /\ matmul Q (transpose Q) = eye m
  /\ matmul (matmul Q A) (transpose Q) = T.
Proof.
  intros Hinv. cbv zeta.
  pose proof (pinv_basis_shape _ _ _ _ _ Hinv) as HQ.
  assert (Hmpos : (0 < m)%nat) by lia.
  assert (Hrow_len : forall j, (j < m)%nat -> length (nth j (basis st) []) = n)
    by (intros; now apply (has_shape_row _ _ _ _ HQ)).
  assert (Hnpos : (0 < n)%nat).
  { pose proof (pinv_orthonormal _ _ _ _ _ Hinv 0%nat 0%nat Hmpos Hmpos) as H00.
    pose proof (Hrow_len 0%nat Hmpos) as Hlen0.
    destruct (nth 0 (basis st) []) as [|x r]; [|simpl in Hlen0; lia].
    cbn in H00. lra. }
  pose proof (transpose_shape _ _ _ HQ Hmpos) as HQt.
  assert (Hrows : matmul (basis st) (transpose (basis st)) = eye m).
  { apply matrix_ext with (m := m) (n := m);
      [now apply matmul_shape with (p := n) | apply eye_shape |].
    intros a b Ha Hb.
    rewrite (matmul_entry _ _ _ _ _ _ _ HQ HQt Hnpos Ha Hb).
    rewrite eye_entry by assumption.
    rewrite <- (pinv_orthonormal _ _ _ _ _ Hinv a b Ha Hb).
    rewrite vecdot_big_sum by (rewrite !Hrow_len; auto).
    rewrite Hrow_len by assumption.
    apply big_sum_ext. intros k Hk.
    now rewrite (transpose_entry _ _ _ _ _ HQ Hb Hk). }
  pose proof (matmul_shape _ _ _ _ _ HA HQt Hnpos) as HAQt.
  split; [exact HQ|]. split; [exact Hrows|].
  rewrite (matmul_assoc _ _ _ _ _ _ _ HQ HA HQt Hnpos Hnpos).
  symmetry.
  apply matrix_ext with (m := m) (n := m);
    [apply sym_tridiagonal_dense_shape; auto; apply Hinv
    | now apply matmul_shape with (p := n) |].
  intros a b Ha Hb.
  rewrite (lanczos_partial_invariant_tridiagonal st a b Hinv Ha Hb).
  rewrite (matmul_entry _ _ _ _ _ _ _ HQ HAQt Hnpos Ha Hb).
  rewrite vecdot_big_sum
    by (rewrite matvec_length, Hrow_len by assumption; now destruct HA).
  rewrite Hrow_len by assumption.
  apply big_sum_ext. intros c Hc. rewrite entry_unfold. f_equal.
  rewrite matvec_nth by (destruct HA; lia).
  rewrite (matmul_entry _ _ _ _ _ _ _ HA HQt Hnpos Hc Hb).
  rewrite vecdot_big_sum
    by (rewrite (has_shape_row _ _ _ _ HA Hc), Hrow_len; auto).
  rewrite (has_shape_row _ _ _ _ HA Hc).
  apply big_sum_ext. intros k Hk.
  now rewrite (transpose_entry _ _ _ _ _ HQ Hb Hk).
Qed.

End LanczosAnyDepth.

(** For a symmetric [n]-by-[n] matrix [A], the tridiagonal decomposition of
    any valid depth, run for [depth + 1] steps none of which normalises a zero
    vector, returns in exact arithmetic a basis [Q] of [depth + 1] orthonormal
    rows and coefficients whose dense tridiagonal matrix is [Q @ A @ Q.T]. *)
Theorem tridiagonalisation_factorises_at_any_depth (n : nat) (A : list (list R))
  (v0 : list R) (depth : Z) (s0 : _LanczosState R) :
  has_shape n n A ->
  symmetric A ->
  length v0 = n ->
  _lanczos_full_reortho_init depth v0 = Ok s0 ->
  no_zero_normalisation (matvec A) (Z.to_nat (depth + 1)) s0 ->
  exists Q d e,
    snd (decompose_fori_loop 0 (depth + 1) v0 (matvec A) (lanczos_full_reortho depth))
    = Ok (Q, (d, e))
    /\ has_shape (Z.to_nat (depth + 1)) n Q
    /\ matmul Q (transpose Q) = eye (Z.to_nat (depth + 1))
    /\ matmul (matmul Q A) (transpose Q) = _sym_tridiagonal_dense d e.
Proof.
  intros HA Hsym Hv0 Hinit Hnz.
  destruct (lanczos_init_inv _ _ _ Hinit) as [Hdepth _].
  set (m := Z.to_nat (depth + 1)) in *.
  assert (Hm : (2 <= m)%nat) by (subst m; lia).
  assert (Hdm : depth = (Z.of_nat m - 1)%Z) by (subst m; lia).
  assert (Hsteps : Z.to_nat (depth + 1 - 0) = m) by (subst m; lia).
  assert (Hinv : lanczos_partial_invariant A m n m (lanczos_steps (matvec A) m s0)).
  { apply lanczos_partial_invariant_steps with (v0 := v0); auto.
    - now rewrite <- Hdm.
    - intros j Hj. apply (Hnz j); [exact Hj|].
      unfold normalised_by_step. now left. }
  pose proof (lanczos_partial_invariant_factorisation A m n HA Hsym Hm _ Hinv)
    as Hfact.
  cbv zeta in Hfact.
  rewrite (driver_on_lanczos depth 0 (depth + 1) v0 (matvec A) s0 Hinit), Hsteps.
  destruct (lanczos_steps (matvec A) m s0) as [idx Q [d e] vec].
  cbn [basis tridiag fst snd _lanczos_full_reortho_extract] in *.
  exists Q, d, e. split; [reflexivity|exact Hfact].
Qed.

(** ** Concrete runs *)

Section ConcreteExtras.

Local Open Scope R_scope.

(** A run of depth one on a three-by-three matrix that swaps the first two
    coordinates and annihilates the third. *)
Lemma swap3_matrix_shape : has_shape 3 3 [[0; 1; 0]; [1; 0; 0]; [0; 0; 0]].
Proof. split; [reflexivity | repeat constructor]. Qed.

Lemma swap3_matrix_symmetric : symmetric [[0; 1; 0]; [1; 0; 0]; [0; 0; 0]].
Proof.
  intros a b. destruct a as [|[|[|[|a]]]], b as [|[|[|[|b]]]]; reflexivity.
Qed.

Lemma unit3_vector_norm_1 : vector_norm [1; 0; 0] = 1.
Proof. apply vector_norm_of_unit; cbn; lra. Qed.

Lemma unit3_vector_norm_2 : vector_norm [0; 1; 0] = 1.
Proof. apply vector_norm_of_unit; cbn; lra. Qed.

Lemma swap3_run_first_step :
  lanczos_steps (matvec [[0; 1; 0]; [1; 0; 0]; [0; 0; 0]]) 1
    (mk_LanczosState 0 (zeros2 2 3) (zeros 2, zeros 1) [1; 0; 0])
  = mk_LanczosState 1 [[1; 0; 0]; [0; 0; 0]] ([0; 0], [1]) [0; 1; 0].
Proof.
  rewrite lanczos_steps_succ. change (lanczos_steps _ 0 ?s) with s.
  rewrite lanczos_apply_unfold. cbv zeta.
  rewrite unit3_vector_norm_1, vdiv_one.
  change (zeros2 2 3) with [[0; 0; 0]; [0; 0; 0]].
  rewrite (gram_schmidt_set_zero_rows [1; 0; 0] 3) by (simpl; repeat constructor).
  rewrite unit3_vector_norm_1, vdiv_one.
  change (at_set [[0; 0; 0]; [0; 0; 0]] 0 [1; 0; 0]) with [[1; 0; 0]; [0; 0; 0]].
  change (getitem [] [[1; 0; 0]; [0; 0; 0]] 0) with [1; 0; 0].
  change (getitem [] [[1; 0; 0]; [0; 0; 0]] (0 - 1)) with [0; 0; 0].
  change (at_set (zeros 2) 0 ?c) with [c; 0].
  change (at_set (zeros 1) (0 - 1) ?c) with [c].
  simpl. repeat f_equal; lra.
Qed.

Lemma swap3_run_no_zero_normalisation :
  no_zero_normalisation (matvec [[0; 1; 0]; [1; 0; 0]; [0; 0; 0]]) 2
    (mk_LanczosState 0 (zeros2 2 3) (zeros 2, zeros 1) [1; 0; 0]).
Proof.
  intros k v Hk Hv.
  assert (Hone : vector_norm v = 1); [|lra].
  destruct k as [|[|k]]; [| |lia].
  - change (lanczos_steps _ 0 ?s) with s in Hv.
    unfold normalised_by_step in Hv. cbn [q basis] in Hv.
    rewrite (normalise_of_unit [1; 0; 0]) in Hv by (cbn; lra). cbn [fst] in Hv.
    change (zeros2 2 3) with [[0; 0; 0]; [0; 0; 0]] in Hv.
    rewrite (gram_schmidt_set_zero_rows [1; 0; 0] 3) in Hv
      by (simpl; repeat constructor).
    destruct Hv as [<-|[<-|[]]]; exact unit3_vector_norm_1.
  - rewrite swap3_run_first_step in Hv.
    unfold normalised_by_step in Hv. cbn [q basis] in Hv.
    rewrite (normalise_of_unit [0; 1; 0]) in Hv by (cbn; lra). cbn [fst] in Hv.
    rewrite gram_schmidt_set_orthogonal in Hv by (repeat constructor; cbn; lra).
    destruct Hv as [<-|[<-|[]]]; exact unit3_vector_norm_2.
Qed.

Lemma single_row_orthonormal : orthonormal_rows [[1; 0]].
Proof.
  intros a b Ha Hb. destruct a as [|a], b as [|b]; simpl in Ha, Hb; try lia.
  cbn. lra.
Qed.

Lemma tridiagonalisation_factorises_at_any_depth_witness :
  exists Q d e,
    snd (decompose_fori_loop 0 (1 + 1) [1; 0; 0]
           (matvec [[0; 1; 0]; [1; 0; 0]; [0; 0; 0]]) (lanczos_full_reortho 1))
    = Ok (Q, (d, e))
    /\ has_shape (Z.to_nat (1 + 1)) 3 Q
    /\ matmul Q (transpose Q) = eye (Z.to_nat (1 + 1))
    /\ matmul (matmul Q [[0; 1; 0]; [1; 0; 0]; [0; 0; 0]]) (transpose Q)
       = _sym_tridiagonal_dense d e.
Proof.
  exact (tridiagonalisation_factorises_at_any_depth 3
           [[0; 1; 0]; [1; 0; 0]; [0; 0; 0]] [1; 0; 0] 1
           (mk_LanczosState 0 (zeros2 2 3) (zeros 2, zeros 1) [1; 0; 0])
           swap3_matrix_shape swap3_matrix_symmetric eq_refl eq_refl
           swap3_run_no_zero_normalisation).
Defined.

Lemma gram_schmidt_against_orthonormal_rows_witness :
  let '(residual, coeffs) := _gram_schmidt_orthogonalise_set [3; 4] [[1; 0]] in
  (forall a, (a < length [[1; 0]])%nat -> vecdot residual (nth a [[1; 0]] []) = 0)
  /\ (forall a, (a < length [[1; 0]])%nat ->
        nth a coeffs 0 = vecdot [3; 4] (nth a [[1; 0]] []))
  /\ length residual = 2%nat
  /\ vecdot [3; 4] [3; 4] = vecdot residual residual + vecdot coeffs coeffs
  /\ _gram_schmidt_orthogonalise_set residual [[1; 0]]
     = (residual, repeat 0 (length [[1; 0]])).
Proof.
  apply (gram_schmidt_against_orthonormal_rows 2 [3; 4] [[1; 0]]).
  - reflexivity.
  - repeat constructor.
  - exact single_row_orthonormal.
Defined.

Lemma normalise_round_trip_witness :
  let '(unit, len) := _normalise [1; 0] in
  vscale len unit = [1; 0]
  /\ vector_norm unit = 1
  /\ 0 < len
  /\ _normalise unit = (unit, 1).
Proof.
  apply (normalise_round_trip [1; 0]).
  rewrite unit_vector_norm_1. lra.
Defined.

Lemma lanczos_offdiag_nonneg_witness :
  Forall (fun c => 0 <= c)
    (snd (tridiag (lanczos_steps (matvec [[0; 1]; [1; 0]]) 2
                     (mk_LanczosState 0 (zeros2 2 2) (zeros 2, zeros 1) [1; 0])))).
Proof.
  exact (lanczos_offdiag_nonneg 1 [1; 0]
           (mk_LanczosState 0 (zeros2 2 2) (zeros 2, zeros 1) [1; 0])
           (matvec [[0; 1]; [1; 0]]) 2 eq_refl).
Defined.

Lemma sym_tridiagonal_dense_is_symmetric_witness :
  let T := _sym_tridiagonal_dense [1; 2] [3] in
  has_shape 2 2 T
  /\ symmetric T
  /\ transpose T = T
  /\ (forall a, (a < 2)%nat -> entry T a a = nth a [1; 2] 0)
  /\ (forall a, (S a < 2)%nat ->
        entry T a (S a) = nth a [3] 0 /\ entry T (S a) a = nth a [3] 0)
  /\ (forall a b, (a < 2)%nat -> (b < 2)%nat ->
        (S a < b \/ S b < a)%nat -> entry T a b = 0).
Proof.
  apply (sym_tridiagonal_dense_is_symmetric 2 [1; 2] [3]);
    [reflexivity | reflexivity | lia].
Defined.

Lemma bidiagonal_dense_is_upper_bidiagonal_witness :
  let B := _bidiagonal_dense [1; 2] [3] in
  has_shape 2 2 B
  /\ (forall a, (a < 2)%nat -> entry B a a = nth a [1; 2] 0)
  /\ (forall a, (S a < 2)%nat -> entry B a (S a) = nth a [3] 0)
  /\ (forall a b, (a < 2)%nat -> (b < 2)%nat ->
        (b < a \/ S a < b)%nat -> entry B a b = 0).
Proof.
  apply (bidiagonal_dense_is_upper_bidiagonal 2 [1; 2] [3]);
    [reflexivity | reflexivity | lia].
Defined.

End ConcreteExtras.

Lemma lanczos_run_keeps_shapes_witness :
  let '(Q, (d, e)) :=
    _lanczos_full_reortho_extract
      (lanczos_steps (fun v => v) 2
         (mk_LanczosState 0%Z (zeros2 2 2) (zeros 2, zeros 1) [3; 4]%float)) in
  has_shape (Z.to_nat (1 + 1)) (length [3; 4]%float) Q
  /\ length d = Z.to_nat (1 + 1)
  /\ length e = Z.to_nat 1
  /\ length (q (lanczos_steps (fun v => v) 2
                  (mk_LanczosState 0%Z (zeros2 2 2) (zeros 2, zeros 1)
                     [3; 4]%float)))
     = length [3; 4]%float.
Proof.
  exact (lanczos_run_keeps_shapes 1%Z [3; 4]%float
           (mk_LanczosState 0%Z (zeros2 2 2) (zeros 2, zeros 1) [3; 4]%float)
           (fun v => v) 2%nat eq_refl (fun v Hv => Hv)).
Defined.

Lemma gkl_step_frame_witness :
  let st' :=
    GKL._gkl_full_reortho_apply
      (GKL.mk_GKLState 0%Z (zeros2 2 2) (zeros2 2 2) (zeros 2) (zeros 2)
         0%float [1; 0]%float)
      (fun v => v) (fun v => v) in
  GKL.i st' = (0 + 1)%Z
  /\ nth_error (GKL.Vs st') (Z.to_nat 0) = Some [1; 0]%float
  /\ nth_error (GKL.betas st') (Z.to_nat 0) = Some 0%float
  /\ nth_error (GKL.alphas st') (Z.to_nat 0)
     = Some (vector_norm
               (vsub [1; 0]%float
                  (vscale 0%float (getitem [] (zeros2 2 2) (0 - 1)))))
  /\ (forall j, j <> Z.to_nat 0 ->
        nth_error (GKL.Us st') j = nth_error (zeros2 2 2) j
        /\ nth_error (GKL.Vs st') j = nth_error (zeros2 2 2) j
        /\ nth_error (GKL.alphas st') j = nth_error (zeros 2) j
        /\ nth_error (GKL.betas st') j = nth_error (zeros 2) j)
  /\ length (GKL.Us st') = 2%nat /\ length (GKL.Vs st') = 2%nat
  /\ length (GKL.alphas st') = 2%nat /\ length (GKL.betas st') = 2%nat.
Proof.
  refine (gkl_step_frame 2%nat 0%Z (zeros2 2 2) (zeros2 2 2) (zeros 2) (zeros 2)
            0%float [1; 0]%float (fun v => v) (fun v => v) _
            eq_refl eq_refl eq_refl eq_refl).
  lia.
Defined.

Lemma gkl_run_keeps_shapes_witness :
  let st := gkl_steps (fun v => v) (fun v => v) 2
              (GKL._gkl_full_reortho_init 1 (2, 2)%Z [3; 4]%float) in
  GKL.i st = Z.of_nat 2
  /\ has_shape (Z.to_nat (1 + 1)) (Z.to_nat 2) (GKL.Us st)
  /\ has_shape (Z.to_nat (1 + 1)) (Z.to_nat 2) (GKL.Vs st)
  /\ length (GKL.alphas st) = Z.to_nat (1 + 1)
  /\ length (GKL.betas st) = Z.to_nat (1 + 1)
  /\ length (GKL.vk st) = Z.to_nat 2.
Proof.
  refine (gkl_run_keeps_shapes 1%Z 2%Z 2%Z [3; 4]%float (fun v => v) (fun v => v)
            2%nat _ eq_refl (fun x Hx => Hx) (fun x Hx => Hx)).
  simpl. lia.
Defined.

(** ** The bidiagonal algorithm in exact arithmetic *)

Section BidiagonalFacts.

Local Open Scope R_scope.

Implicit Types (M A : list (list R)) (u v w x y : list R) (c : R)
  (us vs : list (list R)) (al be : list R) (Av vA : list R -> list R)
  (a b k j m n nr nc : nat) (idx depth : Z).

Lemma vecmat_nth nr nc A y b :
  has_shape nr nc A -> (0 < nr)%nat -> (b < nc)%nat ->
  nth b (vecmat y A) 0 = vecdot y (map (fun row => nth b row 0) A).
Proof.
  intros HA Hnr Hb. unfold vecmat.
  rewrite (transpose_rows _ _ _ HA Hnr), map_map.
  now rewrite nth_map_seq.
Qed.

Lemma vecmat_length nr nc A y :
  has_shape nr nc A -> (0 < nr)%nat -> length (vecmat y A) = nc.
Proof.
  intros HA Hnr. unfold vecmat.
  rewrite length_map. exact (has_shape_rows _ _ _ (transpose_shape _ _ _ HA Hnr)).
Qed.

(** [v @ A] is the product of the transpose of [A] with [v]:
    [(A @ x) . y = x . (y @ A)]. *)
Lemma vecdot_matvec_vecmat nr nc A x y :
  has_shape nr nc A -> (0 < nr)%nat -> length x = nc -> length y = nr ->
  vecdot (matvec A x) y = vecdot x (vecmat y A).
Proof.
  intros HA Hnr Hx Hy.
  pose proof (has_shape_rows _ _ _ HA) as Hrows.
  rewrite !vecdot_big_sum
    by (rewrite ?matvec_length, ?(vecmat_length nr nc); congruence).
  rewrite matvec_length, Hrows, Hx.
  rewrite big_sum_ext
    with (g := fun a => big_sum (fun b => entry A a b * nth b x 0 * nth a y 0) nc).
  2:{ intros a Ha. rewrite matvec_nth by lia.
      rewrite vecdot_big_sum by (rewrite (has_shape_row _ _ _ _ HA Ha); congruence).
      rewrite (has_shape_row _ _ _ _ HA Ha), <- big_sum_scale_r.
      apply big_sum_ext. intros b _. now rewrite entry_unfold. }
  rewrite big_sum_exchange. apply big_sum_ext. intros b Hb.
  rewrite (vecmat_nth nr nc) by assumption.
  rewrite vecdot_big_sum by (rewrite length_map; congruence).
  rewrite Hy, <- big_sum_scale_l.
  apply big_sum_ext. intros a Ha.
  rewrite (nth_map_rows (fun row => nth b row 0)) by lia.
  rewrite entry_unfold. lra.
Qed.

Lemma transpose_involutive m n M :
  has_shape m n M -> (0 < m)%nat -> (0 < n)%nat ->
  transpose (transpose M) = M.
Proof.
  intros HM Hm Hn.
  pose proof (transpose_shape _ _ _ HM Hm) as HMt.
  apply matrix_ext with (m := m) (n := n);
    [now apply transpose_shape | exact HM |].
  intros a b Ha Hb.
  rewrite (transpose_entry _ _ _ _ _ HMt Hb Ha).
  now rewrite (transpose_entry _ _ _ _ _ HM Ha Hb).
Qed.

Lemma nth_at_set_neq {X : Type} (l : list X) idx (x d : X) j :
  (0 <= idx)%Z -> j <> Z.to_nat idx -> nth j (at_set l idx x) d = nth j l d.
Proof.
  intros Hidx Hj. rewrite at_set_nonneg by assumption.
  destruct (idx <? Z.of_nat (length l))%Z; [|reflexivity].
  now apply nth_list_update_neq.
Qed.

(** A step writes [alphas] and [betas] at its index only. *)
Lemma gkl_apply_keeps_coefficients Av vA (st : GKL._GKLState R) j :
  (0 <= GKL.i st)%Z -> j <> Z.to_nat (GKL.i st) ->
  nth j (GKL.alphas (GKL._gkl_full_reortho_apply st Av vA)) 0
  = nth j (GKL.alphas st) 0
  /\ nth j (GKL.betas (GKL._gkl_full_reortho_apply st Av vA)) 0
     = nth j (GKL.betas st) 0.
Proof.
  intros Hidx Hj. destruct st as [idx us vs al be b v].
  rewrite gkl_apply_unfold. cbv zeta.
  cbn [GKL.i GKL.alphas GKL.betas] in *.
  now rewrite !nth_at_set_neq by assumption.
Qed.

(** What a step writes at its index: the length of the left residual in
    [alphas], the trailing scalar in [betas]; and the new trailing scalar is
    the length of the right residual when reorthogonalising the left vector
    changes nothing. *)
Lemma gkl_apply_writes_coefficients Av vA (st : GKL._GKLState R) k :
  GKL.i st = Z.of_nat k ->
  (k < length (GKL.alphas st))%nat -> (k < length (GKL.betas st))%nat ->
  nth k (GKL.alphas (GKL._gkl_full_reortho_apply st Av vA)) 0
  = vector_norm (gkl_left_residual Av st)
  /\ nth k (GKL.betas (GKL._gkl_full_reortho_apply st Av vA)) 0 = GKL.beta st.
Proof.
  intros Hidx Hal Hbe. destruct st as [idx us vs al be b v].
  cbn [GKL.i GKL.alphas GKL.betas GKL.beta] in *. subst idx.
  rewrite gkl_apply_unfold. cbv zeta. cbn [GKL.alphas GKL.betas].
  rewrite !at_set_in_range by lia. rewrite Nat2Z.id.
  now rewrite !nth_list_update_eq by assumption.
Qed.

(** Entries of [alphas] and [betas] written by a step of a run are kept by the
    later steps. *)
Lemma gkl_steps_keep_coefficients depth nrows ncols v0 Av vA j k k' :
  (0 <= depth)%Z -> (j < k)%nat -> (k <= k')%nat ->
  let s0 := GKL._gkl_full_reortho_init depth (nrows, ncols) v0 in
  nth j (GKL.alphas (gkl_steps Av vA k' s0)) 0
  = nth j (GKL.alphas (gkl_steps Av vA k s0)) 0
  /\ nth j (GKL.betas (gkl_steps Av vA k' s0)) 0
     = nth j (GKL.betas (gkl_steps Av vA k s0)) 0.
Proof.
  intros Hd Hj Hk. cbv zeta. induction Hk as [|k' Hk IH]; [now split|].
  rewrite gkl_steps_succ.
  pose proof (gkl_steps_shape depth nrows ncols v0 Av vA k' Hd) as Hshape.
  cbv zeta in Hshape. destruct Hshape as (Hidx & _).
  destruct (gkl_apply_keeps_coefficients Av vA
              (gkl_steps Av vA k'
                 (GKL._gkl_full_reortho_init depth (nrows, ncols) v0)) j)
    as [Hal Hbe]; [lia | lia |].
  destruct IH as [IHal IHbe]. split; congruence.
Qed.

Lemma gkl_steps_succ_r Av vA k (st : GKL._GKLState R) :
  gkl_steps Av vA (S k) st
  = gkl_steps Av vA k (GKL._gkl_full_reortho_apply st Av vA).
Proof. unfold gkl_steps. apply Nat.iter_succ_r. Qed.

Lemma fori_loop_from_gkl Av vA count :
  forall idx log (st : GKL._GKLState R),
    snd (fori_loop_from count idx
           (fun (k : Z) '(log, s) =>
              (log ++ [Step_called k], GKL._gkl_full_reortho_apply s Av vA))
           (log, st))
    = gkl_steps Av vA count st.
Proof.
  induction count as [|count IH]; intros idx log st.
  - reflexivity.
  - cbn [fori_loop_from]. rewrite IH. now rewrite gkl_steps_succ_r.
Qed.

(** The driver on a bidiagonal descriptor returns what [extract] reads off
    the state after [upper - lower] steps from the initial state. *)
Lemma driver_on_gkl depth nrows ncols lower upper v0 Av vA alg :
  GKL.gkl_full_reortho depth (nrows, ncols) = Ok alg ->
  snd (decompose_fori_loop lower upper v0 (Av, vA) alg)
  = Ok (GKL._gkl_full_reortho_extract
          (gkl_steps Av vA (Z.to_nat (upper - lower))
             (GKL._gkl_full_reortho_init depth (nrows, ncols) v0))).
Proof.
  unfold GKL.gkl_full_reortho.
  destruct (_ || _); [discriminate|]. intros [= <-].
  unfold decompose_fori_loop. cbn [init step extract].
  unfold fori_loop.
  pose proof (fori_loop_from_gkl Av vA (Z.to_nat (upper - lower)) lower
                [Init_called]
                (GKL._gkl_full_reortho_init depth (nrows, ncols) v0)) as Hloop.
  destruct (fori_loop_from _ _ _ _) as [log final].
  cbn [snd] in *. now subst final.
Qed.

End BidiagonalFacts.

Section BidiagonalExact.

Local Open Scope R_scope.

Variables (A : list (list R)) (m nr nc : nat).

Hypothesis HA : has_shape nr nc A.
Hypothesis Hm : (1 <= m)%nat.
Hypothesis Hnr : (0 < nr)%nat.

Implicit Types (us vs : list (list R)) (al be u v w x : list R) (c : R)
  (k j a b : nat) (st : GKL._GKLState R).

(** The row [Us[i - 1]] that a step reads: the zero padding at the first
    step, the last left vector written afterwards. *)
Lemma gkl_previous_row k st :
  gkl_invariant A m nr nc k st -> (k < m)%nat ->
  getitem [] (GKL.Us st) (GKL.i st - 1)
  = if Nat.eqb k 0 then repeat 0 nr else nth (k - 1) (GKL.Us st) [].
Proof.
  intros Hinv Hk.
  pose proof (has_shape_rows _ _ _ (ginv_Us_shape _ _ _ _ _ _ Hinv)) as Hrows.
  rewrite (ginv_index _ _ _ _ _ _ Hinv).
  destruct k as [|k'].
  - cbn [Nat.eqb Z.of_nat]. change (0 - 1)%Z with (-1)%Z.
    rewrite getitem_minus_one
      by (destruct (GKL.Us st); [simpl in Hrows; lia|discriminate]).
    rewrite Hrows. apply (ginv_Us_padding _ _ _ _ _ _ Hinv). lia.
  - cbn [Nat.eqb]. rewrite getitem_in_range by lia.
    f_equal. lia.
Qed.

Lemma gkl_previous_row_length k st :
  gkl_invariant A m nr nc k st -> (k < m)%nat ->
  length (getitem [] (GKL.Us st) (GKL.i st - 1)) = nr.
Proof.
  intros Hinv Hk. rewrite (gkl_previous_row k st Hinv Hk).
  destruct (Nat.eqb k 0); [apply repeat_length|].
  apply (has_shape_row _ _ _ _ (ginv_Us_shape _ _ _ _ _ _ Hinv)). lia.
Qed.

Lemma gkl_left_residual_length k st :
  gkl_invariant A m nr nc k st -> (k < m)%nat ->
  length (gkl_left_residual (matvec A) st) = nr.
Proof.
  intros Hinv Hk. unfold gkl_left_residual.
  pose proof (gkl_previous_row_length k st Hinv Hk) as Hp.
  pose proof (has_shape_rows _ _ _ HA) as Hrows.
  rewrite vsub_length; rewrite ?vscale_length, matvec_length; congruence.
Qed.

(** The dot product of a vector with the left residual. *)
Lemma gkl_left_residual_dot k st w :
  gkl_invariant A m nr nc k st -> (k < m)%nat ->
  vecdot w (gkl_left_residual (matvec A) st)
  = vecdot w (matvec A (GKL.vk st))
    - GKL.beta st
      * (if Nat.eqb k 0 then 0 else vecdot w (nth (k - 1) (GKL.Us st) [])).
Proof.
  intros Hinv Hk. unfold gkl_left_residual.
  pose proof (gkl_previous_row_length k st Hinv Hk) as Hp.
  pose proof (has_shape_rows _ _ _ HA) as Hrows.
  rewrite vecdot_vsub_r
    by (rewrite vscale_length, matvec_length; congruence).
  rewrite vecdot_vscale_r, (gkl_previous_row k st Hinv Hk).
  destruct (Nat.eqb k 0); [now rewrite vecdot_repeat_zero_r|reflexivity].
Qed.

(** In exact arithmetic the left residual is already orthogonal to every row
    of [Us]: to the left vectors written, by the relations of the transpose
    of [A], and to the zero padding. *)
Lemma gkl_left_residual_orthogonal k st j :
  gkl_invariant A m nr nc k st -> gkl_pending A nc k st ->
  (k < m)%nat -> (j < m)%nat ->
  vecdot (gkl_left_residual (matvec A) st) (nth j (GKL.Us st) []) = 0.
Proof.
  intros Hinv Hpend Hk Hj.
  destruct (Nat.lt_ge_cases j k) as [Hjk|Hjk].
  2:{ rewrite (ginv_Us_padding _ _ _ _ _ _ Hinv) by lia.
      apply vecdot_repeat_zero_r. }
  pose proof (ginv_Us_shape _ _ _ _ _ _ Hinv) as HUs.
  pose proof (ginv_Vs_shape _ _ _ _ _ _ Hinv) as HVs.
  pose proof (has_shape_row _ _ _ _ HUs Hj) as Hrow.
  pose proof (gpend_length _ _ _ _ Hpend) as Hv.
  rewrite vecdot_comm, (gkl_left_residual_dot k st _ Hinv Hk).
  destruct (Nat.eqb_spec k 0) as [->|Hk0]; [lia|].
  rewrite (vecdot_comm _ (matvec A (GKL.vk st))).
  rewrite (vecdot_matvec_vecmat nr nc A _ _ HA Hnr Hv Hrow).
  rewrite (ginv_Us_orthonormal _ _ _ _ _ _ Hinv j (k - 1)%nat) by lia.
  destruct (Nat.eq_dec (S j) k) as [Hlast|Hmid].
  - replace j with (k - 1)%nat by lia.
    rewrite (gpend_backward _ _ _ _ Hpend (GKL.vk st)) by (lia || assumption).
    rewrite (gpend_orthogonal _ _ _ _ Hpend) by lia.
    rewrite (gpend_unit _ _ _ _ Hpend), Nat.eqb_refl. lra.
  - rewrite (ginv_backward _ _ _ _ _ _ Hinv j (GKL.vk st)) by (lia || assumption).
    rewrite !(gpend_orthogonal _ _ _ _ Hpend) by lia.
    destruct (Nat.eqb_spec j (k - 1)); [lia|]. lra.
Qed.

(** The step on a state that satisfies the invariant, when the left residual
    is not zero: reorthogonalisation and re-normalisation leave the normalised
    left residual as it is. *)
Lemma gkl_step_explicit k st :
  gkl_invariant A m nr nc k st -> gkl_pending A nc k st -> (k < m)%nat ->
  vector_norm (gkl_left_residual (matvec A) st) <> 0 ->
  let alpha := vector_norm (gkl_left_residual (matvec A) st) in
  let u := vdiv (gkl_left_residual (matvec A) st) alpha in
  let vraw := gkl_right_residual (matvec A) (fun x => vecmat x A) st in
  let vs' := list_update (GKL.Vs st) k (GKL.vk st) in
  let vres := fst (_gram_schmidt_orthogonalise_set
                     (vdiv vraw (vector_norm vraw)) vs') in
  GKL._gkl_full_reortho_apply st (matvec A) (fun x => vecmat x A)
  = GKL.mk_GKLState (Z.of_nat (S k))
      (list_update (GKL.Us st) k u) vs'
      (list_update (GKL.alphas st) k alpha)
      (list_update (GKL.betas st) k (GKL.beta st))
      (vector_norm vraw) (vdiv vres (vector_norm vres)).
Proof.
  intros Hinv Hpend Hk Halpha. cbv zeta.
  pose proof (gkl_left_residual_length k st Hinv Hk) as Hlen.
  assert (Horth : forall j, (j < m)%nat ->
            vecdot (gkl_left_residual (matvec A) st) (nth j (GKL.Us st) []) = 0)
    by (intros; now apply (gkl_left_residual_orthogonal k)).
  unfold gkl_right_residual. cbv zeta.
  revert Hlen Horth Halpha. unfold gkl_left_residual.
  destruct Hinv as [Hidx HUs HVs Hal Hbe _ _ _ _ _ _].
  destruct st as [idx us vs al be bt v].
  cbn [GKL.i GKL.Us GKL.Vs GKL.alphas GKL.betas GKL.beta GKL.vk] in *.
  subst idx. intros Hlen Horth Halpha.
  pose proof (has_shape_rows _ _ _ HUs) as HUrows.
  pose proof (has_shape_rows _ _ _ HVs) as HVrows.
  rewrite gkl_apply_unfold. cbv zeta.
  set (uraw := vsub (matvec A v) (vscale bt (getitem [] us (Z.of_nat k - 1)))) in *.
  assert (Hgs : fst (_gram_schmidt_orthogonalise_set
                       (vdiv uraw (vector_norm uraw)) us)
                = vdiv uraw (vector_norm uraw)).
  { apply gram_schmidt_set_orthogonal, Forall_forall. intros r Hr.
    destruct (In_nth _ _ [] Hr) as (j & Hj & <-). rewrite HUrows in Hj.
    split.
    - now rewrite (has_shape_row _ _ _ _ HUs Hj), vdiv_length.
    - rewrite vecdot_vdiv_l, Horth by assumption. unfold Rdiv. lra. }
  rewrite Hgs.
  rewrite (vector_norm_of_unit _ (normalise_unit _ Halpha)), vdiv_one.
  rewrite (at_set_in_range us), (at_set_in_range vs), (at_set_in_range al),
    (at_set_in_range be) by lia.
  rewrite Nat2Z.id.
  replace (Z.of_nat k + 1)%Z with (Z.of_nat (S k)) by lia.
  reflexivity.
Qed.

(** A step on a non-zero left residual preserves the invariant, and leaves a
    right residual that is orthogonal to every row of the new [Vs] and that
    completes the relation of the transpose of [A] on the new left vector. *)
Lemma gkl_step_preserves k st :
  gkl_invariant A m nr nc k st -> gkl_pending A nc k st -> (k < m)%nat ->
  vector_norm (gkl_left_residual (matvec A) st) <> 0 ->
  let st' := GKL._gkl_full_reortho_apply st (matvec A) (fun x => vecmat x A) in
  let vraw := gkl_right_residual (matvec A) (fun x => vecmat x A) st in
  gkl_invariant A m nr nc (S k) st'
  /\ length vraw = nc
  /\ (forall j, (j < m)%nat -> vecdot vraw (nth j (GKL.Vs st') []) = 0)
  /\ (forall w, length w = nc ->
        vecdot w (vecmat (nth k (GKL.Us st') []) A)
        = nth k (GKL.alphas st') 0 * vecdot w (nth k (GKL.Vs st') [])
          + vecdot w vraw).
Proof.
  intros Hinv Hpend Hk Halpha. cbv zeta.
  rewrite (gkl_step_explicit k st Hinv Hpend Hk Halpha).
  pose proof (gkl_left_residual_length k st Hinv Hk) as Hraw_len.
  assert (Hraw_orth : forall j, (j < m)%nat ->
            vecdot (gkl_left_residual (matvec A) st) (nth j (GKL.Us st) []) = 0)
    by (intros; now apply (gkl_left_residual_orthogonal k)).
  assert (Hraw_dot : forall w,
            vecdot w (gkl_left_residual (matvec A) st)
            = vecdot w (matvec A (GKL.vk st))
              - GKL.beta st
                * (if Nat.eqb k 0 then 0
                   else vecdot w (nth (k - 1) (GKL.Us st) [])))
    by (intros; now apply gkl_left_residual_dot).
  unfold gkl_right_residual. cbv zeta.
  set (uraw := gkl_left_residual (matvec A) st) in *.
  set (alpha := vector_norm uraw) in *.
  set (u := vdiv uraw alpha).
  destruct Hinv as [Hidx HUs HVs Hal Hbe HUpad HVpad HUon HVon Hfwd Hbwd].
  destruct Hpend as [Hv Hvv Hvo Hpb].
  destruct st as [idx us vs al be bt v].
  cbn [GKL.i GKL.Us GKL.Vs GKL.alphas GKL.betas GKL.beta GKL.vk] in *.
  pose proof (has_shape_rows _ _ _ HUs) as HUrows.
  pose proof (has_shape_rows _ _ _ HVs) as HVrows.
  assert (HUrow : forall j, (j < m)%nat -> length (nth j us []) = nr)
    by (intros; now apply (has_shape_row _ _ _ _ HUs)).
  assert (HVrow : forall j, (j < m)%nat -> length (nth j vs []) = nc)
    by (intros; now apply (has_shape_row _ _ _ _ HVs)).
  assert (Hu_len : length u = nr) by (unfold u; now rewrite vdiv_length).
  assert (Huu : vecdot u u = 1) by now apply normalise_unit.
  assert (Hu_row : forall j, (j < m)%nat -> vecdot u (nth j us []) = 0).
  { intros j Hj. unfold u. rewrite vecdot_vdiv_l, Hraw_orth by assumption.
    unfold Rdiv; lra. }
  assert (Hraw_u : forall w, vecdot w uraw = alpha * vecdot w u).
  { intros w. unfold u. rewrite vecdot_vdiv_r. field. exact Halpha. }
  assert (Hus' : forall j, nth j (list_update us k u) []
                           = if Nat.eqb j k then u else nth j us []).
  { intros j. destruct (Nat.eqb_spec j k) as [->|Hne];
      [apply nth_list_update_eq; lia | now apply nth_list_update_neq]. }
  assert (Hvs' : forall j, nth j (list_update vs k v) []
                           = if Nat.eqb j k then v else nth j vs []).
  { intros j. destruct (Nat.eqb_spec j k) as [->|Hne];
      [apply nth_list_update_eq; lia | now apply nth_list_update_neq]. }
  assert (Hal' : forall j, nth j (list_update al k alpha) 0
                           = if Nat.eqb j k then alpha else nth j al 0).
  { intros j. destruct (Nat.eqb_spec j k) as [->|Hne];
      [apply nth_list_update_eq; lia | now apply nth_list_update_neq]. }
  assert (Hbe' : forall j, nth j (list_update be k bt) 0
                           = if Nat.eqb j k then bt else nth j be 0).
  { intros j. destruct (Nat.eqb_spec j k) as [->|Hne];
      [apply nth_list_update_eq; lia | now apply nth_list_update_neq]. }
  (* the relation of [A] on the working vector *)
  assert (Hfwd_k : forall w, length w = nr ->
            vecdot w (matvec A v)
            = alpha * vecdot w u
              + (if Nat.eqb k 0 then 0
                 else bt * vecdot w (nth (k - 1) us []))).
  { intros w Hw. pose proof (Hraw_dot w) as Hd. rewrite Hraw_u in Hd.
    destruct (Nat.eqb k 0); lra. }
  (* the new left vector against the image of the right vectors *)
  assert (Hu_Av : vecdot u (matvec A v) = alpha).
  { rewrite (Hfwd_k u Hu_len), Huu.
    destruct (Nat.eqb_spec k 0) as [->|Hk0]; [lra|].
    rewrite Hu_row by lia. lra. }
  assert (Hu_Avj : forall j, (j < k)%nat ->
            vecdot u (matvec A (nth j vs [])) = 0).
  { intros j Hj. rewrite (Hfwd j u Hj Hu_len).
    rewrite Hu_row by lia.
    destruct (Nat.eqb_spec j 0) as [->|Hj0]; [lra|].
    rewrite Hu_row by lia. lra. }
  assert (HuA_len : length (vecmat u A) = nc)
    by now apply (vecmat_length nr nc).
  assert (Hvraw_len : length (vsub (vecmat u A) (vscale alpha v)) = nc)
    by (rewrite vsub_length; rewrite ?vscale_length; congruence).
  assert (Hvraw_dot : forall w,
            vecdot w (vsub (vecmat u A) (vscale alpha v))
            = vecdot w (vecmat u A) - alpha * vecdot w v).
  { intros w. rewrite vecdot_vsub_r by (rewrite vscale_length; congruence).
    now rewrite vecdot_vscale_r. }
  split; [|split; [exact Hvraw_len|split]].
  - constructor;
      cbn [GKL.i GKL.Us GKL.Vs GKL.alphas GKL.betas GKL.beta GKL.vk].
    + reflexivity.
    + apply has_shape_intro; [now rewrite list_update_length|].
      intros j Hj. rewrite Hus'. destruct (Nat.eqb j k); auto.
    + apply has_shape_intro; [now rewrite list_update_length|].
      intros j Hj. rewrite Hvs'. destruct (Nat.eqb j k); auto.
    + now rewrite list_update_length.
    + now rewrite list_update_length.
    + intros j Hj. rewrite Hus'.
      destruct (Nat.eqb_spec j k); [lia|]. apply HUpad. lia.
    + intros j Hj. rewrite Hvs'.
      destruct (Nat.eqb_spec j k); [lia|]. apply HVpad. lia.
    + intros a b Ha Hb. rewrite !Hus'.
      destruct (Nat.eqb_spec a k) as [->|Hak], (Nat.eqb_spec b k) as [->|Hbk].
      * now rewrite Nat.eqb_refl.
      * destruct (Nat.eqb_spec k b); [lia|]. apply Hu_row. lia.
      * destruct (Nat.eqb_spec a k); [lia|].
        rewrite vecdot_comm. apply Hu_row. lia.
      * apply HUon; lia.
    + intros a b Ha Hb. rewrite !Hvs'.
      destruct (Nat.eqb_spec a k) as [->|Hak], (Nat.eqb_spec b k) as [->|Hbk].
      * now rewrite Nat.eqb_refl.
      * destruct (Nat.eqb_spec k b); [lia|]. apply Hvo. lia.
      * destruct (Nat.eqb_spec a k); [lia|].
        rewrite vecdot_comm. apply Hvo. lia.
      * apply HVon; lia.
    + intros j w Hj Hw. rewrite Hvs', Hal', Hbe', !Hus'.
      destruct (Nat.eqb_spec j k) as [->|Hjk].
      * rewrite (Hfwd_k w Hw).
        destruct (Nat.eqb_spec k 0) as [->|Hk0]; [reflexivity|].
        destruct (Nat.eqb_spec (k - 1) k); [lia|]. reflexivity.
      * rewrite (Hfwd j w) by (lia || assumption).
        destruct (Nat.eqb_spec j 0) as [->|Hj0]; [reflexivity|].
        destruct (Nat.eqb_spec (j - 1) k); [lia|]. reflexivity.
    + intros j w Hj Hw. rewrite !Hvs', Hal', Hbe', Hus'.
      destruct (Nat.eqb_spec j k) as [->|Hjk]; [lia|].
      destruct (Nat.eqb_spec (S j) k) as [Hlast|Hmid].
      * pose proof (Hpb w ltac:(lia) Hw) as Hp.
        replace (k - 1)%nat with j in Hp by lia. exact Hp.
      * apply Hbwd; [lia|assumption].
  - cbn [GKL.Vs]. intros j Hj. rewrite Hvs'.
    rewrite vecdot_comm, Hvraw_dot.
    destruct (Nat.eqb_spec j k) as [->|Hjk].
    + rewrite <- (vecdot_matvec_vecmat nr nc A v u HA Hnr Hv Hu_len).
      rewrite (vecdot_comm _ u), Hu_Av, Hvv. lra.
    + destruct (Nat.lt_ge_cases j k) as [Hlt|Hge].
      * rewrite <- (vecdot_matvec_vecmat nr nc A _ u HA Hnr (HVrow j Hj) Hu_len).
        rewrite (vecdot_comm _ u), Hu_Avj by assumption.
        rewrite (vecdot_comm _ v), Hvo by assumption. lra.
      * rewrite HVpad by lia. rewrite !vecdot_repeat_zero_l. lra.
  - cbn [GKL.Us GKL.Vs GKL.alphas]. intros w Hw.
    rewrite Hus', Hal', Hvs', Nat.eqb_refl, Hvraw_dot. lra.
Qed.

(** When the right residual is not zero either, the step leaves a working
    vector and a trailing scalar that satisfy the pending relations. *)
Lemma gkl_step_pending k st :
  gkl_invariant A m nr nc k st -> gkl_pending A nc k st -> (k < m)%nat ->
  vector_norm (gkl_left_residual (matvec A) st) <> 0 ->
  vector_norm (gkl_right_residual (matvec A) (fun x => vecmat x A) st) <> 0 ->
  gkl_pending A nc (S k)
    (GKL._gkl_full_reortho_apply st (matvec A) (fun x => vecmat x A)).
Proof.
  intros Hinv Hpend Hk Halpha Hbeta.
  destruct (gkl_step_preserves k st Hinv Hpend Hk Halpha)
    as (Hinv' & Hlen & Horth & Hback).
  pose proof (ginv_Vs_shape _ _ _ _ _ _ Hinv') as HVs'.
  revert Hinv' Hlen Horth Hback HVs'.
  rewrite (gkl_step_explicit k st Hinv Hpend Hk Halpha).
  cbn [GKL.i GKL.Us GKL.Vs GKL.alphas GKL.betas GKL.beta GKL.vk].
  set (vraw := gkl_right_residual (matvec A) (fun x => vecmat x A) st) in *.
  set (vs' := list_update (GKL.Vs st) k (GKL.vk st)).
  set (us' := list_update (GKL.Us st) k _).
  set (al' := list_update (GKL.alphas st) k _).
  intros _ Hlen Horth Hback HVs'.
  assert (Hgs : fst (_gram_schmidt_orthogonalise_set
                       (vdiv vraw (vector_norm vraw)) vs')
                = vdiv vraw (vector_norm vraw)).
  { apply gram_schmidt_set_orthogonal, Forall_forall. intros r Hr.
    destruct (In_nth _ _ [] Hr) as (j & Hj & <-).
    rewrite (has_shape_rows _ _ _ HVs') in Hj.
    split.
    - now rewrite (has_shape_row _ _ _ _ HVs' Hj), vdiv_length.
    - rewrite vecdot_vdiv_l, Horth by assumption. unfold Rdiv. lra. }
  rewrite Hgs.
  rewrite (vector_norm_of_unit _ (normalise_unit _ Hbeta)), vdiv_one.
  constructor; cbn [GKL.i GKL.Us GKL.Vs GKL.alphas GKL.betas GKL.beta GKL.vk].
  - now rewrite vdiv_length.
  - now apply normalise_unit.
  - intros j Hj. rewrite vecdot_vdiv_l, Horth by lia. unfold Rdiv. lra.
  - intros w _ Hw. replace (S k - 1)%nat with k by lia.
    rewrite (Hback w Hw), vecdot_vdiv_r. field. exact Hbeta.
Qed.

Lemma gkl_invariant_init (v0 : list R) :
  length v0 = nc -> vector_norm v0 <> 0 ->
  let s0 := GKL._gkl_full_reortho_init (Z.of_nat m - 1)
              (Z.of_nat nr, Z.of_nat nc) v0 in
  gkl_invariant A m nr nc 0 s0 /\ gkl_pending A nc 0 s0.
Proof.
  intros Hv0 Hnz. cbv zeta. rewrite gkl_init_components.
  replace (Z.of_nat m - 1 + 1)%Z with (Z.of_nat m) by lia.
  assert (Hrow : forall n j, (j < m)%nat ->
            nth j (zeros2 (F := R) (Z.of_nat m) (Z.of_nat n)) [] = repeat 0 n).
  { intros n j Hj. unfold zeros2. rewrite zeros_repeat, Nat2Z.id.
    rewrite nth_indep with (d' := repeat 0 n) by (rewrite repeat_length; lia).
    apply nth_repeat. }
  split.
  - constructor;
      cbn [GKL.i GKL.Us GKL.Vs GKL.alphas GKL.betas GKL.beta GKL.vk];
      try solve [intros; lia].
    + apply has_shape_intro; [rewrite zeros2_length; lia|].
      intros a Ha. rewrite Hrow by assumption. apply repeat_length.
    + apply has_shape_intro; [rewrite zeros2_length; lia|].
      intros a Ha. rewrite Hrow by assumption. apply repeat_length.
    + rewrite zeros_length. lia.
    + rewrite zeros_length. lia.
    + intros j Hj. apply Hrow. lia.
    + intros j Hj. apply Hrow. lia.
  - constructor;
      cbn [GKL.i GKL.Us GKL.Vs GKL.alphas GKL.betas GKL.beta GKL.vk];
      try solve [intros; lia].
    + now rewrite vdiv_length.
    + now apply normalise_unit.
Qed.

(** Without breakdown, the invariant holds after every step of the run, and
    the pending relations hold before every step. *)
Lemma gkl_invariant_steps (v0 : list R) k :
  length v0 = nc -> vector_norm v0 <> 0 ->
  let s0 := GKL._gkl_full_reortho_init (Z.of_nat m - 1)
              (Z.of_nat nr, Z.of_nat nc) v0 in
  let final := gkl_steps (matvec A) (fun x => vecmat x A) m s0 in
  (forall j, (j < m)%nat -> nth j (GKL.alphas final) 0 <> 0) ->
  (forall j, (1 <= j < m)%nat -> nth j (GKL.betas final) 0 <> 0) ->
  (k <= m)%nat ->
  gkl_invariant A m nr nc k (gkl_steps (matvec A) (fun x => vecmat x A) k s0)
  /\ ((k < m)%nat ->
      gkl_pending A nc k (gkl_steps (matvec A) (fun x => vecmat x A) k s0)).
Proof.
  intros Hv0 Hnz. cbv zeta. intros Halphas Hbetas Hk.
  induction k as [|k IH].
  - destruct (gkl_invariant_init v0 Hv0 Hnz) as [Hinv Hpend]. now split.
  - destruct (IH ltac:(lia)) as [Hinv Hpend']. clear IH.
    pose proof (Hpend' ltac:(lia)) as Hpend. clear Hpend'.
    assert (Hd : (0 <= Z.of_nat m - 1)%Z) by lia.
    assert (Halpha : vector_norm
                       (gkl_left_residual (matvec A)
                          (gkl_steps (matvec A) (fun x => vecmat x A) k
                             (GKL._gkl_full_reortho_init (Z.of_nat m - 1)
                                (Z.of_nat nr, Z.of_nat nc) v0))) <> 0).
    { destruct (gkl_apply_writes_coefficients (matvec A) (fun x => vecmat x A)
                  _ k (ginv_index _ _ _ _ _ _ Hinv)) as [Hw _].
      - rewrite (ginv_alphas_length _ _ _ _ _ _ Hinv). lia.
      - rewrite (ginv_betas_length _ _ _ _ _ _ Hinv). lia.
      - destruct (gkl_steps_keep_coefficients (Z.of_nat m - 1) (Z.of_nat nr)
                    (Z.of_nat nc) v0 (matvec A) (fun x => vecmat x A)
                    k (S k) m Hd ltac:(lia) ltac:(lia)) as [Hkeep _].
        rewrite gkl_steps_succ, Hw in Hkeep. rewrite <- Hkeep.
        apply Halphas. lia. }
    rewrite gkl_steps_succ. split.
    + now apply gkl_step_preserves.
    + intros HSk. apply gkl_step_pending; try assumption.
      pose proof (gkl_steps_shape (Z.of_nat m - 1) (Z.of_nat nr) (Z.of_nat nc)
                    v0 (matvec A) (fun x => vecmat x A) (S k) Hd) as Hshape.
      cbv zeta in Hshape. destruct Hshape as (Hidx & _ & _ & Hal & Hbe).
      destruct (gkl_apply_writes_coefficients (matvec A) (fun x => vecmat x A)
                  _ (S k) Hidx) as [_ Hw]; [rewrite Hal; lia|rewrite Hbe; lia|].
      destruct (gkl_steps_keep_coefficients (Z.of_nat m - 1) (Z.of_nat nr)
                  (Z.of_nat nc) v0 (matvec A) (fun x => vecmat x A)
                  (S k) (S (S k)) m Hd ltac:(lia) ltac:(lia)) as [_ Hkeep].
      rewrite (gkl_steps_succ _ _ (S k)), Hw in Hkeep.
      pose proof (Hbetas (S k) ltac:(lia)) as Hb. rewrite Hkeep in Hb.
      rewrite gkl_steps_succ in Hb.
      rewrite (gkl_step_explicit k _ Hinv Hpend ltac:(lia) Halpha) in Hb.
      exact Hb.
Qed.

Lemma nth_skipn_one (l : list R) a : nth a (skipn 1 l) 0 = nth (S a) l 0.
Proof. destruct l as [|y l]; [now destruct a|reflexivity]. Qed.

(** Orthonormal rows: the product of the matrix with its transpose is the
    identity. *)
Lemma orthonormal_rows_product n (Q : list (list R)) :
  has_shape m n Q ->
  (forall a b, (a < m)%nat -> (b < m)%nat ->
     vecdot (nth a Q []) (nth b Q []) = if Nat.eqb a b then 1 else 0) ->
  (0 < n)%nat /\ matmul Q (transpose Q) = eye m.
Proof.
  clear HA Hnr. intros HQ Hon.
  assert (Hmpos : (0 < m)%nat) by lia.
  assert (Hrow_len : forall j, (j < m)%nat -> length (nth j Q []) = n)
    by (intros; now apply (has_shape_row _ _ _ _ HQ)).
  assert (Hnpos : (0 < n)%nat).
  { pose proof (Hon 0%nat 0%nat Hmpos Hmpos) as H00.
    pose proof (Hrow_len 0%nat Hmpos) as Hlen0.
    destruct (nth 0 Q []) as [|y r]; [|simpl in Hlen0; lia].
    cbn in H00. lra. }
  split; [exact Hnpos|].
  pose proof (transpose_shape _ _ _ HQ Hmpos) as HQt.
  apply matrix_ext with (m := m) (n := m);
    [now apply matmul_shape with (p := n) | apply eye_shape |].
  intros a b Ha Hb.
  rewrite (matmul_entry _ _ _ _ _ _ _ HQ HQt Hnpos Ha Hb).
  rewrite eye_entry by assumption.
  rewrite <- (Hon a b Ha Hb).
  rewrite vecdot_big_sum by (rewrite !Hrow_len; auto).
  rewrite Hrow_len by assumption.
  apply big_sum_ext. intros k Hk.
  now rewrite (transpose_entry _ _ _ _ _ HQ Hb Hk).
Qed.

(** With the invariant after the last step, what [extract] returns factorises
    [A]: the two bases have orthonormal vectors and carry [A] to the dense
    bidiagonal matrix of the coefficients. *)
Lemma gkl_invariant_factorisation st :
  gkl_invariant A m nr nc m st ->
  let U := transpose (GKL.Us st) in
  let V := GKL.Vs st in
  let B := _bidiagonal_dense (GKL.alphas st) (skipn 1 (GKL.betas st)) in
  has_shape nr m U
  /\ has_shape m nc V
  /\ matmul (transpose U) U = eye m
  /\ matmul V (transpose V) = eye m
  /\ matmul (matmul (transpose U) A) (transpose V) = B.
Proof.
  intros Hinv. cbv zeta.
  destruct Hinv as [_ HUs HVs Hal Hbe _ _ HUon HVon Hfwd _].
  assert (Hmpos : (0 < m)%nat) by lia.
  destruct (orthonormal_rows_product nr _ HUs HUon) as [_ HUU].
  destruct (orthonormal_rows_product nc _ HVs HVon) as [Hnc HVV].
  pose proof (transpose_shape _ _ _ HUs Hmpos) as HUt.
  pose proof (transpose_shape _ _ _ HVs Hmpos) as HVt.
  rewrite (transpose_involutive m nr _ HUs Hmpos Hnr).
  split; [exact HUt|]. split; [exact HVs|].
  split; [exact HUU|]. split; [exact HVV|].
  pose proof (matmul_shape _ _ _ _ _ HA HVt Hnc) as HAVt.
  rewrite (matmul_assoc _ _ _ _ _ _ _ HUs HA HVt Hnr Hnc).
  assert (Hskip : length (skipn 1 (GKL.betas st)) = (m - 1)%nat)
    by (rewrite length_skipn; lia).
  apply matrix_ext with (m := m) (n := m);
    [now apply matmul_shape with (p := nr)
    | now apply bidiagonal_dense_shape |].
  intros a b Ha Hb.
  rewrite (bidiagonal_dense_entry m) by assumption.
  rewrite nth_skipn_one.
  rewrite (matmul_entry _ _ _ _ _ _ _ HUs HAVt Hnr Ha Hb).
  assert (Hentry : big_sum (fun j => entry (GKL.Us st) a j
                                     * entry (matmul A (transpose (GKL.Vs st))) j b) nr
                   = vecdot (nth a (GKL.Us st) [])
                       (matvec A (nth b (GKL.Vs st) []))).
  { rewrite vecdot_big_sum
      by (rewrite matvec_length, (has_shape_row _ _ _ _ HUs Ha);
          now destruct HA).
    rewrite (has_shape_row _ _ _ _ HUs Ha).
    apply big_sum_ext. intros c Hc. rewrite entry_unfold. f_equal.
    rewrite matvec_nth by (destruct HA; lia).
    rewrite (matmul_entry _ _ _ _ _ _ _ HA HVt Hnc Hc Hb).
    rewrite vecdot_big_sum
      by (rewrite (has_shape_row _ _ _ _ HA Hc), (has_shape_row _ _ _ _ HVs Hb);
          reflexivity).
    rewrite (has_shape_row _ _ _ _ HA Hc).
    apply big_sum_ext. intros k Hk.
    now rewrite (transpose_entry _ _ _ _ _ HVs Hb Hk). }
  rewrite Hentry.
  rewrite (Hfwd b _ Hb (has_shape_row _ _ _ _ HUs Ha)).
  rewrite (HUon a b Ha Hb).
  destruct (Nat.eqb_spec a b) as [->|Hab].
  - destruct (Nat.eqb_spec b 0) as [->|Hb0]; [lra|].
    rewrite (HUon b (b - 1)%nat) by lia.
    destruct (Nat.eqb_spec b (b - 1)); [lia|]. lra.
  - destruct (Nat.eqb_spec b 0) as [->|Hb0].
    + destruct (Nat.eqb_spec 0 (S a)); [lia|]. lra.
    + rewrite (HUon a (b - 1)%nat) by lia.
      destruct (Nat.eqb_spec b (S a)) as [->|Hba].
      * replace (S a - 1)%nat with a by lia. rewrite Nat.eqb_refl. lra.
      * destruct (Nat.eqb_spec a (b - 1)); [lia|]. lra.
Qed.

End BidiagonalExact.

(** For an [nr]-by-[nc] matrix [A] and a valid depth, the bidiagonal
    decomposition run for [depth + 1] steps without breakdown returns, in
    exact arithmetic, [U] with [depth + 1] orthonormal columns, [V] with
    [depth + 1] orthonormal rows, and coefficients whose dense bidiagonal
    matrix is [U.T @ A @ V.T]. *)
Theorem bidiagonalisation_factorises (nr nc : nat) (A : list (list R))
  (v0 : list R) (depth : Z)
  (alg : _DecompAlg (list R) (GKL._GKLState R)
           ((list R -> list R) * (list R -> list R))
           (list (list R) * (list R * list R) * list (list R) * (R * list R))) :
  has_shape nr nc A ->
  length v0 = nc ->
  GKL.gkl_full_reortho depth (Z.of_nat nr, Z.of_nat nc) = Ok alg ->
  gkl_no_breakdown (matvec A) (fun x => vecmat x A) depth
    (Z.of_nat nr, Z.of_nat nc) v0 ->
  exists U d e V bv,
    snd (decompose_fori_loop 0 (depth + 1) v0
           (matvec A, fun x => vecmat x A) alg)
    = Ok (U, (d, e), V, bv)
    /\ has_shape nr (Z.to_nat (depth + 1)) U
    /\ has_shape (Z.to_nat (depth + 1)) nc V
    /\ matmul (transpose U) U = eye (Z.to_nat (depth + 1))
    /\ matmul V (transpose V) = eye (Z.to_nat (depth + 1))
    /\ matmul (matmul (transpose U) A) (transpose V) = _bidiagonal_dense d e.
Proof.
  intros HA Hv0 Halg (Hnz & Halphas & Hbetas).
  assert (Hdepth : (0 <= depth <= Z.min (Z.of_nat nr) (Z.of_nat nc) - 1)%Z).
  { revert Halg. unfold GKL.gkl_full_reortho.
    destruct (Z.gtb_spec depth (Z.min (Z.of_nat nr) (Z.of_nat nc) - 1));
      [discriminate|].
    destruct (Z.ltb_spec depth 0); [discriminate|]. lia. }
  set (m := Z.to_nat (depth + 1)) in *.
  assert (Hm : (1 <= m)%nat) by (subst m; lia).
  assert (Hnr : (0 < nr)%nat) by lia.
  assert (Hdm : depth = (Z.of_nat m - 1)%Z) by (subst m; lia).
  rewrite (driver_on_gkl depth (Z.of_nat nr) (Z.of_nat nc) 0 (depth + 1) v0
             (matvec A) (fun x => vecmat x A) alg Halg).
  replace (Z.to_nat (depth + 1 - 0)) with m by (subst m; lia).
  pose proof (gkl_steps_shape depth (Z.of_nat nr) (Z.of_nat nc) v0 (matvec A)
                (fun x => vecmat x A) m ltac:(lia)) as Hshape.
  cbv zeta in Hshape. destruct Hshape as (_ & _ & _ & Hal & Hbe).
  fold m in Hal, Hbe.
  assert (Hinv : gkl_invariant A m nr nc m
                   (gkl_steps (matvec A) (fun x => vecmat x A) m
                      (GKL._gkl_full_reortho_init depth
                         (Z.of_nat nr, Z.of_nat nc) v0))).
  { rewrite Hdm.
    apply (gkl_invariant_steps A m nr nc HA Hm Hnr v0 m Hv0 Hnz);
      [| |lia]; rewrite <- Hdm.
    - intros j Hj. rewrite Forall_forall in Halphas.
      apply Halphas, nth_In. lia.
    - intros j Hj. rewrite Forall_forall in Hbetas.
      replace j with (S (j - 1)) by lia. rewrite <- nth_skipn_one.
      apply Hbetas, nth_In. rewrite length_skipn. lia. }
  pose proof (gkl_invariant_factorisation A m nr nc HA Hm Hnr _ Hinv) as Hfact.
  cbv zeta in Hfact.
  destruct (gkl_steps (matvec A) (fun x => vecmat x A) m _)
    as [idx us vs al be bt v].
  cbn [GKL._gkl_full_reortho_extract GKL.Us GKL.Vs GKL.alphas GKL.betas] in *.
  exists (transpose us), al, (skipn 1 be), vs, (bt, v).
  split; [reflexivity|exact Hfact].
Qed.

Section ConcreteBidiagonalRun.

Local Open Scope R_scope.

(** A run of depth one on a three-by-three upper bidiagonal matrix. *)
Lemma shift3_matrix_shape : has_shape 3 3 [[1; 1; 0]; [0; 1; 1]; [0; 0; 0]].
Proof. split; [reflexivity | repeat constructor]. Qed.

Lemma unit3_vector_norm_3 : vector_norm [0; 0; 1] = 1.
Proof. apply vector_norm_of_unit; cbn; lra. Qed.

Lemma shift3_run_first_step :
  gkl_steps (matvec [[1; 1; 0]; [0; 1; 1]; [0; 0; 0]])
    (fun x => vecmat x [[1; 1; 0]; [0; 1; 1]; [0; 0; 0]]) 1
    (GKL._gkl_full_reortho_init 1 (3, 3)%Z [1; 0; 0])
  = GKL.mk_GKLState 1 [[1; 0; 0]; [0; 0; 0]] [[1; 0; 0]; [0; 0; 0]]
      [1; 0] [0; 0] 1 [0; 1; 0].
Proof.
  rewrite gkl_steps_succ. change (gkl_steps _ _ 0 ?s) with s.
  rewrite gkl_init_components, unit3_vector_norm_1, vdiv_one.
  rewrite gkl_apply_unfold. cbv zeta.
  change (zeros2 (1 + 1) 3) with [[0; 0; 0]; [0; 0; 0]].
  change (zeros (1 + 1)) with [0; 0].
  change (getitem [] [[0; 0; 0]; [0; 0; 0]] (0 - 1)) with [0; 0; 0].
  replace (vsub (matvec [[1; 1; 0]; [0; 1; 1]; [0; 0; 0]] [1; 0; 0])
             (vscale 0 [0; 0; 0]))
    with [1; 0; 0] by (cbn; repeat f_equal; lra).
  rewrite unit3_vector_norm_1, vdiv_one.
  rewrite (gram_schmidt_set_zero_rows [1; 0; 0] 3) by (simpl; repeat constructor).
  rewrite unit3_vector_norm_1, vdiv_one.
  replace (vsub (vecmat [1; 0; 0] [[1; 1; 0]; [0; 1; 1]; [0; 0; 0]])
             (vscale 1 [1; 0; 0]))
    with [0; 1; 0] by (cbn; repeat f_equal; lra).
  rewrite unit3_vector_norm_2, vdiv_one.
  change (at_set [[0; 0; 0]; [0; 0; 0]] 0 [1; 0; 0]) with [[1; 0; 0]; [0; 0; 0]].
  rewrite gram_schmidt_set_orthogonal by (repeat constructor; cbn; lra).
  rewrite unit3_vector_norm_2, vdiv_one.
  reflexivity.
Qed.

Lemma shift3_run_second_step :
  gkl_steps (matvec [[1; 1; 0]; [0; 1; 1]; [0; 0; 0]])
    (fun x => vecmat x [[1; 1; 0]; [0; 1; 1]; [0; 0; 0]]) 2
    (GKL._gkl_full_reortho_init 1 (3, 3)%Z [1; 0; 0])
  = GKL.mk_GKLState 2 [[1; 0; 0]; [0; 1; 0]] [[1; 0; 0]; [0; 1; 0]]
      [1; 1] [0; 1] 1 [0; 0; 1].
Proof.
  rewrite gkl_steps_succ, shift3_run_first_step.
  rewrite gkl_apply_unfold. cbv zeta.
  change (getitem [] [[1; 0; 0]; [0; 0; 0]] (1 - 1)) with [1; 0; 0].
  replace (vsub (matvec [[1; 1; 0]; [0; 1; 1]; [0; 0; 0]] [0; 1; 0])
             (vscale 1 [1; 0; 0]))
    with [0; 1; 0] by (cbn; repeat f_equal; lra).
  rewrite unit3_vector_norm_2, vdiv_one.
  rewrite gram_schmidt_set_orthogonal by (repeat constructor; cbn; lra).
  rewrite unit3_vector_norm_2, vdiv_one.
  replace (vsub (vecmat [0; 1; 0] [[1; 1; 0]; [0; 1; 1]; [0; 0; 0]])
             (vscale 1 [0; 1; 0]))
    with [0; 0; 1] by (cbn; repeat f_equal; lra).
  rewrite unit3_vector_norm_3, vdiv_one.
  change (at_set [[1; 0; 0]; [0; 0; 0]] 1 [0; 1; 0]) with [[1; 0; 0]; [0; 1; 0]].
  rewrite gram_schmidt_set_orthogonal by (repeat constructor; cbn; lra).
  rewrite unit3_vector_norm_3, vdiv_one.
  reflexivity.
Qed.

Lemma shift3_run_no_breakdown :
  gkl_no_breakdown (matvec [[1; 1; 0]; [0; 1; 1]; [0; 0; 0]])
    (fun x => vecmat x [[1; 1; 0]; [0; 1; 1]; [0; 0; 0]]) 1
    (Z.of_nat 3, Z.of_nat 3) [1; 0; 0].
Proof.
  unfold gkl_no_breakdown.
  change (Z.to_nat (1 + 1)) with 2%nat.
  change (Z.of_nat 3) with 3%Z.
  rewrite shift3_run_second_step, unit3_vector_norm_1.
  cbn [GKL.alphas GKL.betas skipn].
  repeat split; repeat constructor; lra.
Qed.

Lemma bidiagonalisation_factorises_witness :
  exists U d e V bv,
    snd (decompose_fori_loop 0 (1 + 1) [1; 0; 0]
           (matvec [[1; 1; 0]; [0; 1; 1]; [0; 0; 0]],
            fun x => vecmat x [[1; 1; 0]; [0; 1; 1]; [0; 0; 0]])
           {| init := fun init_vec =>
                        Ok (GKL._gkl_full_reortho_init 1
                              (Z.of_nat 3, Z.of_nat 3) init_vec);
              step := fun state '(Av, vA) =>
                        GKL._gkl_full_reortho_apply state Av vA;
              extract := GKL._gkl_full_reortho_extract;
              lower_upper := (0, 1 + 1)%Z |})
    = Ok (U, (d, e), V, bv)
    /\ has_shape 3 (Z.to_nat (1 + 1)) U
    /\ has_shape (Z.to_nat (1 + 1)) 3 V
    /\ matmul (transpose U) U = eye (Z.to_nat (1 + 1))
    /\ matmul V (transpose V) = eye (Z.to_nat (1 + 1))
    /\ matmul (matmul (transpose U) [[1; 1; 0]; [0; 1; 1]; [0; 0; 0]])
         (transpose V)
       = _bidiagonal_dense d e.
Proof.
  exact (bidiagonalisation_factorises 3 3 [[1; 1; 0]; [0; 1; 1]; [0; 0; 0]]
           [1; 0; 0] 1 _ shift3_matrix_shape eq_refl eq_refl
           shift3_run_no_breakdown).
Defined.

End ConcreteBidiagonalRun.

(** ** The defining relation of the bidiagonal decomposition *)

Section BidiagonalRelation.

Local Open Scope R_scope.

Implicit Types (A : list (list R)) (x : list R) (m n nr nc r a b j k : nat)
  (st : GKL._GKLState R).

(** The dot product with a row of the identity reads a coordinate. *)
Lemma vecdot_eye_row n r x :
  length x = n -> (r < n)%nat -> vecdot (nth r (eye n) []) x = nth r x 0.
Proof.
  intros Hx Hr.
  pose proof (has_shape_row _ _ _ _ (eye_shape n) Hr) as Hrow.
  rewrite vecdot_big_sum by congruence. rewrite Hrow.
  rewrite big_sum_ext
    with (g := fun k => (if Nat.eqb r k then 1 else 0) * nth k x 0).
  - now apply big_sum_delta_l.
  - intros k Hk. rewrite <- entry_unfold, eye_entry by assumption. reflexivity.
Qed.

(** With the invariant after the last step, [A] maps the right vectors to the
    combinations of the left vectors that the bidiagonal matrix prescribes. *)
Lemma gkl_invariant_relation A m nr nc st :
  has_shape nr nc A -> (1 <= m)%nat -> (0 < nr)%nat ->
  gkl_invariant A m nr nc m st ->
  matmul A (transpose (GKL.Vs st))
  = matmul (transpose (GKL.Us st))
      (_bidiagonal_dense (GKL.alphas st) (skipn 1 (GKL.betas st))).
Proof.
  intros HA Hm Hnr [_ HUs HVs Hal Hbe _ _ HUon HVon Hfwd _].
  assert (Hmpos : (0 < m)%nat) by lia.
  destruct (orthonormal_rows_product m Hm nc _ HVs HVon) as [Hnc _].
  pose proof (transpose_shape _ _ _ HUs Hmpos) as HUt.
  pose proof (transpose_shape _ _ _ HVs Hmpos) as HVt.
  assert (Hskip : length (skipn 1 (GKL.betas st)) = (m - 1)%nat)
    by (rewrite length_skipn; lia).
  pose proof (bidiagonal_dense_shape m _ _ Hal Hskip Hmpos) as HB.
  apply matrix_ext with (m := nr) (n := m);
    [now apply matmul_shape with (p := nc)
    | now apply matmul_shape with (p := m) |].
  intros r b Hr Hb.
  rewrite (matmul_entry _ _ _ _ _ _ _ HA HVt Hnc Hr Hb).
  rewrite (matmul_entry _ _ _ _ _ _ _ HUt HB Hmpos Hr Hb).
  assert (Hleft : big_sum (fun k => entry A r k
                                    * entry (transpose (GKL.Vs st)) k b) nc
                  = vecdot (nth r (eye nr) [])
                      (matvec A (nth b (GKL.Vs st) []))).
  { rewrite vecdot_eye_row
      by (rewrite ?matvec_length; (now destruct HA) || assumption).
    rewrite matvec_nth by (destruct HA; lia).
    rewrite vecdot_big_sum
      by (rewrite (has_shape_row _ _ _ _ HA Hr), (has_shape_row _ _ _ _ HVs Hb);
          reflexivity).
    rewrite (has_shape_row _ _ _ _ HA Hr).
    apply big_sum_ext. intros k Hk.
    now rewrite (transpose_entry _ _ _ _ _ HVs Hb Hk). }
  rewrite Hleft.
  rewrite (Hfwd b _ Hb (has_shape_row _ _ _ _ (eye_shape nr) Hr)).
  rewrite !vecdot_eye_row
    by (try apply (has_shape_row _ _ _ _ HUs); (assumption || lia)).
  rewrite big_sum_ext
    with (g := fun a =>
                 entry (GKL.Us st) a r * nth b (GKL.alphas st) 0
                 * (if Nat.eqb a b then 1 else 0)
                 + (if Nat.eqb b 0 then 0
                    else entry (GKL.Us st) a r * nth b (GKL.betas st) 0)
                   * (if Nat.eqb a (b - 1) then 1 else 0)).
  - rewrite big_sum_plus.
    rewrite (big_sum_delta_r
               (fun a => entry (GKL.Us st) a r * nth b (GKL.alphas st) 0))
      by assumption.
    rewrite (big_sum_delta_r
               (fun a => if Nat.eqb b 0 then 0
                         else entry (GKL.Us st) a r * nth b (GKL.betas st) 0))
      by lia.
    rewrite !entry_unfold.
    destruct (Nat.eqb b 0); lra.
  - intros a Ha.
    rewrite (transpose_entry _ _ _ _ _ HUs Ha Hr).
    rewrite (bidiagonal_dense_entry m) by assumption.
    rewrite nth_skipn_one.
    destruct (Nat.eqb_spec a b) as [->|Hab].
    + destruct (Nat.eqb_spec b 0) as [->|Hb0]; [lra|].
      destruct (Nat.eqb_spec b (b - 1)); [lia|]. lra.
    + destruct (Nat.eqb_spec b (S a)) as [->|Hba].
      * destruct (Nat.eqb_spec (S a) 0); [lia|].
        replace (S a - 1)%nat with a by lia. rewrite Nat.eqb_refl. lra.
      * destruct (Nat.eqb_spec b 0) as [->|Hb0]; [lra|].
        destruct (Nat.eqb_spec a (b - 1)); [lia|]. lra.
Qed.

(** The state after a run without breakdown satisfies the invariant, and the
    driver returns what [extract] reads off it. *)
Lemma gkl_run_invariant nr nc A (v0 : list R) (depth : Z) alg :
  has_shape nr nc A ->
  length v0 = nc ->
  GKL.gkl_full_reortho depth (Z.of_nat nr, Z.of_nat nc) = Ok alg ->
  gkl_no_breakdown (matvec A) (fun x => vecmat x A) depth
    (Z.of_nat nr, Z.of_nat nc) v0 ->
  let final := gkl_steps (matvec A) (fun x => vecmat x A)
                 (Z.to_nat (depth + 1))
                 (GKL._gkl_full_reortho_init depth
                    (Z.of_nat nr, Z.of_nat nc) v0) in
  (1 <= Z.to_nat (depth + 1))%nat /\ (0 < nr)%nat
  /\ gkl_invariant A (Z.to_nat (depth + 1)) nr nc (Z.to_nat (depth + 1)) final
  /\ snd (decompose_fori_loop 0 (depth + 1) v0
            (matvec A, fun x => vecmat x A) alg)
     = Ok (GKL._gkl_full_reortho_extract final).
Proof.
  intros HA Hv0 Halg (Hnz & Halphas & Hbetas). cbv zeta.
  assert (Hdepth : (0 <= depth <= Z.min (Z.of_nat nr) (Z.of_nat nc) - 1)%Z).
  { revert Halg. unfold GKL.gkl_full_reortho.
    destruct (Z.gtb_spec depth (Z.min (Z.of_nat nr) (Z.of_nat nc) - 1));
      [discriminate|].
    destruct (Z.ltb_spec depth 0); [discriminate|]. lia. }
  rewrite (driver_on_gkl depth (Z.of_nat nr) (Z.of_nat nc) 0 (depth + 1) v0
             (matvec A) (fun x => vecmat x A) alg Halg).
  replace (Z.to_nat (depth + 1 - 0)) with (Z.to_nat (depth + 1)) by lia.
  set (m := Z.to_nat (depth + 1)) in *.
  assert (Hm : (1 <= m)%nat) by (subst m; lia).
  assert (Hnr : (0 < nr)%nat) by lia.
  assert (Hdm : depth = (Z.of_nat m - 1)%Z) by (subst m; lia).
  pose proof (gkl_steps_shape depth (Z.of_nat nr) (Z.of_nat nc) v0 (matvec A)
                (fun x => vecmat x A) m ltac:(lia)) as Hshape.
  cbv zeta in Hshape. destruct Hshape as (_ & _ & _ & Hal & Hbe).
  fold m in Hal, Hbe.
  split; [exact Hm|]. split; [exact Hnr|]. split; [|reflexivity].
  rewrite Hdm.
  apply (gkl_invariant_steps A m nr nc HA Hm Hnr v0 m Hv0 Hnz);
    [| |lia]; rewrite <- Hdm.
  - intros j Hj. rewrite Forall_forall in Halphas.
    apply Halphas, nth_In. lia.
  - intros j Hj. rewrite Forall_forall in Hbetas.
    replace j with (S (j - 1)) by lia. rewrite <- nth_skipn_one.
    apply Hbetas, nth_In. rewrite length_skipn. lia.
Qed.

End BidiagonalRelation.

(** The defining relation of the bidiagonal decomposition: after a run
    without breakdown, in exact arithmetic, [A @ V.T = U @ B] for the returned
    [U] and [V] and the dense bidiagonal matrix [B] of the returned
    coefficients. *)
Theorem bidiagonalisation_relates_bases (nr nc : nat) (A : list (list R))
  (v0 : list R) (depth : Z)
  (alg : _DecompAlg (list R) (GKL._GKLState R)
           ((list R -> list R) * (list R -> list R))
           (list (list R) * (list R * list R) * list (list R) * (R * list R))) :
  has_shape nr nc A ->
  length v0 = nc ->
  GKL.gkl_full_reortho depth (Z.of_nat nr, Z.of_nat nc) = Ok alg ->
  gkl_no_breakdown (matvec A) (fun x => vecmat x A) depth
    (Z.of_nat nr, Z.of_nat nc) v0 ->
  exists U d e V bv,
    snd (decompose_fori_loop 0 (depth + 1) v0
           (matvec A, fun x => vecmat x A) alg)
    = Ok (U, (d, e), V, bv)
    /\ matmul A (transpose V) = matmul U (_bidiagonal_dense d e).
Proof.
  intros HA Hv0 Halg Hnb.
  destruct (gkl_run_invariant nr nc A v0 depth alg HA Hv0 Halg Hnb)
    as (Hm & Hnr & Hinv & Hrun).
  pose proof (gkl_invariant_relation A _ nr nc _ HA Hm Hnr Hinv) as Hrel.
  rewrite Hrun.
  destruct (gkl_steps (matvec A) (fun x => vecmat x A) _ _)
    as [idx us vs al be bt v].
  cbn [GKL._gkl_full_reortho_extract GKL.Us GKL.Vs GKL.alphas GKL.betas] in *.
  exists (transpose us), al, (skipn 1 be), vs, (bt, v).
  split; [reflexivity|exact Hrel].
Qed.

Lemma bidiagonalisation_relates_bases_witness :
  exists U d e V bv,
    snd (decompose_fori_loop 0 (1 + 1) [1; 0; 0]%R
           (matvec [[1; 1; 0]; [0; 1; 1]; [0; 0; 0]]%R,
            fun x => vecmat x [[1; 1; 0]; [0; 1; 1]; [0; 0; 0]]%R)
           {| init := fun init_vec =>
                        Ok (GKL._gkl_full_reortho_init 1
                              (Z.of_nat 3, Z.of_nat 3) init_vec);
              step := fun state '(Av, vA) =>
                        GKL._gkl_full_reortho_apply state Av vA;
              extract := GKL._gkl_full_reortho_extract;
              lower_upper := (0, 1 + 1)%Z |})
    = Ok (U, (d, e), V, bv)
    /\ matmul [[1; 1; 0]; [0; 1; 1]; [0; 0; 0]]%R (transpose V)
       = matmul U (_bidiagonal_dense d e).
Proof.
  exact (bidiagonalisation_relates_bases 3 3
           [[1; 1; 0]; [0; 1; 1]; [0; 0; 0]]%R [1; 0; 0]%R 1 _
           shift3_matrix_shape eq_refl eq_refl shift3_run_no_breakdown).
Defined.

(** ** The remainder of the bidiagonal decomposition *)

Section BidiagonalRemainder.

Local Open Scope R_scope.

Implicit Types (A : list (list R)) (x y w : list R) (m n nr nc r a b j k : nat)
  (st : GKL._GKLState R).

Lemma vecdot_vadd_r w x y :
  length x = length y -> vecdot w (vadd x y) = vecdot w x + vecdot w y.
Proof.
  revert x y; induction w as [|c w IH]; intros [|s x] [|t y] Hlen;
    simpl in Hlen; try discriminate; try (cbn; lra).
  cbn [vadd]. rewrite !vecdot_cons, IH by lia.
  change (sadd s t) with (s + t). lra.
Qed.

(** Two vectors with the same dot products are equal. *)
Lemma vector_ext_dot n x y :
  length x = n -> length y = n ->
  (forall w, length w = n -> vecdot w x = vecdot w y) ->
  x = y.
Proof.
  intros Hx Hy Hdot. apply nth_ext with (d := 0) (d' := 0); [congruence|].
  intros r Hr. rewrite Hx in Hr.
  rewrite <- (vecdot_eye_row n r x Hx Hr), <- (vecdot_eye_row n r y Hy Hr).
  apply Hdot. exact (has_shape_row _ _ _ _ (eye_shape n) Hr).
Qed.

(** The non-zero entries of [alphas] are the lengths of the left residuals:
    none of these is zero. *)
Lemma gkl_left_residual_nonzero A m nr nc (v0 : list R) k :
  (1 <= m)%nat -> (k < m)%nat ->
  let s0 := GKL._gkl_full_reortho_init (Z.of_nat m - 1)
              (Z.of_nat nr, Z.of_nat nc) v0 in
  let final := gkl_steps (matvec A) (fun x => vecmat x A) m s0 in
  (forall j, (j < m)%nat -> nth j (GKL.alphas final) 0 <> 0) ->
  vector_norm
    (gkl_left_residual (matvec A)
       (gkl_steps (matvec A) (fun x => vecmat x A) k s0)) <> 0.
Proof.
  intros Hm Hk. cbv zeta. intros Halphas.
  assert (Hd : (0 <= Z.of_nat m - 1)%Z) by lia.
  pose proof (gkl_steps_shape (Z.of_nat m - 1) (Z.of_nat nr) (Z.of_nat nc)
                v0 (matvec A) (fun x => vecmat x A) k Hd) as Hshape.
  cbv zeta in Hshape. destruct Hshape as (Hidx & _ & _ & Hal & Hbe).
  destruct (gkl_apply_writes_coefficients (matvec A) (fun x => vecmat x A)
              _ k Hidx) as [Hw _]; [rewrite Hal; lia|rewrite Hbe; lia|].
  destruct (gkl_steps_keep_coefficients (Z.of_nat m - 1) (Z.of_nat nr)
              (Z.of_nat nc) v0 (matvec A) (fun x => vecmat x A)
              k (S k) m Hd ltac:(lia) ltac:(lia)) as [Hkeep _].
  rewrite gkl_steps_succ, Hw in Hkeep. rewrite <- Hkeep.
  apply Halphas. lia.
Qed.

(** After a step on non-zero left and right residuals, the trailing scalar is
    the length of the right residual, and with the working vector it
    completes the relation of the transpose of [A] on the left vector just
    written. *)
Lemma gkl_step_remainder A m nr nc k st :
  has_shape nr nc A -> (1 <= m)%nat -> (0 < nr)%nat ->
  gkl_invariant A m nr nc k st -> gkl_pending A nc k st -> (k < m)%nat ->
  vector_norm (gkl_left_residual (matvec A) st) <> 0 ->
  let st' := GKL._gkl_full_reortho_apply st (matvec A) (fun x => vecmat x A) in
  GKL.beta st' <> 0 ->
  length (GKL.vk st') = nc
  /\ (forall w, length w = nc ->
        vecdot w (vecmat (nth k (GKL.Us st') []) A)
        = nth k (GKL.alphas st') 0 * vecdot w (nth k (GKL.Vs st') [])
          + GKL.beta st' * vecdot w (GKL.vk st')).
Proof.
  intros HA Hm Hnr Hinv Hpend Hk Halpha. cbv zeta. intros Hbeta.
  assert (Hright : vector_norm
                     (gkl_right_residual (matvec A) (fun x => vecmat x A) st)
                   <> 0).
  { rewrite (gkl_step_explicit A m nr nc HA Hm Hnr k st Hinv Hpend Hk Halpha)
      in Hbeta.
    exact Hbeta. }
  destruct (gkl_step_pending A m nr nc HA Hm Hnr k st Hinv Hpend Hk
              Halpha Hright) as [Hlen _ _ Hback].
  split; [exact Hlen|]. intros w Hw.
  pose proof (Hback w ltac:(lia) Hw) as Hb.
  replace (S k - 1)%nat with k in Hb by lia. exact Hb.
Qed.

(** The entries of [alphas] and [betas] that the hypothesis of no breakdown
    speaks of. *)
Lemma gkl_no_breakdown_entries A nr nc (v0 : list R) (depth : Z) :
  (0 <= depth)%Z ->
  gkl_no_breakdown (matvec A) (fun x => vecmat x A) depth
    (Z.of_nat nr, Z.of_nat nc) v0 ->
  let final := gkl_steps (matvec A) (fun x => vecmat x A)
                 (Z.to_nat (depth + 1))
                 (GKL._gkl_full_reortho_init depth
                    (Z.of_nat nr, Z.of_nat nc) v0) in
  vector_norm v0 <> 0
  /\ (forall j, (j < Z.to_nat (depth + 1))%nat ->
        nth j (GKL.alphas final) 0 <> 0)
  /\ (forall j, (1 <= j < Z.to_nat (depth + 1))%nat ->
        nth j (GKL.betas final) 0 <> 0).
Proof.
  intros Hd (Hnz & Halphas & Hbetas). cbv zeta.
  pose proof (gkl_steps_shape depth (Z.of_nat nr) (Z.of_nat nc) v0 (matvec A)
                (fun x => vecmat x A) (Z.to_nat (depth + 1)) Hd) as Hshape.
  cbv zeta in Hshape. destruct Hshape as (_ & _ & _ & Hal & Hbe).
  split; [exact Hnz|]. split.
  - intros j Hj. rewrite Forall_forall in Halphas.
    apply Halphas, nth_In. lia.
  - intros j Hj. rewrite Forall_forall in Hbetas.
    replace j with (S (j - 1)) by lia. rewrite <- nth_skipn_one.
    apply Hbetas, nth_In. rewrite length_skipn. lia.
Qed.

(** After a run without breakdown that ends with a non-zero trailing scalar,
    the transpose of [A] maps every left vector to [alphas[j]] times the
    right vector of the same index plus [betas[j + 1]] times the next right
    vector, or, for the last one, plus the trailing scalar times the working
    vector. *)
Lemma gkl_run_remainder A m nr nc (v0 : list R) :
  has_shape nr nc A -> (1 <= m)%nat -> (0 < nr)%nat ->
  length v0 = nc -> vector_norm v0 <> 0 ->
  let s0 := GKL._gkl_full_reortho_init (Z.of_nat m - 1)
              (Z.of_nat nr, Z.of_nat nc) v0 in
  let final := gkl_steps (matvec A) (fun x => vecmat x A) m s0 in
  (forall j, (j < m)%nat -> nth j (GKL.alphas final) 0 <> 0) ->
  (forall j, (1 <= j < m)%nat -> nth j (GKL.betas final) 0 <> 0) ->
  GKL.beta final <> 0 ->
  length (GKL.vk final) = nc
  /\ (forall j w, (j < m)%nat -> length w = nc ->
        vecdot w (vecmat (nth j (GKL.Us final) []) A)
        = nth j (GKL.alphas final) 0 * vecdot w (nth j (GKL.Vs final) [])
          + (if (S j <? m)%nat
             then nth (S j) (GKL.betas final) 0
                  * vecdot w (nth (S j) (GKL.Vs final) [])
             else GKL.beta final * vecdot w (GKL.vk final))).
Proof.
  intros HA Hm Hnr Hv0 Hnz. cbv zeta. intros Halphas Hbetas Hbeta.
  destruct (gkl_invariant_steps A m nr nc HA Hm Hnr v0 m Hv0 Hnz
              Halphas Hbetas (Nat.le_refl m)) as [Hinv _].
  destruct (gkl_invariant_steps A m nr nc HA Hm Hnr v0 (m - 1) Hv0 Hnz
              Halphas Hbetas ltac:(lia)) as [Hinv1 Hpend1].
  specialize (Hpend1 ltac:(lia)).
  pose proof (gkl_left_residual_nonzero A m nr nc v0 (m - 1) Hm ltac:(lia)
                Halphas) as Halpha.
  cbv zeta in Halpha.
  pose proof (gkl_step_remainder A m nr nc (m - 1) _ HA Hm Hnr Hinv1 Hpend1
                ltac:(lia) Halpha) as Hstep.
  cbv zeta in Hstep. rewrite <- gkl_steps_succ in Hstep.
  replace (S (m - 1)) with m in Hstep by lia.
  destruct (Hstep Hbeta) as [Hlen Hlast].
  split; [exact Hlen|].
  intros j w Hj Hw.
  destruct (Nat.ltb_spec (S j) m) as [Hmid|Hend].
  - exact (ginv_backward _ _ _ _ _ _ Hinv j w Hmid Hw).
  - replace j with (m - 1)%nat by lia. exact (Hlast w Hw).
Qed.

End BidiagonalRemainder.


Lemma shift3_run_trailing_scalar :
  GKL.beta (gkl_steps (matvec [[1; 1; 0]; [0; 1; 1]; [0; 0; 0]]%R)
              (fun x => vecmat x [[1; 1; 0]; [0; 1; 1]; [0; 0; 0]]%R)
              (Z.to_nat (1 + 1))
              (GKL._gkl_full_reortho_init 1 (Z.of_nat 3, Z.of_nat 3)
                 [1; 0; 0]%R))
  <> 0%R.
Proof.
  change (Z.to_nat (1 + 1)) with 2%nat.
  change (Z.of_nat 3) with 3%Z.
  rewrite shift3_run_second_step. cbn [GKL.beta]. lra.
Qed.

